(** * taggy: the command-line front end and the duplicate-grouping engine

    The development has two layers.

    - [Click], [PyStr] and [Cli] embed [taggy/taggy_cli.py]: the option
      declarations of the three subcommands, the option processing that
      [click] performs on them, the group callback [cli] and the three
      command bodies.  Calls into [utils.file_utils] and
      [utils.image_tagger] are answered by an environment of oracles and
      recorded in a trace of events.
    - [Engine] models what the CLI calls into ([ImageTagger.find_duplicates]
      and [ImageTagger.group_duplicates]), which lives in
      [utils/image_tagger.py]: clustering by connected components, the
      best-image selector, the scoring policies and the output organizer.
      [Host] puts that engine behind the calls of [duplicates].

    The program is taken to run on a POSIX host, where [os.path] is
    [posixpath]; a Python string is held as its UTF-8 encoding, a float as a
    rational. *)

From Stdlib Require Import Ascii QArith Lqa.
From stdpp Require Import base list sorting strings gmap pretty.

(** ** Python strings *)

Module PyStr.

(** [s.split(sep)] for a one-character separator: the pieces between the
    occurrences of [sep], never an empty list. *)
Fixpoint split (sep : ascii) (s : string) : list string :=
  match s with
  | EmptyString => [EmptyString]
  | String c r =>
      if Ascii.eqb c sep then EmptyString :: split sep r
      else match split sep r with
           | h :: t => String c h :: t
           | [] => [String c EmptyString]
           end
  end.

(** The whitespace [str.strip()] removes, within ASCII: tab, newline,
    vertical tab, form feed, carriage return, the separators 28-31 and the
    space. *)
Definition is_space (c : ascii) : bool :=
  let n := nat_of_ascii c in
  (9 <=? n)%nat && (n <=? 13)%nat || (28 <=? n)%nat && (n <=? 32)%nat.

(** The whitespace above 127.  A Python string is held here as its UTF-8
    encoding, the one Rocq reads string literals in, so these characters take
    two or three bytes: U+0085 and U+00A0 are 194 133 and 194 160; U+1680 is
    225 154 128; U+2000 to U+200A, U+2028, U+2029 and U+202F are 226 128
    followed by 128-138, 168, 169 or 175; U+205F is 226 129 159; U+3000 is
    227 128 128.  With [is_space] this is every character [str.isspace()]
    holds of.  A byte 133 or 160 on its own is no character: it ends a longer
    one, as in the letter U+00E0, which is 195 160. *)
Definition is_space2 (c1 c2 : ascii) : bool :=
  let n1 := nat_of_ascii c1 in
  let n2 := nat_of_ascii c2 in
  (n1 =? 194)%nat && ((n2 =? 133)%nat || (n2 =? 160)%nat).

Definition is_space3 (c1 c2 c3 : ascii) : bool :=
  let n1 := nat_of_ascii c1 in
  let n2 := nat_of_ascii c2 in
  let n3 := nat_of_ascii c3 in
  (n1 =? 225)%nat && (n2 =? 154)%nat && (n3 =? 128)%nat
  || (n1 =? 226)%nat && (n2 =? 128)%nat
     && ((128 <=? n3)%nat && (n3 <=? 138)%nat
         || (n3 =? 168)%nat || (n3 =? 169)%nat || (n3 =? 175)%nat)
  || (n1 =? 226)%nat && (n2 =? 129)%nat && (n3 =? 159)%nat
  || (n1 =? 227)%nat && (n2 =? 128)%nat && (n3 =? 128)%nat.

(** [s.lstrip()]: leading whitespace characters are dropped, whether of one,
    two or three bytes. *)
Fixpoint lstrip (s : string) : string :=
  match s with
  | EmptyString => EmptyString
  | String c1 r1 =>
      if is_space c1 then lstrip r1
      else
        match r1 with
        | EmptyString => s
        | String c2 r2 =>
            if is_space2 c1 c2 then lstrip r2
            else
              match r2 with
              | EmptyString => s
              | String c3 r3 => if is_space3 c1 c2 c3 then lstrip r3 else s
              end
        end
  end.

(** A string of whitespace only: nothing of it is left by [lstrip]. *)
Definition all_space (s : string) : bool :=
  match lstrip s with
  | EmptyString => true
  | String _ _ => false
  end.

(** [s.rstrip()]: the string is cut where what follows is whitespace only. *)
Fixpoint rstrip (s : string) : string :=
  match s with
  | EmptyString => EmptyString
  | String c r => if all_space s then EmptyString else String c (rstrip r)
  end.

(** [s.strip()] *)
Definition strip (s : string) : string := rstrip (lstrip s).

(** [os.path.basename(p)] on a POSIX host, where [os.path] is [posixpath]:
    what follows the last slash. *)
Definition basename (p : string) : string :=
  default EmptyString (last (split "/"%char p)).

(** The string with the given bytes. *)
Definition of_bytes (l : list nat) : string :=
  foldr (λ n s, String (ascii_of_nat n) s) EmptyString l.

(** Truthiness of a value that is [None] or a string: [None] and the empty
    string are falsy. *)
Definition truthy (v : option string) : bool :=
  match v with
  | None | Some EmptyString => false
  | Some _ => true
  end.

(** [v if v else d], for [v] that is [None] or a string. *)
Definition or_else (v : option string) (d : string) : string :=
  match v with
  | Some (String _ _ as s) => s
  | _ => d
  end.

End PyStr.

(** ** The duplicate-grouping engine *)

(** [utils/image_tagger.py] is not part of the sources at hand.  Everything
    in this module is written from the design document of the repository
    (sections 3 and 4): the data model, the clustering engine, the scoring
    policies, the selector and the organizer. *)
Module Engine.

(** Modelled from the spec: [SimilarityPair] of the data model, one result of
    the Similarity Index ([utils/image_tagger.py] is missing).  The score is a
    float in the program and a rational here; only its order against the
    threshold is used. *)
Record SimilarityPair := {
  sp_a : string;
  sp_b : string;
  sp_score : Q;
}.

(** Modelled from the spec: "an edge between any two images whose similarity
    >= threshold" of an undirected graph.  A pair is read in both
    directions. *)
Definition similar (pairs : list SimilarityPair) (threshold : Q)
    (x y : string) : bool :=
  existsb (λ p,
    Qle_bool threshold (sp_score p) &&
    (bool_decide (sp_a p = x ∧ sp_b p = y) ||
     bool_decide (sp_a p = y ∧ sp_b p = x))) pairs.

(** Modelled from the spec: an image touches a component when it has an edge
    to one of its members. *)
Definition touches (adj : string → string → bool) (x : string)
    (g : list string) : bool :=
  existsb (adj x) g.

(** Modelled from the spec: adding one image to the components found so far.
    The components it touches are merged with it into one (transitive
    near-duplicates form one group), the others stay as they are. *)
Definition add_image (adj : string → string → bool) (x : string)
    (comps : list (list string)) : list (list string) :=
  (x :: mjoin (filter (λ g, touches adj x g) comps))
    :: filter (λ g, ¬ touches adj x g) comps.

(** Modelled from the spec: the connected components of the similarity graph,
    discovered by one traversal of the ids in the order given. *)
Definition components (adj : string → string → bool) (ids : list string)
    : list (list string) :=
  foldl (λ comps x, add_image adj x comps) [] ids.

(** Modelled from the spec: the Duplicate Clustering Engine of section 4.2
    ([ImageTagger.find_duplicates] is missing).  The ids are taken as a set
    and traversed in sorted order ("sort ids before traversal"); components of
    size at least two are the DuplicateGroups. *)
Definition cluster (pairs : list SimilarityPair) (similarity_threshold : Q)
    (ids : list string) : list (list string) :=
  filter (λ g, (2 ≤ length g)%nat)
    (components (similar pairs similarity_threshold)
       (merge_sort String.le (remove_dups ids))).

(** Modelled from the spec: "pairwise-connected ... (connected-components
    semantics, not full-clique)": two images are connected when a chain of
    edges between images of the set leads from one to the other. *)
Definition connected (adj : string → string → bool) (nodes : list string)
    : relation string :=
  rtc (λ x y, x ∈ nodes ∧ y ∈ nodes ∧ adj x y).

(** The two halves of "the components are the connected components": every
    component is connected, and no edge leaves a component. *)
Definition sound (adj : string → string → bool) (comps : list (list string))
    : Prop :=
  ∀ g u v, g ∈ comps → u ∈ g → v ∈ g → connected adj (mjoin comps) u v.

Definition closed (adj : string → string → bool) (comps : list (list string))
    : Prop :=
  ∀ u v, u ∈ mjoin comps → v ∈ mjoin comps → adj u v →
    ∃ g, g ∈ comps ∧ u ∈ g ∧ v ∈ g.

(** Modelled from the spec: the Scoring Policy variants of section 4.3. *)
Inductive ScoringPolicy := advanced | laplacian.

(** Modelled from the spec: the measurements a policy reads off an image.
    They come from pixel data and from the face detector, both outside the
    engine; [detect_faces] takes the cascade-definition file and the image. *)
Record Vision := {
  sharpness : string → Q;
  resolution : string → Q;
  detect_faces : string → string → nat;
}.

(** Modelled from the spec: the weights of the composite score, "a tunable
    policy detail". *)
Record Weights := {
  w_sharpness : Q;
  w_resolution : Q;
  w_face : Q;
}.

(** Modelled from the spec: [score(image) -> float].  [laplacian] is the
    sharpness estimate alone; [advanced] is the weighted sum of sharpness and
    resolution, with a bonus for an image with at least one detected face
    when a face cascade is configured. *)
Definition score (v : Vision) (w : Weights) (face_cascade_path : option string)
    (policy : ScoringPolicy) (image : string) : Q :=
  match policy with
  | laplacian => sharpness v image
  | advanced =>
      let base := (w_sharpness w * sharpness v image
                   + w_resolution w * resolution v image)%Q in
      match face_cascade_path with
      | None => base
      | Some cascade =>
          if bool_decide (1 ≤ detect_faces v cascade image)%nat
          then (base + w_face w)%Q else base
      end
  end.

(** Modelled from the spec: [beats sc y best] says that [y] replaces the best
    image so far, on a strictly higher score or, on equal scores, on the
    smaller id ("ties are broken deterministically by a fixed secondary
    key"). *)
Definition beats (sc : string → Q) (y best : string) : bool :=
  negb (Qle_bool (sc y) (sc best))
  || (Qeq_bool (sc y) (sc best) && bool_decide (String.le y best)).

(** The order behind [beats]: [x] is at least as good as [y]. *)
Definition better (sc : string → Q) (x y : string) : Prop :=
  (sc y < sc x)%Q ∨ ((sc x == sc y)%Q ∧ String.le x y).

(** Modelled from the spec: the Best-Image Selector of section 4.4,
    [select(group, policy) -> chosen_id]; the maximum score wins and ties go
    to the lexicographically smaller id. *)
Definition select (sc : string → Q) (group : list string) : option string :=
  match group with
  | [] => None
  | x :: rest => Some (foldl (λ best y, if beats sc y best then y else best) x rest)
  end.

(** Modelled from the spec: [OrganizePlan] of the data model, one entry per
    group. *)
Record PlanEntry := {
  label_subfolder : string;
  chosen_best : option string;
  all_members_to_operate : list string;
}.

(** Modelled from the spec: the three organize operations. *)
Inductive Operation := copy | symlink | move.

#[global] Instance Operation_eq_dec : EqDecision Operation.
Proof. solve_decision. Defined.

(** Modelled from the spec: the per-file outcomes of the report, "success /
    skipped / failed with reason". *)
Inductive Outcome :=
| success
| skipped (reason : string)
| failed (reason : string).

#[global] Instance Outcome_eq_dec : EqDecision Outcome.
Proof. solve_decision. Defined.

(** Modelled from the spec: one line of the report; [rl_best] flags the
    chosen-best image of its group. *)
Record ReportLine := {
  rl_source : string;
  rl_destination : string;
  rl_best : bool;
  rl_outcome : Outcome;
}.

(** Modelled from the spec: what a path of the filesystem holds. *)
Inductive Node :=
| File (content : string)
| Link (target : string).

(** Modelled from the spec: the organizer's state, that is the filesystem,
    the sources relocated so far and the report, newest line last. *)
Record Organizer := {
  fs : gmap string Node;
  relocated : gset string;
  report : list ReportLine;
}.

(** Modelled from the spec: where a member of a group goes, into the
    subfolder of the group under the output folder, with the file's own
    name. *)
Definition destination (output_folder subfolder src : string) : string :=
  output_folder +:+ "/" +:+ subfolder +:+ "/" +:+ PyStr.basename src.

(** Modelled from the spec: an outcome that changes no file is recorded. *)
Definition record_line (o : Organizer) (l : ReportLine) : Organizer :=
  {| fs := fs o; relocated := relocated o; report := report o ++ [l] |}.

(** Modelled from the spec: one file operation.  A source that was relocated
    earlier in the run is not operated again ("must not be moved twice"); a
    missing source is a per-file failure; an existing destination is never
    overwritten (skipped and reported).  Otherwise [copy] and [symlink] leave
    the source in place and [move] relocates it. *)
Definition apply_one (operation : Operation) (output_folder subfolder : string)
    (best : option string) (o : Organizer) (src : string) : Organizer :=
  let dst := destination output_folder subfolder src in
  let line r := {| rl_source := src; rl_destination := dst;
                   rl_best := bool_decide (best = Some src);
                   rl_outcome := r |} in
  if bool_decide (src ∈ relocated o) then
    record_line o (line (skipped "source already relocated"))
  else
    match fs o !! src with
    | None => record_line o (line (failed "source not found"))
    | Some node =>
        if bool_decide (is_Some (fs o !! dst)) then
          record_line o (line (skipped "destination exists"))
        else
          match operation with
          | copy =>
              {| fs := <[dst := node]> (fs o);
                 relocated := relocated o;
                 report := report o ++ [line success] |}
          | symlink =>
              {| fs := <[dst := Link src]> (fs o);
                 relocated := relocated o;
                 report := report o ++ [line success] |}
          | move =>
              {| fs := <[dst := node]> (delete src (fs o));
                 relocated := {[src]} ∪ relocated o;
                 report := report o ++ [line success] |}
          end
    end.

(** Modelled from the spec: the members of one entry, in order. *)
Definition apply_entry (operation : Operation) (output_folder : string)
    (o : Organizer) (e : PlanEntry) : Organizer :=
  foldl (apply_one operation output_folder (label_subfolder e) (chosen_best e))
    o (all_members_to_operate e).

(** Modelled from the spec: the Output Organizer of section 4.5,
    [apply(plan, operation) -> report] ([ImageTagger.group_duplicates] is
    missing).  Every entry is executed in turn on the filesystem; a failure
    on one file does not stop the run. *)
Definition apply (plan : list PlanEntry) (operation : Operation)
    (output_folder : string) (files : gmap string Node) : Organizer :=
  foldl (apply_entry operation output_folder)
    {| fs := files; relocated := ∅; report := [] |} plan.

(** Modelled from the spec: the subfolder of a group is named from its label
    and its index, or from the index alone when no label is available. *)
Definition subfolder_name (label : option string) (index : nat) : string :=
  match label with
  | Some l => l +:+ "_" +:+ pretty index
  | None => pretty index
  end.

(** Modelled from the spec: the plan is computed once from the groups, the
    label source and, when [propose_best] is set, the selector. *)
Definition make_plan (label_of : list string → option string)
    (propose_best : bool) (sc : string → Q) (groups : list (list string))
    : list PlanEntry :=
  imap (λ i g, {| label_subfolder := subfolder_name (label_of g) i;
                  chosen_best := if propose_best then select sc g else None;
                  all_members_to_operate := g |}) groups.

(** The sources the report says were operated with success. *)
Definition succeeded (r : list ReportLine) : list string :=
  rl_source <$> filter (λ l, rl_outcome l = success) r.

(** The organizer has relocated every source it reports as operated with
    success, and reports none of them twice. *)
Definition relocated_once (o : Organizer) : Prop :=
  NoDup (succeeded (report o))
  ∧ ∀ s, s ∈ succeeded (report o) → s ∈ relocated o.

End Engine.

(** ** Option processing of [click] *)

Module Click.

(** The parameter types the decorators of [taggy_cli.py] use. *)
Inductive ParamType :=
| Path (must_exist : bool)
| Choice (choices : list string)
| FLOAT
| INT
| STRING.

(** The Python values a command function receives. *)
Inductive Value :=
| VNone
| VStr (s : string)
| VFloat (q : Q)
| VInt (z : Z)
| VBool (b : bool)
| VTuple (l : list string).

(** [None] or a string, as a command function sees an optional text
    option. *)
Definition str_of (v : Value) : option string :=
  match v with
  | VStr s => Some s
  | _ => None
  end.

(** One [@click.option]: its names, [type=], [required=], [default=],
    [multiple=] and [is_flag=]. *)
Record Param := {
  p_names : list string;
  p_type : ParamType;
  p_required : bool;
  p_default : Value;
  p_multiple : bool;
  p_is_flag : bool;
}.

Inductive UsageError :=
| MissingParameter (name : string)
| BadParameter (name : string) (value : string)
| NoSuchOption (name : string).

(** What option processing asks of the host: [os.path.exists], [float(s)]
    and [int(s)].  A path that exists is taken to be readable, so the access
    check of [click.Path] always passes; a float is a rational, which leaves
    out the command lines that spell an infinity or a NaN. *)
Record Runtime := {
  path_exists : string → bool;
  to_float : string → option Q;
  to_int : string → option Z;
}.

(** Conversion of one raw command-line value by the type of its option. *)
Definition convert (rt : Runtime) (name : string) (ty : ParamType)
    (raw : string) : UsageError + Value :=
  match ty with
  | Path must_exist =>
      if must_exist && negb (path_exists rt raw)
      then inl (BadParameter name raw) else inr (VStr raw)
  | Choice choices =>
      if bool_decide (raw ∈ choices)
      then inr (VStr raw) else inl (BadParameter name raw)
  | FLOAT =>
      match to_float rt raw with
      | Some q => inr (VFloat q)
      | None => inl (BadParameter name raw)
      end
  | INT =>
      match to_int rt raw with
      | Some z => inr (VInt z)
      | None => inl (BadParameter name raw)
      end
  | STRING => inr (VStr raw)
  end.

Fixpoint convert_all (rt : Runtime) (name : string) (ty : ParamType)
    (raws : list string) : UsageError + list Value :=
  match raws with
  | [] => inr []
  | raw :: rest =>
      match convert rt name ty raw with
      | inl e => inl e
      | inr v =>
          match convert_all rt name ty rest with
          | inl e => inl e
          | inr vs => inr (v :: vs)
          end
      end
  end.

(** The command line after tokenization: option names with the value that
    follows them (a flag carries no value; its second component is
    ignored). *)
Definition Argv := list (string * string).

(** The raw values the command line gives for an option, under any of its
    names, in order. *)
Definition supplied (p : Param) (argv : Argv) : list string :=
  omap (λ kv, if bool_decide (kv.1 ∈ p_names p) then Some kv.2 else None) argv.

(** The value a command function receives for one option: a flag is true
    when present; a [multiple] option collects every occurrence into a tuple
    (of text: the one such option, [--labels], has no [type=]);
    otherwise the last occurrence is converted, and an absent option is an
    error when required and its default when not. *)
Definition process_param (rt : Runtime) (argv : Argv) (p : Param)
    : UsageError + Value :=
  let name := default EmptyString (head (p_names p)) in
  let raws := supplied p argv in
  if p_is_flag p then inr (VBool (bool_decide (raws ≠ [])))
  else if p_multiple p then
    match convert_all rt name (p_type p) raws with
    | inl e => inl e
    | inr vs => inr (VTuple (omap str_of vs))
    end
  else
    match last raws with
    | Some raw => convert rt name (p_type p) raw
    | None =>
        if p_required p then inl (MissingParameter name)
        else inr (p_default p)
    end.

Fixpoint process_params (rt : Runtime) (argv : Argv) (params : list Param)
    : UsageError + list Value :=
  match params with
  | [] => inr []
  | p :: rest =>
      match process_param rt argv p with
      | inl e => inl e
      | inr v =>
          match process_params rt argv rest with
          | inl e => inl e
          | inr vs => inr (v :: vs)
          end
      end
  end.

(** The shape of the value an option can yield, by its declaration. *)
Definition well_typed (p : Param) (v : Value) : Prop :=
  if p_is_flag p then ∃ b, v = VBool b
  else if p_multiple p then ∃ l, v = VTuple l
  else
    (p_required p = false ∧ v = p_default p)
    ∨ match p_type p with
      | Path _ | Choice _ | STRING => ∃ s, v = VStr s
      | FLOAT => ∃ q, v = VFloat q
      | INT => ∃ z, v = VInt z
      end.

Definition declared (params : list Param) (name : string) : bool :=
  bool_decide (Exists (λ p, name ∈ p_names p) params).

(** Parsing the arguments of one command on a command line that does not ask
    for help: an option the command does not declare is an error, then every
    declared option is processed.  The values come back in declaration
    order; when several options are in error, the one reported is the first
    in declaration order. *)
Definition parse_args (rt : Runtime) (params : list Param) (argv : Argv)
    : UsageError + list Value :=
  match filter (λ kv, ¬ declared params kv.1) argv with
  | kv :: _ => inl (NoSuchOption kv.1)
  | [] => process_params rt argv params
  end.

(** [click] gives every command the option [--help]. *)
Definition help_requested (argv : Argv) : bool :=
  bool_decide (Exists (λ kv, kv.1 = "--help") argv).

(** How the parsing of a command line ends: with the page of help, with a
    usage error or with the values of the options. *)
Inductive Parsed :=
| ShowHelp
| Failed (e : UsageError)
| Values (values : list Value).

(** Parsing the arguments of one command.  [--help] is eager: once the
    command line is known to name declared options only, the help is shown
    and no option is converted or checked. *)
Definition parse_command (rt : Runtime) (params : list Param) (argv : Argv)
    : Parsed :=
  if help_requested argv then
    match filter (λ kv, ¬ declared params kv.1 ∧ kv.1 ≠ "--help") argv with
    | kv :: _ => Failed (NoSuchOption kv.1)
    | [] => ShowHelp
    end
  else
    match parse_args rt params argv with
    | inl e => Failed e
    | inr values => Values values
    end.

End Click.

(** ** The command-line front end, [taggy/taggy_cli.py] *)

Module Cli.
Import Click.

(** How a run can end abnormally: a usage error of [click], or an exception
    out of one of the modules the CLI calls. *)
Inductive Exn :=
| Usage (e : UsageError)
| Raised (what : string).

(** The pieces of an f-string: literal text and the values formatted into
    it. *)
Inductive Frag :=
| Txt (s : string)
| Strs (l : list string)
| Num (q : Q)
| Int (z : Z)
| Fixed4 (q : Q).

(** The keyword arguments of [ImageTagger(...)]; [None] is a keyword the call
    does not pass. *)
Record TaggerArgs := {
  ta_model_name : string;
  ta_face_cascade_path : option (option string);
  ta_labels : option (list string);
}.

(** The keyword arguments of [tagger.group_duplicates(...)]. *)
Record GroupArgs := {
  gd_duplicates : list (list string);
  gd_output_folder : string;
  gd_operation : string;
  gd_propose_best : bool;
  gd_all_images : option (list string);
  gd_best_scoring_method : string;
}.

(** The arguments of [tagger.tag_image(...)]. *)
Record TagArgs := {
  tg_file_path : string;
  tg_output_path : option string;
  tg_top_k : Z;
  tg_labels : list string;
  tg_threshold : Q;
  tg_operation : string;
  tg_output_folder : option string;
}.

(** The arguments of [tagger.search_images(...)]. *)
Record SearchArgs := {
  sr_query : string;
  sr_images_path : string;
  sr_top_k : Z;
  sr_output_path : option string;
  sr_operation : option string;
}.

(** What a run does that can be observed: text on the terminal, log lines,
    the calls into [utils.file_utils] and [utils.image_tagger], and the page
    of help [click] prints for a command from its declarations. *)
Inductive Event :=
| show_help (params : list Param)
| echo (msg : list Frag)
| logger_info (msg : list Frag)
| call_load_config (config_file : string)
| call_ImageTagger (args : TaggerArgs)
| call_find_duplicates (images_path : string) (similarity_threshold : Q)
| call_list_supported_image_files (images_path : string)
| call_group_duplicates (args : GroupArgs)
| call_tag_image (args : TagArgs)
| call_save_metadata_to_json (results : list (string * list (string * Q)))
    (path : string)
| call_search_images (args : SearchArgs).

(** The answers of the modules the CLI imports, none of which is part of
    [taggy_cli.py]; each call returns a value or raises. *)
Record Env := {
  runtime : Runtime;
  load_config : string → Exn + gmap string string;
  ImageTagger : TaggerArgs → Exn + unit;
  find_duplicates : TaggerArgs → string → Q → Exn + list (list string);
  list_supported_image_files : string → Exn + list string;
  group_duplicates : TaggerArgs → GroupArgs → Exn + unit;
  tag_image : TaggerArgs → TagArgs → Exn + list (string * Q);
  save_metadata_to_json :
    list (string * list (string * Q)) → string → Exn + unit;
  search_images : TaggerArgs → SearchArgs → Exn + list (string * Q);
}.

(** A computation that appends to the trace of events and returns or
    raises; the trace is kept when it raises. *)
Definition M (A : Type) : Type := list Event → (Exn + A) * list Event.

Definition ret {A} (a : A) : M A := λ tr, (inr a, tr).

Definition bind {A B} (m : M A) (k : A → M B) : M B :=
  λ tr, match m tr with
        | (inl e, tr') => (inl e, tr')
        | (inr a, tr') => k a tr'
        end.

Definition raise {A} (e : Exn) : M A := λ tr, (inl e, tr).

Definition emit (e : Event) : M unit := λ tr, (inr tt, tr ++ [e]).

(** A call into another module: the event is recorded, then the call returns
    or raises as the environment says. *)
Definition call {A} (e : Event) (answer : Exn + A) : M A :=
  λ tr, (answer, tr ++ [e]).

Notation "x <- m ;; k" := (bind m (λ x, k))
  (at level 100, m at next level, right associativity).
Notation "m ;;; k" := (bind m (λ _, k))
  (at level 100, right associativity).

(** [ctx.obj], filled by the group callback. *)
Record Ctx := {
  defaults : gmap string string;
  labels : list string;
  face_cascade_path : option string;
}.

(** The group [cli], lines 28-44. *)
Definition cli_params : list Param :=
  [ {| p_names := ["--config-file"; "-c"]; p_type := STRING;
       p_required := false; p_default := VStr "taggy/config.ini";
       p_multiple := false; p_is_flag := false |} ].

Definition cli (env : Env) (config_file : string) : M Ctx :=
  defaults <- call (call_load_config config_file) (load_config env config_file) ;;
  let labels_from_config :=
    PyStr.split ","%char (default "random, general" (defaults !! "labels")) in
  let labels := PyStr.strip <$> labels_from_config in
  let face_cascade_path := defaults !! "face_cascade_path" in
  ret {| defaults := defaults; labels := labels;
         face_cascade_path := face_cascade_path |}.

(** The fallbacks both [duplicates] and [tag] start with: an option that was
    not given takes its value from the loaded configuration.

    [if not operation: operation = defaults.get("operation", "symlink")] *)
Definition resolve_operation (ctx : Ctx) (operation : option string) : string :=
  PyStr.or_else operation (default "symlink" (defaults ctx !! "operation")).

(** [if not labels: labels = ctx.obj['labels']] *)
Definition resolve_labels (ctx : Ctx) (labels : list string) : list string :=
  match labels with
  | [] => Cli.labels ctx
  | _ :: _ => labels
  end.

(** [if not face_cascade: face_cascade = ctx.obj['face_cascade_path']] *)
Definition resolve_face_cascade (ctx : Ctx) (face_cascade : option string)
    : option string :=
  if PyStr.truthy face_cascade then face_cascade else face_cascade_path ctx.

(** The command [duplicates], lines 47-100. *)
Definition duplicates_params : list Param :=
  [ {| p_names := ["--images-path"; "-i"]; p_type := Path true;
       p_required := true; p_default := VNone;
       p_multiple := false; p_is_flag := false |};
    {| p_names := ["--output-folder"; "-o"]; p_type := Path false;
       p_required := false; p_default := VNone;
       p_multiple := false; p_is_flag := false |};
    {| p_names := ["--labels"; "-l"]; p_type := STRING;
       p_required := false; p_default := VNone;
       p_multiple := true; p_is_flag := false |};
    {| p_names := ["--operation"; "-op"];
       p_type := Choice ["copy"; "symlink"; "move"];
       p_required := false; p_default := VNone;
       p_multiple := false; p_is_flag := false |};
    {| p_names := ["--similarity-threshold"; "-t"]; p_type := FLOAT;
       p_required := false; p_default := VFloat (9 # 10);
       p_multiple := false; p_is_flag := false |};
    {| p_names := ["--face-cascade"]; p_type := Path false;
       p_required := false; p_default := VNone;
       p_multiple := false; p_is_flag := false |};
    {| p_names := ["--propose-best"; "-b"]; p_type := STRING;
       p_required := false; p_default := VBool false;
       p_multiple := false; p_is_flag := true |};
    {| p_names := ["--best-method"];
       p_type := Choice ["advanced"; "laplacian"];
       p_required := false; p_default := VStr "advanced";
       p_multiple := false; p_is_flag := false |} ].

Definition find_duplicates_cmd (env : Env) (ctx : Ctx) (images_path : string)
    (output_folder : option string) (labels : list string)
    (operation : option string) (similarity_threshold : Q)
    (face_cascade : option string) (propose_best : bool)
    (best_method : string) : M unit :=
  let operation := resolve_operation ctx operation in
  let labels := resolve_labels ctx labels in
  let face_cascade := resolve_face_cascade ctx face_cascade in
  emit (echo [Txt "Operation: "; Txt operation; Txt ", Labels: "; Strs labels]) ;;;
  emit (echo [Txt "Finding duplicates in "; Txt images_path;
              Txt " with threshold="; Num similarity_threshold; Txt " ..."]) ;;;
  let tagger := {| ta_model_name := "CLIP";
                   ta_face_cascade_path := Some face_cascade;
                   ta_labels := Some labels |} in
  call (call_ImageTagger tagger) (ImageTagger env tagger) ;;;
  duplicates <- call (call_find_duplicates images_path similarity_threshold)
                  (find_duplicates env tagger images_path similarity_threshold) ;;
  match duplicates with
  | [] => emit (echo [Txt "No duplicates found."])
  | _ :: _ =>
      emit (logger_info [Txt "Found "; Int (Z.of_nat (length duplicates));
                         Txt " duplicate groups."]) ;;;
      all_images <- call (call_list_supported_image_files images_path)
                      (list_supported_image_files env images_path) ;;
      let output_folder :=
        PyStr.or_else output_folder
          (images_path +:+ "/taggy_output/duplicates/") in
      let args := {| gd_duplicates := duplicates;
                     gd_output_folder := output_folder;
                     gd_operation := operation;
                     gd_propose_best := propose_best;
                     gd_all_images :=
                       if bool_decide (operation ∈ ["copy"; "symlink"])
                       then Some all_images else None;
                     gd_best_scoring_method := best_method |} in
      call (call_group_duplicates args) (group_duplicates env tagger args) ;;;
      emit (logger_info [Txt "Done grouping duplicates."])
  end.

(** The command [tag], lines 103-168. *)
Definition tag_params : list Param :=
  [ {| p_names := ["--images-path"; "-i"]; p_type := Path true;
       p_required := true; p_default := VNone;
       p_multiple := false; p_is_flag := false |};
    {| p_names := ["--threshold"; "-t"]; p_type := FLOAT;
       p_required := false; p_default := VFloat (3 # 10);
       p_multiple := false; p_is_flag := false |};
    {| p_names := ["--top-k"; "-k"]; p_type := INT;
       p_required := false; p_default := VInt 5;
       p_multiple := false; p_is_flag := false |};
    {| p_names := ["--labels"; "-l"]; p_type := STRING;
       p_required := false; p_default := VNone;
       p_multiple := true; p_is_flag := false |};
    {| p_names := ["--one-output-json"]; p_type := Path false;
       p_required := false; p_default := VNone;
       p_multiple := false; p_is_flag := false |};
    {| p_names := ["--operation"; "-op"];
       p_type := Choice ["copy"; "symlink"];
       p_required := false; p_default := VStr "symlink";
       p_multiple := false; p_is_flag := false |};
    {| p_names := ["--images-output-folder"; "-o"]; p_type := Path false;
       p_required := false; p_default := VNone;
       p_multiple := false; p_is_flag := false |};
    {| p_names := ["--create-many-output-jsons"; "-j"]; p_type := STRING;
       p_required := false; p_default := VBool false;
       p_multiple := false; p_is_flag := true |} ].

(** The loop of lines 147-161 from index [i] on; [results_list] is returned
    in the order of the files. *)
Fixpoint tag_each (env : Env) (tagger : TaggerArgs) (top_k : Z)
    (labels : list string) (threshold : Q) (operation : string)
    (create_many_output_jsons : bool) (images_output_folder : option string)
    (count_images : Z) (i : nat) (image_files : list string)
    : M (list (string * list (string * Q))) :=
  match image_files with
  | [] => ret []
  | file_path :: rest =>
      let args := {| tg_file_path := file_path;
                     tg_output_path :=
                       if create_many_output_jsons
                       then Some (file_path +:+ ".json") else None;
                     tg_top_k := top_k;
                     tg_labels := labels;
                     tg_threshold := threshold;
                     tg_operation := operation;
                     tg_output_folder := images_output_folder |} in
      tags_scored <- call (call_tag_image args) (tag_image env tagger args) ;;
      emit (echo [Txt "#"; Int (Z.of_nat i); Txt "/"; Int count_images;
                  Txt " Tagged "; Txt (PyStr.basename file_path);
                  Txt " => "; Strs (fst <$> tags_scored)]) ;;;
      results <- tag_each env tagger top_k labels threshold operation
                   create_many_output_jsons images_output_folder
                   count_images (S i) rest ;;
      ret ((file_path, tags_scored) :: results)
  end.

Definition tag_images_cmd (env : Env) (ctx : Ctx) (images_path : string)
    (threshold : Q) (top_k : Z) (labels : list string)
    (operation : option string) (one_output_json : option string)
    (create_many_output_jsons : bool) (images_output_folder : option string)
    : M unit :=
  let operation := resolve_operation ctx operation in
  let labels := resolve_labels ctx labels in
  emit (echo [Txt "Operation: "; Txt operation; Txt ", Labels: "; Strs labels]) ;;;
  emit (echo [Txt "Tagging images in "; Txt images_path;
              Txt " with threshold="; Num threshold;
              Txt ", top_k="; Int top_k; Txt "."]) ;;;
  let tagger := {| ta_model_name := "CLIP";
                   ta_face_cascade_path := None;
                   ta_labels := Some labels |} in
  call (call_ImageTagger tagger) (ImageTagger env tagger) ;;;
  image_files <- call (call_list_supported_image_files images_path)
                   (list_supported_image_files env images_path) ;;
  match image_files with
  | [] => emit (echo [Txt "No images found in the given folder."])
  | _ :: _ =>
      emit (logger_info [Txt "Found "; Int (Z.of_nat (length image_files));
                         Txt " images."]) ;;;
      let count_images := (Z.of_nat (length image_files) - 1)%Z in
      results_list <- tag_each env tagger top_k labels threshold operation
                        create_many_output_jsons images_output_folder
                        count_images 0 image_files ;;
      (match one_output_json, results_list with
       | Some (String _ _ as json), _ :: _ =>
           call (call_save_metadata_to_json results_list json)
             (save_metadata_to_json env results_list json) ;;;
           emit (echo [Txt "Saved tagging results to "; Txt json; Txt "."])
       | _, _ => ret tt
       end) ;;;
      emit (logger_info [Txt "Done tagging images."]) ;;;
      (match images_output_folder with
       | Some (String _ _ as folder) =>
           emit (logger_info [Txt "Images saved [operation: "; Txt operation;
                              Txt "] to "; Txt folder;
                              Txt " grouped by tags (images may be repeated)"])
       | _ => ret tt
       end)
  end.

(** The command [search], lines 171-196. *)
Definition search_params : list Param :=
  [ {| p_names := ["--images-path"; "-i"]; p_type := Path true;
       p_required := true; p_default := VNone;
       p_multiple := false; p_is_flag := false |};
    {| p_names := ["--query"; "-q"]; p_type := STRING;
       p_required := true; p_default := VNone;
       p_multiple := false; p_is_flag := false |};
    {| p_names := ["--output-folder"; "-o"]; p_type := Path false;
       p_required := false; p_default := VNone;
       p_multiple := false; p_is_flag := false |};
    {| p_names := ["--operation"; "-op"];
       p_type := Choice ["copy"; "symlink"; "move"];
       p_required := false; p_default := VStr "copy";
       p_multiple := false; p_is_flag := false |};
    {| p_names := ["--top-k"; "-k"]; p_type := INT;
       p_required := false; p_default := VInt 5;
       p_multiple := false; p_is_flag := false |} ].

(** The lines printed for the results, numbered from 1. *)
Definition result_lines (results : list (string * Q)) : list Event :=
  imap (λ i r, echo [Int (Z.of_nat i + 1); Txt ". "; Txt r.1;
                     Txt " => similarity="; Fixed4 r.2]) results.

Definition search_images_cmd (env : Env) (images_path query : string)
    (top_k : Z) (output_folder operation : option string) : M unit :=
  emit (echo [Txt "Searching images in "; Txt images_path;
              Txt " for query='"; Txt query; Txt "'..."]) ;;;
  let tagger := {| ta_model_name := "CLIP";
                   ta_face_cascade_path := None;
                   ta_labels := None |} in
  call (call_ImageTagger tagger) (ImageTagger env tagger) ;;;
  let args := {| sr_query := query; sr_images_path := images_path;
                 sr_top_k := top_k; sr_output_path := output_folder;
                 sr_operation := operation |} in
  results <- call (call_search_images args) (search_images env tagger args) ;;
  match results with
  | [] => emit (echo [Txt "No results found (no images or none matched)."])
  | _ :: _ =>
      emit (echo [Txt "Top "; Int top_k; Txt " results for '"; Txt query;
                  Txt "':"]) ;;;
      foldr (λ e k, emit e ;;; k) (ret tt) (result_lines results)
  end.

(** The three subcommands registered on the group. *)
Inductive Subcommand := duplicates | tag | search.

Definition params_of (cmd : Subcommand) : list Param :=
  match cmd with
  | duplicates => duplicates_params
  | tag => tag_params
  | search => search_params
  end.

(** The call [click] makes once the options of a subcommand are parsed: the
    values are bound to the parameters of the command function by name. *)
Definition invoke (env : Env) (ctx : Ctx) (cmd : Subcommand)
    (values : list Value) : M unit :=
  match cmd, values with
  | duplicates, [VStr images_path; output_folder; VTuple labels; operation;
                 VFloat similarity_threshold; face_cascade;
                 VBool propose_best; VStr best_method] =>
      find_duplicates_cmd env ctx images_path (str_of output_folder) labels
        (str_of operation) similarity_threshold (str_of face_cascade)
        propose_best best_method
  | tag, [VStr images_path; VFloat threshold; VInt top_k; VTuple labels;
          one_output_json; operation; images_output_folder;
          VBool create_many_output_jsons] =>
      tag_images_cmd env ctx images_path threshold top_k labels
        (str_of operation) (str_of one_output_json) create_many_output_jsons
        (str_of images_output_folder)
  | search, [VStr images_path; VStr query; output_folder; operation;
             VInt top_k] =>
      search_images_cmd env images_path query top_k (str_of output_folder)
        (str_of operation)
  | _, _ => raise (Raised "TypeError")
  end.

(** One run of the program, as [click] drives it: the options of the group
    are parsed and its callback [cli] runs, then the options of the
    subcommand are parsed and validated, then the command function runs.
    With [--help] among the options of the group or of the subcommand the
    help is printed there and the run ends normally, with exit status 0. *)
Definition main (env : Env) (group_argv : Argv) (cmd : Subcommand)
    (argv : Argv) : M unit :=
  match parse_command (runtime env) cli_params group_argv with
  | Failed e => raise (Usage e)
  | ShowHelp => emit (show_help cli_params)
  | Values [VStr config_file] =>
      ctx <- cli env config_file ;;
      match parse_command (runtime env) (params_of cmd) argv with
      | Failed e => raise (Usage e)
      | ShowHelp => emit (show_help (params_of cmd))
      | Values values => invoke env ctx cmd values
      end
  | Values _ => raise (Raised "TypeError")
  end.

(** The outcome and the trace of a whole run. *)
Definition run (env : Env) (group_argv : Argv) (cmd : Subcommand)
    (argv : Argv) : (Exn + unit) * list Event :=
  main env group_argv cmd argv [].

(** Reading a trace: the constructor calls and the grouping calls in it. *)
Definition tagger_calls (tr : list Event) : list TaggerArgs :=
  omap (λ e, match e with call_ImageTagger a => Some a | _ => None end) tr.

Definition group_calls (tr : list Event) : list GroupArgs :=
  omap (λ e, match e with call_group_duplicates a => Some a | _ => None end) tr.

(** The images path a command line gives, if any. *)
Definition images_path_of (argv : Argv) : option string :=
  last (supplied {| p_names := ["--images-path"; "-i"]; p_type := Path true;
                    p_required := true; p_default := VNone;
                    p_multiple := false; p_is_flag := false |} argv).

(** The least command line a subcommand needs: its required options. *)
Definition minimal_argv (cmd : Subcommand) (images_path : string) : Argv :=
  match cmd with
  | search => [("--images-path", images_path); ("--query", "cat")]
  | _ => [("--images-path", images_path)]
  end.

(** A subcommand accepts an operation mode when the command line that asks
    for it passes option processing. *)
Definition accepts_operation (rt : Runtime) (cmd : Subcommand)
    (images_path op : string) : Prop :=
  ∃ values,
    parse_args rt (params_of cmd)
      (minimal_argv cmd images_path ++ [("--operation", op)]) = inr values.

(** The choices a subcommand declares for [--operation]. *)
Definition operation_choices (cmd : Subcommand) : list string :=
  match find (λ p, bool_decide ("--operation" ∈ p_names p)) (params_of cmd) with
  | Some p => match p_type p with Choice choices => choices | _ => [] end
  | None => []
  end.

End Cli.

(** ** The tagger behind the command line *)

(** [utils/image_tagger.py] and [utils/file_utils.py] are not part of the
    sources at hand.  This module puts the engine of the design document
    behind the calls [duplicates] makes, so that a whole run can be followed
    to its end. *)
Module Host.

(** Modelled from the spec: what a machine holds for a run.  The images of a
    folder and their similarity results (the Similarity Index), the
    measurements of the images, the weights of the composite score, the label
    source and the files are the inputs of the engine; the configuration
    reader, label inference, the JSON export and the search are "external
    collaborators" of the design and answer as oracles. *)
Record Machine := {
  options : Click.Runtime;
  config : string → Cli.Exn + gmap string string;
  images : string → list string;
  similarity : string → list Engine.SimilarityPair;
  vision : Engine.Vision;
  weights : Engine.Weights;
  label_of : list string → option string;
  files : gmap string Engine.Node;
  tags : Cli.TaggerArgs → Cli.TagArgs → Cli.Exn + list (string * Q);
  saved : list (string * list (string * Q)) → string → Cli.Exn + unit;
  matches : Cli.TaggerArgs → Cli.SearchArgs → Cli.Exn + list (string * Q);
}.

(** Modelled from the spec: the face cascade a tagger is configured with,
    "an optional external cascade-definition file path"
    ([ImageTagger.__init__] is missing).  A constructor call that passes no
    path configures none. *)
Definition cascade_of (tagger : Cli.TaggerArgs) : option string :=
  default None (Cli.ta_face_cascade_path tagger).

(** Modelled from the spec: building the tagger.  The face detector is
    optional and its "absence must not be an error"; nothing else in the
    design lets the construction fail. *)
Definition ImageTagger (m : Machine) (tagger : Cli.TaggerArgs)
    : Cli.Exn + unit :=
  inr tt.

(** Modelled from the spec: the organize operations, by the names the command
    line uses for them. *)
Definition operation_of (name : string) : option Engine.Operation :=
  if bool_decide (name = "copy") then Some Engine.copy
  else if bool_decide (name = "symlink") then Some Engine.symlink
  else if bool_decide (name = "move") then Some Engine.move
  else None.

(** Modelled from the spec: the scoring policies, by their names. *)
Definition policy_of (name : string) : option Engine.ScoringPolicy :=
  if bool_decide (name = "advanced") then Some Engine.advanced
  else if bool_decide (name = "laplacian") then Some Engine.laplacian
  else None.

(** Modelled from the spec: the score capability of a tagger under a policy;
    the face detector it reads is the one the tagger was built with. *)
Definition scorer (m : Machine) (tagger : Cli.TaggerArgs)
    (policy : Engine.ScoringPolicy) : string → Q :=
  Engine.score (vision m) (weights m) (cascade_of tagger) policy.

(** Modelled from the spec: [tagger.find_duplicates(images_path,
    similarity_threshold)] ([utils/image_tagger.py] is missing).  An empty
    image set is an input validation error, "fatal, reported before any
    clustering"; otherwise the images of the folder are clustered. *)
Definition find_duplicates (m : Machine) (tagger : Cli.TaggerArgs)
    (images_path : string) (similarity_threshold : Q)
    : Cli.Exn + list (list string) :=
  match images m images_path with
  | [] => inl (Cli.Raised "ValueError")
  | _ :: _ =>
      inr (Engine.cluster (similarity m images_path) similarity_threshold
             (images m images_path))
  end.

(** Modelled from the spec: the plan [tagger.group_duplicates(...)] computes
    from the groups it is given: the selector runs with the score of the
    tagger under the requested policy. *)
Definition plan (m : Machine) (tagger : Cli.TaggerArgs) (args : Cli.GroupArgs)
    : option (list Engine.PlanEntry) :=
  match policy_of (Cli.gd_best_scoring_method args) with
  | Some policy =>
      Some (Engine.make_plan (label_of m) (Cli.gd_propose_best args)
              (scorer m tagger policy) (Cli.gd_duplicates args))
  | None => None
  end.

(** Modelled from the spec: the plan is executed once on the files, under
    the requested operation and into the output folder. *)
Definition organize (m : Machine) (tagger : Cli.TaggerArgs)
    (args : Cli.GroupArgs) : option Engine.Organizer :=
  match operation_of (Cli.gd_operation args), plan m tagger args with
  | Some operation, Some entries =>
      Some (Engine.apply entries operation (Cli.gd_output_folder args)
              (files m))
  | _, _ => None
  end.

(** Modelled from the spec: [tagger.group_duplicates(...)].  An operation or
    a policy the design does not know is an input validation error; a
    failure on a file is recorded in the report and does not end the run. *)
Definition group_duplicates (m : Machine) (tagger : Cli.TaggerArgs)
    (args : Cli.GroupArgs) : Cli.Exn + unit :=
  match organize m tagger args with
  | Some _ => inr tt
  | None => inl (Cli.Raised "ValueError")
  end.

(** Modelled from the spec: the answers the command line gets on a
    machine. *)
Definition env (m : Machine) : Cli.Env :=
  {| Cli.runtime := options m;
     Cli.load_config := config m;
     Cli.ImageTagger := ImageTagger m;
     Cli.find_duplicates := find_duplicates m;
     Cli.list_supported_image_files := λ images_path, inr (images m images_path);
     Cli.group_duplicates := group_duplicates m;
     Cli.tag_image := tags m;
     Cli.save_metadata_to_json := saved m;
     Cli.search_images := matches m |}.

End Host.

(** ** Sample inputs *)

(** The scenario of the spec: five images, 1-3 pairwise at 0.95, 4-5 at
    0.92. *)
Definition five_pairs : list Engine.SimilarityPair :=
  [ Engine.Build_SimilarityPair "img1" "img2" (95 # 100);
    Engine.Build_SimilarityPair "img1" "img3" (95 # 100);
    Engine.Build_SimilarityPair "img2" "img3" (95 # 100);
    Engine.Build_SimilarityPair "img4" "img5" (92 # 100);
    Engine.Build_SimilarityPair "img1" "img4" (40 # 100);
    Engine.Build_SimilarityPair "img3" "img5" (30 # 100) ].

Definition five_ids : list string :=
  ["img3"; "img5"; "img1"; "img4"; "img2"].

(** A host on which the folder ["imgs"] exists, where no duplicate and no
    search match is found. *)
Definition quiet_env : Cli.Env :=
  {| Cli.runtime :=
       {| Click.path_exists := λ p, bool_decide (p = "imgs");
          Click.to_float := λ _, Some (1 # 2);
          Click.to_int := λ _, Some 3%Z |};
     Cli.load_config := λ _, inr ∅;
     Cli.ImageTagger := λ _, inr tt;
     Cli.find_duplicates := λ _ _ _, inr [];
     Cli.list_supported_image_files := λ _, inr [];
     Cli.group_duplicates := λ _ _, inr tt;
     Cli.tag_image := λ _ _, inr [];
     Cli.save_metadata_to_json := λ _ _, inr tt;
     Cli.search_images := λ _ _, inr [] |}.

(** The same host with three images, two of them duplicates. *)
Definition busy_env : Cli.Env :=
  {| Cli.runtime := Cli.runtime quiet_env;
     Cli.load_config := λ _, inr ∅;
     Cli.ImageTagger := λ _, inr tt;
     Cli.find_duplicates := λ _ _ _, inr [["imgs/a.jpg"; "imgs/b.jpg"]];
     Cli.list_supported_image_files :=
       λ _, inr ["imgs/a.jpg"; "imgs/b.jpg"; "imgs/c.jpg"];
     Cli.group_duplicates := λ _ _, inr tt;
     Cli.tag_image := λ _ _, inr [("cat", 9 # 10)];
     Cli.save_metadata_to_json := λ _ _, inr tt;
     Cli.search_images := λ _ _, inr [("imgs/a.jpg", 7 # 10)] |}.

(** A machine with the five images of the scenario in the folder ["imgs"],
    no configuration and no face cascade; only the third image shows a
    face. *)
Definition studio : Host.Machine :=
  {| Host.options := Cli.runtime quiet_env;
     Host.config := λ _, inr ∅;
     Host.images := λ p, if bool_decide (p = "imgs") then five_ids else [];
     Host.similarity := λ _, five_pairs;
     Host.vision :=
       {| Engine.sharpness :=
            λ image, if bool_decide (image = "img2") then 3%Q else 1%Q;
          Engine.resolution := λ _, 2%Q;
          Engine.detect_faces :=
            λ _ image, if bool_decide (image = "img3") then 1%nat else 0%nat |};
     Host.weights := {| Engine.w_sharpness := 1%Q; Engine.w_resolution := 1%Q;
                        Engine.w_face := 10%Q |};
     Host.label_of := λ _, None;
     Host.files := ∅;
     Host.tags := λ _ _, inr [];
     Host.saved := λ _ _, inr tt;
     Host.matches := λ _ _, inr [] |}.

(** A host whose configuration names an operation and labels. *)
Definition configured_env : Cli.Env :=
  {| Cli.runtime := Cli.runtime quiet_env;
     Cli.load_config :=
       λ _, inr (<["operation" := "move"]>
                   (<["labels" := " cat, big dog ,"]> ∅));
     Cli.ImageTagger := λ _, inr tt;
     Cli.find_duplicates := λ _ _ _, inr [["imgs/a.jpg"; "imgs/b.jpg"]];
     Cli.list_supported_image_files :=
       λ _, inr ["imgs/a.jpg"; "imgs/b.jpg"; "imgs/c.jpg"];
     Cli.group_duplicates := λ _ _, inr tt;
     Cli.tag_image := λ _ _, inr [];
     Cli.save_metadata_to_json := λ _ _, inr tt;
     Cli.search_images := λ _ _, inr [] |}.

(** The context the group callback builds from an empty configuration. *)
Definition empty_ctx : Cli.Ctx :=
  {| Cli.defaults := ∅; Cli.labels := ["random"; "general"];
     Cli.face_cascade_path := None |}.

(** Three files and a plan whose two entries share one of them. *)
Definition three_files : gmap string Engine.Node :=
  <["d/a.jpg" := Engine.File "A"]>
    (<["d/b.jpg" := Engine.File "B"]>
       (<["d/c.jpg" := Engine.File "C"]> ∅)).

Definition overlapping_plan : list Engine.PlanEntry :=
  Engine.make_plan (λ _, Some "cat") false (λ _, 0%Q)
    [["d/a.jpg"; "d/b.jpg"]; ["d/b.jpg"; "d/c.jpg"]].

(** ** Expected arguments and traces *)

Module Trace.
Import Click Cli.

(** The value the command line gives for an option known under [names]: its
    last occurrence. *)
Definition given (names : list string) (argv : Argv) : option string :=
  last (omap (λ kv, if bool_decide (kv.1 ∈ names) then Some kv.2 else None)
          argv).

(** Every value the command line gives for an option known under [names],
    in order. *)
Definition all_given (names : list string) (argv : Argv) : list string :=
  omap (λ kv, if bool_decide (kv.1 ∈ names) then Some kv.2 else None) argv.

(** The configuration file a run reads: [--config-file], or its default. *)
Definition config_file_of (group_argv : Argv) : string :=
  default "taggy/config.ini" (given ["--config-file"; "-c"] group_argv).

(** [ctx.obj] as the group callback fills it from a loaded configuration,
    lines 35-44. *)
Definition context_of (config : gmap string string) : Ctx :=
  {| defaults := config;
     labels := PyStr.strip <$>
                 PyStr.split ","%char
                   (default "random, general" (config !! "labels"));
     face_cascade_path := config !! "face_cascade_path" |}.

(** The tagger [tag] builds, line 136. *)
Definition tag_tagger (ctx : Ctx) (labels : list string) : TaggerArgs :=
  {| ta_model_name := "CLIP"; ta_face_cascade_path := None;
     ta_labels := Some (resolve_labels ctx labels) |}.

(** The tagger [duplicates] builds, line 81. *)
Definition duplicates_tagger (ctx : Ctx) (labels : list string)
    (face_cascade : option string) : TaggerArgs :=
  {| ta_model_name := "CLIP";
     ta_face_cascade_path := Some (resolve_face_cascade ctx face_cascade);
     ta_labels := Some (resolve_labels ctx labels) |}.

(** The tagger [search] builds, line 187. *)
Definition search_tagger : TaggerArgs :=
  {| ta_model_name := "CLIP"; ta_face_cascade_path := None;
     ta_labels := None |}.

(** The arguments of the call of lines 148-156 for one file. *)
Definition tag_args (top_k : Z) (labels : list string) (threshold : Q)
    (operation : string) (create_many_output_jsons : bool)
    (images_output_folder : option string) (file_path : string) : TagArgs :=
  {| tg_file_path := file_path;
     tg_output_path :=
       if create_many_output_jsons then Some (file_path +:+ ".json") else None;
     tg_top_k := top_k;
     tg_labels := labels;
     tg_threshold := threshold;
     tg_operation := operation;
     tg_output_folder := images_output_folder |}.

(** The progress line of line 161. *)
Definition progress_line (count_images : Z) (i : nat) (file_path : string)
    (tags_scored : list (string * Q)) : Event :=
  echo [Txt "#"; Int (Z.of_nat i); Txt "/"; Int count_images;
        Txt " Tagged "; Txt (PyStr.basename file_path);
        Txt " => "; Strs (fst <$> tags_scored)].

(** What the loop of lines 147-161 leaves in the trace when every call
    returns: for each file the call and its progress line. *)
Fixpoint tag_events (args : string → TagArgs)
    (tags : string → list (string * Q)) (count_images : Z) (i : nat)
    (files : list string) : list Event :=
  match files with
  | [] => []
  | f :: rest =>
      call_tag_image (args f) :: progress_line count_images i f (tags f)
        :: tag_events args tags count_images (S i) rest
  end.

(** What lines 163-165 leave in the trace: the results are saved when a JSON
    path was given and there are results. *)
Definition save_events (one_output_json : option string)
    (results_list : list (string * list (string * Q))) : list Event :=
  match one_output_json, results_list with
  | Some (String _ _ as json), _ :: _ =>
      [ call_save_metadata_to_json results_list json;
        echo [Txt "Saved tagging results to "; Txt json; Txt "."] ]
  | _, _ => []
  end.

(** What lines 167-168 leave in the trace. *)
Definition folder_events (operation : string)
    (images_output_folder : option string) : list Event :=
  match images_output_folder with
  | Some (String _ _ as folder) =>
      [ logger_info [Txt "Images saved [operation: "; Txt operation;
                     Txt "] to "; Txt folder;
                     Txt " grouped by tags (images may be repeated)"] ]
  | _ => []
  end.

(** What [duplicates] leaves in the trace up to the call of
    [find_duplicates], lines 78-83. *)
Definition duplicates_prologue (ctx : Ctx) (images_path : string)
    (labels : list string) (operation : option string)
    (similarity_threshold : Q) (face_cascade : option string) : list Event :=
  [ echo [Txt "Operation: "; Txt (resolve_operation ctx operation);
          Txt ", Labels: "; Strs (resolve_labels ctx labels)];
    echo [Txt "Finding duplicates in "; Txt images_path;
          Txt " with threshold="; Num similarity_threshold; Txt " ..."];
    call_ImageTagger (duplicates_tagger ctx labels face_cascade);
    call_find_duplicates images_path similarity_threshold ].

(** The arguments of the call of lines 91-98. *)
Definition group_args (ctx : Ctx) (images_path : string)
    (output_folder : option string) (operation : option string)
    (propose_best : bool) (best_method : string)
    (duplicates : list (list string)) (all_images : list string)
    : GroupArgs :=
  {| gd_duplicates := duplicates;
     gd_output_folder :=
       PyStr.or_else output_folder
         (images_path +:+ "/taggy_output/duplicates/");
     gd_operation := resolve_operation ctx operation;
     gd_propose_best := propose_best;
     gd_all_images :=
       if bool_decide (resolve_operation ctx operation ∈ ["copy"; "symlink"])
       then Some all_images else None;
     gd_best_scoring_method := best_method |}.

(** What [tag] leaves in the trace before it looks at the listing. *)
Definition tag_prologue (ctx : Ctx) (images_path : string) (threshold : Q)
    (top_k : Z) (labels : list string) (operation : option string)
    : list Event :=
  [ echo [Txt "Operation: "; Txt (resolve_operation ctx operation);
          Txt ", Labels: "; Strs (resolve_labels ctx labels)];
    echo [Txt "Tagging images in "; Txt images_path;
          Txt " with threshold="; Num threshold;
          Txt ", top_k="; Int top_k; Txt "."];
    call_ImageTagger (tag_tagger ctx labels);
    call_list_supported_image_files images_path ].

(** Reading a trace: the calls of each kind in it. *)
Definition tag_calls (tr : list Event) : list TagArgs :=
  omap (λ e, match e with call_tag_image a => Some a | _ => None end) tr.

Definition save_calls (tr : list Event)
    : list (list (string * list (string * Q)) * string) :=
  omap (λ e, match e with
             | call_save_metadata_to_json r p => Some (r, p)
             | _ => None
             end) tr.

Definition search_calls (tr : list Event) : list SearchArgs :=
  omap (λ e, match e with call_search_images a => Some a | _ => None end) tr.

Definition find_calls (tr : list Event) : list (string * Q) :=
  omap (λ e, match e with
             | call_find_duplicates p t => Some (p, t)
             | _ => None
             end) tr.

Definition list_calls (tr : list Event) : list string :=
  omap (λ e, match e with
             | call_list_supported_image_files p => Some p
             | _ => None
             end) tr.

(** The paths a trace hands to the modules that read the images folder. *)
Definition scanned_paths (tr : list Event) : list string :=
  omap (λ e, match e with
             | call_find_duplicates p _ => Some p
             | call_list_supported_image_files p => Some p
             | call_search_images a => Some (sr_images_path a)
             | _ => None
             end) tr.

(** A computation is framed when the trace it starts from only prefixes what
    it does. *)
Definition framed {A} (m : M A) : Prop :=
  ∀ tr, m tr = (fst (m []), tr ++ snd (m [])).

(** A framed computation all of whose events satisfy [P]. *)
Definition within (P : Event → Prop) {A} (m : M A) : Prop :=
  framed m ∧ Forall P (snd (m [])).

(** What a run can leave in the trace before its command function is
    entered: the reading of the configuration and a page of help. *)
Definition before_command (ev : Event) : Prop :=
  (∃ config_file, ev = call_load_config config_file)
  ∨ (∃ params, ev = show_help params).

(** A run that ended before its command function was entered. *)
Definition stopped_early (r : (Exn + unit) * list Event) : Prop :=
  ∀ ev, ev ∈ snd r → before_command ev.

(** What [duplicates] may leave in the trace, given its arguments. *)
Definition duplicates_event (ctx : Ctx) (images_path : string)
    (output_folder : option string) (labels : list string)
    (operation : option string) (similarity_threshold : Q)
    (face_cascade : option string) (propose_best : bool)
    (best_method : string) (ev : Event) : Prop :=
  match ev with
  | echo _ | logger_info _ => True
  | call_ImageTagger a => a = duplicates_tagger ctx labels face_cascade
  | call_find_duplicates p t => p = images_path ∧ t = similarity_threshold
  | call_list_supported_image_files p => p = images_path
  | call_group_duplicates a =>
      gd_duplicates a ≠ []
      ∧ gd_output_folder a
        = PyStr.or_else output_folder
            (images_path +:+ "/taggy_output/duplicates/")
      ∧ gd_operation a = resolve_operation ctx operation
      ∧ gd_propose_best a = propose_best
      ∧ gd_best_scoring_method a = best_method
      ∧ (is_Some (gd_all_images a)
         ↔ resolve_operation ctx operation ∈ ["copy"; "symlink"])
  | _ => False
  end.

(** What [tag] may leave in the trace, given its arguments. *)
Definition tag_event (ctx : Ctx) (images_path : string) (threshold : Q)
    (top_k : Z) (labels : list string) (operation : option string)
    (one_output_json : option string) (create_many_output_jsons : bool)
    (images_output_folder : option string) (ev : Event) : Prop :=
  match ev with
  | echo _ | logger_info _ => True
  | call_ImageTagger a => a = tag_tagger ctx labels
  | call_list_supported_image_files p => p = images_path
  | call_tag_image a =>
      a = tag_args top_k (resolve_labels ctx labels) threshold
            (resolve_operation ctx operation) create_many_output_jsons
            images_output_folder (tg_file_path a)
  | call_save_metadata_to_json _ json =>
      one_output_json = Some json ∧ json ≠ EmptyString
  | _ => False
  end.

(** What [search] may leave in the trace, given its arguments. *)
Definition search_event (images_path query : string) (top_k : Z)
    (output_folder operation : option string) (ev : Event) : Prop :=
  match ev with
  | echo _ => True
  | call_ImageTagger a => a = search_tagger
  | call_search_images a =>
      a = {| sr_query := query; sr_images_path := images_path;
             sr_top_k := top_k; sr_output_path := output_folder;
             sr_operation := operation |}
  | _ => False
  end.

(** The first and the last character of a string. *)
Definition first_char (s : string) : option ascii :=
  match s with
  | EmptyString => None
  | String c _ => Some c
  end.

Fixpoint last_char (s : string) : option ascii :=
  match s with
  | EmptyString => None
  | String c EmptyString => Some c
  | String _ r => last_char r
  end.

Fixpoint chars (s : string) : list ascii :=
  match s with
  | EmptyString => []
  | String c r => c :: chars r
  end.

(** The environment with another answer of [load_config]. *)
Definition with_config (env : Env)
    (answer : string → Exn + gmap string string) : Env :=
  {| runtime := runtime env;
     load_config := answer;
     ImageTagger := ImageTagger env;
     find_duplicates := find_duplicates env;
     list_supported_image_files := list_supported_image_files env;
     group_duplicates := group_duplicates env;
     tag_image := tag_image env;
     save_metadata_to_json := save_metadata_to_json env;
     search_images := search_images env |}.

End Trace.

(** A host like [busy_env] on which tagging the second image fails. *)
Definition flaky_env : Cli.Env :=
  {| Cli.runtime := Cli.runtime quiet_env;
     Cli.load_config := λ _, inr ∅;
     Cli.ImageTagger := λ _, inr tt;
     Cli.find_duplicates := λ _ _ _, inr [];
     Cli.list_supported_image_files :=
       λ _, inr ["imgs/a.jpg"; "imgs/b.jpg"; "imgs/c.jpg"];
     Cli.group_duplicates := λ _ _, inr tt;
     Cli.tag_image :=
       λ _ a, if bool_decide (Cli.tg_file_path a = "imgs/b.jpg")
              then inl (Cli.Raised "UnidentifiedImageError")
              else inr [("cat", 9 # 10)];
     Cli.save_metadata_to_json := λ _ _, inr tt;
     Cli.search_images := λ _ _, inr [] |}.

(** A host on which the model cannot be loaded. *)
Definition broken_env : Cli.Env :=
  {| Cli.runtime := Cli.runtime quiet_env;
     Cli.load_config := λ _, inr ∅;
     Cli.ImageTagger := λ _, inl (Cli.Raised "OSError");
     Cli.find_duplicates := λ _ _ _, inr [];
     Cli.list_supported_image_files := λ _, inr [];
     Cli.group_duplicates := λ _ _, inr tt;
     Cli.tag_image := λ _ _, inr [];
     Cli.save_metadata_to_json := λ _ _, inr tt;
     Cli.search_images := λ _ _, inr [] |}.

(** * Properties *)

(** ** Connected components *)

Section components_facts.
Variable adj : string → string → bool.

Lemma add_image_members x comps :
  mjoin (Engine.add_image adj x comps) ≡ₚ x :: mjoin comps.
Proof.
  unfold Engine.add_image. simpl. constructor.
  rewrite <- join_app. by rewrite filter_app_complement.
Qed.

Lemma foldl_add_image_members ids comps :
  mjoin (foldl (λ c x, Engine.add_image adj x c) comps ids)
  ≡ₚ ids ++ mjoin comps.
Proof.
  revert comps. induction ids as [|x ids IH]; intros comps; simpl; [done|].
  rewrite IH, add_image_members. by rewrite Permutation_middle.
Qed.

Lemma components_members ids : mjoin (Engine.components adj ids) ≡ₚ ids.
Proof.
  unfold Engine.components. rewrite foldl_add_image_members. simpl.
  by rewrite app_nil_r.
Qed.

Lemma touches_spec x g :
  Engine.touches adj x g ↔ ∃ w, w ∈ g ∧ adj x w.
Proof.
  unfold Engine.touches. rewrite existb_True, Exists_exists. done.
Qed.

Lemma elem_of_add_image g x comps :
  g ∈ Engine.add_image adj x comps ↔
  g = x :: mjoin (filter (λ h, Engine.touches adj x h) comps)
  ∨ (g ∈ comps ∧ ¬ Engine.touches adj x g).
Proof.
  unfold Engine.add_image. rewrite elem_of_cons, list_elem_of_filter. tauto.
Qed.

Lemma connected_mono nodes nodes' u v :
  nodes ⊆ nodes' →
  Engine.connected adj nodes u v → Engine.connected adj nodes' u v.
Proof.
  intros Hsub. apply rtc_subrel. intros a b (? & ? & ?). auto.
Qed.

Local Abbreviation sound := (Engine.sound adj).
Local Abbreviation closed := (Engine.closed adj).

Hypothesis adj_sym : ∀ x y, adj x y = adj y x.

Lemma add_image_sound x comps :
  sound comps → sound (Engine.add_image adj x comps).
Proof.
  intros Hs.
  assert (Hsub : mjoin comps ⊆ mjoin (Engine.add_image adj x comps)).
  { intros a Ha. rewrite add_image_members. by apply list_elem_of_further. }
  assert (Hx : x ∈ mjoin (Engine.add_image adj x comps)).
  { rewrite add_image_members. apply list_elem_of_here. }
  assert (Hhub : ∀ u,
    u ∈ x :: mjoin (filter (λ h, Engine.touches adj x h) comps) →
    Engine.connected adj (mjoin (Engine.add_image adj x comps)) x u
    ∧ Engine.connected adj (mjoin (Engine.add_image adj x comps)) u x).
  { intros u [->|Hu]%elem_of_cons; [split; apply rtc_refl|].
    apply list_elem_of_join in Hu as (h & Huh & Hh).
    apply list_elem_of_filter in Hh as [Ht Hh].
    apply touches_spec in Ht as (w & Hw & Hxw).
    assert (Hwn : w ∈ mjoin comps).
    { apply list_elem_of_join. eauto. }
    split.
    - eapply rtc_l; [|eapply connected_mono, (Hs h w u); eauto].
      auto.
    - eapply rtc_r; [eapply connected_mono, (Hs h u w); eauto|].
      rewrite adj_sym in Hxw. auto. }
  intros g u v [->|[Hg _]]%elem_of_add_image Hu Hv.
  - etrans; [apply (Hhub u Hu)|apply (Hhub v Hv)].
  - eapply connected_mono; [done|]. by apply (Hs g).
Qed.

Lemma add_image_closed x comps :
  closed comps → closed (Engine.add_image adj x comps).
Proof.
  intros Hc.
  assert (Hnew : ∀ v, v ∈ mjoin comps → adj x v →
    v ∈ x :: mjoin (filter (λ h, Engine.touches adj x h) comps)).
  { intros v (h & Hvh & Hh)%list_elem_of_join Hxv.
    apply list_elem_of_further, list_elem_of_join. exists h. split; [done|].
    apply list_elem_of_filter. split; [|done].
    apply touches_spec. eauto. }
  intros u v Hu Hv Huv.
  rewrite add_image_members in Hu, Hv.
  apply elem_of_cons in Hu as [->|Hu]; apply elem_of_cons in Hv as [->|Hv].
  - eexists. split; [apply list_elem_of_here|]. split; apply list_elem_of_here.
  - eexists. split; [apply list_elem_of_here|].
    split; [apply list_elem_of_here|]. by apply Hnew.
  - eexists. split; [apply list_elem_of_here|].
    split; [|apply list_elem_of_here]. apply Hnew; [done|].
    by rewrite adj_sym.
  - destruct (Hc u v Hu Hv Huv) as (g & Hg & Hug & Hvg).
    destruct (decide (Engine.touches adj x g)) as [Ht|Ht].
    + eexists. split; [apply list_elem_of_here|].
      split; apply list_elem_of_further, list_elem_of_join; exists g;
        (split; [done|]); apply list_elem_of_filter; done.
    + exists g. split; [|done]. apply elem_of_add_image. auto.
Qed.

Lemma components_sound_closed ids :
  sound (Engine.components adj ids) ∧ closed (Engine.components adj ids).
Proof.
  unfold Engine.components.
  assert (H0 : sound [] ∧ closed []).
  { split.
    - intros g u v Hg. by apply elem_of_nil in Hg.
    - intros u v Hu. by apply elem_of_nil in Hu. }
  revert H0. generalize (@nil (list string)).
  induction ids as [|x ids IH]; intros comps [Hs Hc]; simpl; [done|].
  apply IH. split; [by apply add_image_sound|by apply add_image_closed].
Qed.

End components_facts.

Lemma join_filter_sublist (P : list string → Prop) `{∀ g, Decision (P g)}
    (ls : list (list string)) :
  mjoin (filter P ls) `sublist_of` mjoin ls.
Proof.
  induction ls as [|g ls IH]; simpl; [done|].
  rewrite filter_cons. destruct (decide (P g)); simpl.
  - by apply sublist_app.
  - by apply sublist_inserts_l.
Qed.

Lemma join_NoDup_disjoint (ls : list (list string)) i j g1 g2 x :
  NoDup (mjoin ls) → ls !! i = Some g1 → ls !! j = Some g2 → i ≠ j →
  x ∈ g1 → x ∉ g2.
Proof.
  revert i j. induction ls as [|g ls IH]; intros i j Hnd Hi Hj Hij Hx1 Hx2.
  { by rewrite lookup_nil in Hi. }
  simpl in Hnd. apply NoDup_app in Hnd as (_ & Hsep & Hrest).
  destruct i as [|i], j as [|j]; simpl in *; simplify_eq.
  - apply (Hsep x Hx1). apply list_elem_of_join. exists g2. split; [done|].
    by eapply list_elem_of_lookup_2.
  - apply (Hsep x Hx2). apply list_elem_of_join. exists g1. split; [done|].
    by eapply list_elem_of_lookup_2.
  - eapply (IH i j); eauto.
Qed.

Lemma join_NoDup_unique (ls : list (list string)) g h u :
  NoDup (mjoin ls) → g ∈ ls → h ∈ ls → u ∈ g → u ∈ h → g = h.
Proof.
  intros Hnd [i Hi]%list_elem_of_lookup_1 [j Hj]%list_elem_of_lookup_1 Hg Hh.
  destruct (decide (i = j)) as [->|Hij]; [congruence|].
  by destruct (join_NoDup_disjoint ls i j g h u).
Qed.

Lemma join_NoDup_member (ls : list (list string)) g :
  NoDup (mjoin ls) → g ∈ ls → NoDup g.
Proof.
  induction ls as [|h ls IH]; intros Hnd Hg; [by apply elem_of_nil in Hg|].
  simpl in Hnd. apply NoDup_app in Hnd as (Hh & _ & Hrest).
  apply elem_of_cons in Hg as [->|Hg]; auto.
Qed.

(** In a closed partition, connected images share their component. *)
Lemma closed_connected_same adj (comps : list (list string)) g u v :
  Engine.closed adj comps → NoDup (mjoin comps) →
  Engine.connected adj (mjoin comps) u v →
  g ∈ comps → u ∈ g → v ∈ g.
Proof.
  intros Hc Hnd Hconn Hg. induction Hconn as [|u w v (Hu & Hw & Huw) _ IH];
    intros Hug; [done|].
  apply IH. destruct (Hc u w Hu Hw Huw) as (h & Hh & Huh & Hwh).
  by rewrite (join_NoDup_unique comps g h u).
Qed.

Lemma similar_spec pairs t x y :
  Engine.similar pairs t x y ↔
  ∃ p, p ∈ pairs ∧ (t <= Engine.sp_score p)%Q ∧
       ((Engine.sp_a p = x ∧ Engine.sp_b p = y)
        ∨ (Engine.sp_a p = y ∧ Engine.sp_b p = x)).
Proof.
  unfold Engine.similar. rewrite existb_True, Exists_exists.
  apply exist_proper. intros p.
  rewrite andb_True, orb_True, !bool_decide_spec.
  rewrite <- Qle_bool_iff, Is_true_true. done.
Qed.

Lemma Is_true_ext (b1 b2 : bool) : (b1 ↔ b2) → b1 = b2.
Proof. destruct b1, b2; simpl; tauto. Qed.

Lemma similar_sym pairs t x y :
  Engine.similar pairs t x y = Engine.similar pairs t y x.
Proof.
  apply Is_true_ext. rewrite !similar_spec.
  apply exist_proper. intros p. tauto.
Qed.

Lemma similar_threshold_mono pairs (t1 t2 : Q) x y :
  (t1 < t2)%Q → Engine.similar pairs t2 x y → Engine.similar pairs t1 x y.
Proof.
  intros Ht. rewrite !similar_spec. intros (p & Hp & Hle & Hxy).
  exists p. split; [done|]. split; [|done].
  eapply Qle_trans; [apply Qlt_le_weak, Ht|done].
Qed.

Lemma similar_same_pairs pairs pairs' t x y :
  (∀ p, p ∈ pairs ↔ p ∈ pairs') →
  Engine.similar pairs t x y = Engine.similar pairs' t x y.
Proof.
  intros Hsame. apply Is_true_ext. rewrite !similar_spec.
  apply exist_proper. intros p. by rewrite Hsame.
Qed.

Lemma components_ext adj adj' ids :
  (∀ x y, adj x y = adj' x y) →
  Engine.components adj ids = Engine.components adj' ids.
Proof.
  intros Hext. unfold Engine.components. generalize (@nil (list string)).
  induction ids as [|x ids IH]; intros comps; simpl; [done|].
  rewrite IH. f_equal. unfold Engine.add_image.
  assert (Ht : ∀ g, Engine.touches adj x g ↔ Engine.touches adj' x g).
  { intros g. rewrite !touches_spec. apply exist_proper. intros w.
    by rewrite Hext. }
  f_equal; [do 2 f_equal|]; apply list_filter_iff; intros g; by rewrite Ht.
Qed.

Lemma sorted_ids_same (ids ids' : list string) :
  (∀ x, x ∈ ids ↔ x ∈ ids') →
  merge_sort String.le (remove_dups ids)
  = merge_sort String.le (remove_dups ids').
Proof.
  intros Hsame. apply (Sorted_unique String.le).
  - apply (Sorted_merge_sort String.le).
  - apply (Sorted_merge_sort String.le).
  - rewrite !merge_sort_Permutation.
    apply NoDup_Permutation; [apply NoDup_remove_dups..|].
    intros x. by rewrite !elem_of_remove_dups.
Qed.

Lemma cluster_members_NoDup pairs t ids :
  NoDup (mjoin (Engine.cluster pairs t ids)).
Proof.
  unfold Engine.cluster. eapply sublist_NoDup; [|apply join_filter_sublist].
  rewrite components_members, merge_sort_Permutation.
  apply NoDup_remove_dups.
Qed.

Example cluster_five_090 :
  Engine.cluster five_pairs (90 # 100) five_ids
  = [["img5"; "img4"]; ["img3"; "img2"; "img1"]].
Proof. vm_compute. reflexivity. Qed.

Example cluster_five_093 :
  Engine.cluster five_pairs (93 # 100) five_ids
  = [["img3"; "img2"; "img1"]].
Proof. vm_compute. reflexivity. Qed.

(** C1. The DuplicateGroups of one clustering run are pairwise disjoint: an
    image id that is a member of one group is a member of no other group. *)
Theorem cluster_groups_disjoint pairs t ids i j g1 g2 x :
  Engine.cluster pairs t ids !! i = Some g1 →
  Engine.cluster pairs t ids !! j = Some g2 →
  i ≠ j → x ∈ g1 → x ∉ g2.
Proof. apply join_NoDup_disjoint, cluster_members_NoDup. Qed.

Lemma cluster_groups_disjoint_witness :
  Engine.cluster five_pairs (90 # 100) five_ids !! 0 = Some ["img5"; "img4"]
  ∧ Engine.cluster five_pairs (90 # 100) five_ids !! 1
    = Some ["img3"; "img2"; "img1"]
  ∧ "img5" ∉ ["img3"; "img2"; "img1"].
Proof.
  split; [vm_compute; reflexivity|]. split; [vm_compute; reflexivity|].
  apply (cluster_groups_disjoint five_pairs (90 # 100) five_ids 0 1
           ["img5"; "img4"] ["img3"; "img2"; "img1"] "img5").
  - vm_compute; reflexivity.
  - vm_compute; reflexivity.
  - lia.
  - apply list_elem_of_here.
Defined.

(** C2. For a fixed embedding set and thresholds [t1 < t2], every
    DuplicateGroup produced at [t2] is a subset of a group produced at [t1],
    which is at least as large: raising the threshold enlarges no group and
    creates no group that was not there, as a superset, at the lower
    threshold. *)
Theorem cluster_threshold_monotone pairs ids (t1 t2 : Q) g :
  (t1 < t2)%Q → g ∈ Engine.cluster pairs t2 ids →
  ∃ g', g' ∈ Engine.cluster pairs t1 ids ∧ g ⊆ g' ∧ length g ≤ length g'.
Proof.
  intros Ht Hg. unfold Engine.cluster in *.
  set (sorted := merge_sort String.le (remove_dups ids)) in *.
  apply list_elem_of_filter in Hg as [Hlen Hg].
  destruct (components_sound_closed _ (similar_sym pairs t2) sorted)
    as [Hs2 _].
  destruct (components_sound_closed _ (similar_sym pairs t1) sorted)
    as [_ Hc1].
  assert (Hnd : ∀ t, NoDup (mjoin (Engine.components
                                     (Engine.similar pairs t) sorted))).
  { intros t. rewrite components_members. unfold sorted.
    rewrite merge_sort_Permutation. apply NoDup_remove_dups. }
  assert (Hnodes : ∀ x,
    x ∈ mjoin (Engine.components (Engine.similar pairs t2) sorted) →
    x ∈ mjoin (Engine.components (Engine.similar pairs t1) sorted)).
  { intros x. by rewrite !components_members. }
  destruct g as [|a g0] eqn:Eg; [simpl in Hlen; lia|]. rewrite <- Eg in *.
  assert (Ha : a ∈ g) by (rewrite Eg; apply list_elem_of_here).
  assert (Ha1 : a ∈ mjoin (Engine.components (Engine.similar pairs t1) sorted)).
  { apply Hnodes, list_elem_of_join. eauto. }
  apply list_elem_of_join in Ha1 as (g' & Hag' & Hg').
  assert (Hsub : g ⊆ g').
  { intros b Hb. eapply closed_connected_same; [exact Hc1|apply Hnd| |done..].
    eapply rtc_subrel; [|apply (Hs2 g a b Hg Ha Hb)].
    intros x y (Hx & Hy & Hxy). split_and!; auto.
    by eapply similar_threshold_mono. }
  assert (Hle : length g ≤ length g').
  { apply submseteq_length, NoDup_submseteq; [|done].
    eapply join_NoDup_member; [apply (Hnd t2)|done]. }
  exists g'. split_and!; [|done..].
  apply list_elem_of_filter. split; [lia|done].
Qed.

Lemma cluster_threshold_monotone_witness :
  (90 # 100 < 93 # 100)%Q
  ∧ ["img3"; "img2"; "img1"] ∈ Engine.cluster five_pairs (93 # 100) five_ids
  ∧ ∃ g', g' ∈ Engine.cluster five_pairs (90 # 100) five_ids
          ∧ ["img3"; "img2"; "img1"] ⊆ g'
          ∧ length ["img3"; "img2"; "img1"] ≤ length g'.
Proof.
  assert (Ht : (90 # 100 < 93 # 100)%Q) by reflexivity.
  assert (Hg : ["img3"; "img2"; "img1"]
               ∈ Engine.cluster five_pairs (93 # 100) five_ids).
  { vm_compute. apply list_elem_of_here. }
  split; [exact Ht|]. split; [exact Hg|].
  exact (cluster_threshold_monotone five_pairs five_ids (90 # 100) (93 # 100)
           ["img3"; "img2"; "img1"] Ht Hg).
Defined.

(** ** The selector *)

Section select_facts.
Variable sc : string → Q.

Lemma beats_spec x y : Engine.beats sc x y ↔ Engine.better sc x y.
Proof.
  unfold Engine.beats, Engine.better.
  rewrite orb_True, andb_True, negb_True, bool_decide_spec.
  rewrite !Is_true_true, Qle_bool_iff, Qeq_bool_iff.
  split; (intros [H|H]; [left|right; done]).
  - by apply Qnot_le_lt.
  - by apply Qlt_not_le.
Qed.

Lemma better_refl x : Engine.better sc x x.
Proof. right. split; [reflexivity|done]. Qed.

Lemma better_total x y : Engine.better sc x y ∨ Engine.better sc y x.
Proof.
  unfold Engine.better.
  destruct (Q_dec (sc x) (sc y)) as [[Hlt|Hgt]|Heq]; [by right; left|by left; left|].
  destruct (total String.le x y).
  - left. by right.
  - right. right. split; [by symmetry|done].
Qed.

Lemma better_trans x y z :
  Engine.better sc x y → Engine.better sc y z → Engine.better sc x z.
Proof.
  unfold Engine.better. intros [Hxy|[Hxy Hle1]] [Hyz|[Hyz Hle2]].
  - left. lra.
  - left. lra.
  - left. lra.
  - right. split; [lra|by etrans].
Qed.

Lemma better_antisym x y :
  Engine.better sc x y → Engine.better sc y x → x = y.
Proof.
  unfold Engine.better. intros [Hxy|[Hxy Hle1]] [Hyx|[Hyx Hle2]]; try lra.
  by apply (anti_symm String.le).
Qed.

Lemma foldl_beats_max rest x :
  let best := foldl (λ best y, if Engine.beats sc y best then y else best)
                x rest in
  best ∈ x :: rest ∧ ∀ y, y ∈ x :: rest → Engine.better sc best y.
Proof.
  revert x. induction rest as [|y rest IH]; intros x; simpl.
  { split; [apply list_elem_of_here|].
    intros y ->%list_elem_of_singleton. apply better_refl. }
  destruct (IH (if Engine.beats sc y x then y else x)) as [Hin Hmax].
  assert (Hstep : Engine.better sc (if Engine.beats sc y x then y else x) x
                  ∧ Engine.better sc (if Engine.beats sc y x then y else x) y).
  { destruct (Engine.beats sc y x) eqn:Hb.
    - split; [|apply better_refl]. apply beats_spec. by rewrite Hb.
    - split; [apply better_refl|].
      destruct (better_total x y) as [?|Hyx]; [done|].
      apply beats_spec in Hyx. by rewrite Hb in Hyx. }
  split.
  - apply elem_of_cons in Hin as [->|Hin].
    + destruct (Engine.beats sc y x);
        [apply list_elem_of_further|]; apply list_elem_of_here.
    + by do 2 apply list_elem_of_further.
  - intros z [->|[->|Hz]%elem_of_cons]%elem_of_cons.
    + eapply better_trans; [|apply Hstep]. apply Hmax, list_elem_of_here.
    + eapply better_trans; [|apply Hstep]. apply Hmax, list_elem_of_here.
    + by apply Hmax, list_elem_of_further.
Qed.

(** The chosen image is a member of the group and at least as good as every
    member. *)
Lemma select_is_best g m :
  Engine.select sc g = Some m → m ∈ g ∧ ∀ y, y ∈ g → Engine.better sc m y.
Proof.
  destruct g as [|x rest]; [done|]. simpl. intros [= <-].
  apply foldl_beats_max.
Qed.

(** The choice does not depend on the order in which the members are
    listed. *)
Lemma select_Permutation g g' :
  g ≡ₚ g' → Engine.select sc g = Engine.select sc g'.
Proof.
  intros Hperm.
  destruct (Engine.select sc g) as [m|] eqn:Hm;
    destruct (Engine.select sc g') as [m'|] eqn:Hm'.
  - apply select_is_best in Hm as [Hin Hmax].
    apply select_is_best in Hm' as [Hin' Hmax'].
    f_equal. apply better_antisym.
    + apply Hmax. by rewrite Hperm.
    + apply Hmax'. by rewrite <- Hperm.
  - destruct g' as [|? ?]; [|done].
    apply Permutation_nil_r in Hperm. by subst.
  - destruct g as [|? ?]; [|done].
    apply Permutation_nil_l in Hperm. by subst.
  - done.
Qed.

End select_facts.

(** C3. Clustering and selection are functions of the embedding set and the
    threshold alone: two runs that are given the same images and the same
    similarity results, in whatever order they were listed, produce the same
    groups and the same chosen-best id for each group; and the chosen-best id
    of a group does not depend on the order of its members. *)
Theorem cluster_select_deterministic pairs pairs' ids ids' t sc :
  (∀ p, p ∈ pairs ↔ p ∈ pairs') → (∀ x, x ∈ ids ↔ x ∈ ids') →
  Engine.cluster pairs t ids = Engine.cluster pairs' t ids'
  ∧ Engine.select sc <$> Engine.cluster pairs t ids
    = Engine.select sc <$> Engine.cluster pairs' t ids'
  ∧ ∀ g g', g ≡ₚ g' → Engine.select sc g = Engine.select sc g'.
Proof.
  intros Hpairs Hids.
  assert (Heq : Engine.cluster pairs t ids = Engine.cluster pairs' t ids').
  { unfold Engine.cluster. rewrite (sorted_ids_same ids ids' Hids).
    f_equal. apply components_ext. intros x y.
    by apply similar_same_pairs. }
  split; [done|]. split; [by rewrite Heq|]. apply select_Permutation.
Qed.

Lemma cluster_select_deterministic_witness :
  Engine.cluster five_pairs (90 # 100) five_ids
  = Engine.cluster (reverse five_pairs) (90 # 100)
      (reverse five_ids ++ ["img2"])
  ∧ Engine.select (λ _, 0%Q) <$> Engine.cluster five_pairs (90 # 100) five_ids
    = Engine.select (λ _, 0%Q)
        <$> Engine.cluster (reverse five_pairs) (90 # 100)
              (reverse five_ids ++ ["img2"]).
Proof.
  destruct (cluster_select_deterministic five_pairs (reverse five_pairs)
              five_ids (reverse five_ids ++ ["img2"]) (90 # 100) (λ _, 0%Q))
    as (Hgroups & Hbest & _).
  - intros p. by rewrite elem_of_reverse.
  - intros x. rewrite elem_of_app, elem_of_reverse, list_elem_of_singleton.
    split; [auto|]. intros [?| ->]; [done|].
    do 4 apply list_elem_of_further. apply list_elem_of_here.
  - split; [exact Hgroups|exact Hbest].
Defined.

(** ** The output organizer *)

Example move_overlapping_plan :
  (λ l, (Engine.rl_source l, Engine.rl_destination l, Engine.rl_outcome l))
    <$> Engine.report (Engine.apply overlapping_plan Engine.move "out" three_files)
  = [ ("d/a.jpg", "out/cat_0/a.jpg", Engine.success);
      ("d/b.jpg", "out/cat_0/b.jpg", Engine.success);
      ("d/b.jpg", "out/cat_1/b.jpg",
       Engine.skipped "source already relocated");
      ("d/c.jpg", "out/cat_1/c.jpg", Engine.success) ].
Proof. vm_compute. reflexivity. Qed.

Example copy_overlapping_plan :
  Engine.succeeded
    (Engine.report (Engine.apply overlapping_plan Engine.copy "out" three_files))
  = ["d/a.jpg"; "d/b.jpg"; "d/b.jpg"; "d/c.jpg"].
Proof. vm_compute. reflexivity. Qed.


Lemma succeeded_snoc r l :
  Engine.succeeded (r ++ [l])
  = Engine.succeeded r
    ++ (if decide (Engine.rl_outcome l = Engine.success)
        then [Engine.rl_source l] else []).
Proof.
  unfold Engine.succeeded. rewrite filter_app, fmap_app. f_equal.
  rewrite filter_cons, filter_nil. by destruct (decide _).
Qed.

Lemma record_line_relocated_once o l :
  Engine.rl_outcome l ≠ Engine.success →
  Engine.relocated_once o → Engine.relocated_once (Engine.record_line o l).
Proof.
  intros Hl [Hnd Hin]. unfold Engine.relocated_once, Engine.record_line.
  simpl. rewrite succeeded_snoc. destruct (decide _); [done|].
  rewrite app_nil_r. done.
Qed.

Lemma apply_one_move_relocated_once output_folder subfolder best o src :
  Engine.relocated_once o →
  Engine.relocated_once
    (Engine.apply_one Engine.move output_folder subfolder best o src).
Proof.
  intros Ho. unfold Engine.apply_one.
  destruct (bool_decide (src ∈ Engine.relocated o)) eqn:Hrel.
  { by apply record_line_relocated_once. }
  apply bool_decide_eq_false in Hrel.
  destruct (Engine.fs o !! src) as [node|].
  2: { by apply record_line_relocated_once. }
  destruct (bool_decide (is_Some _)).
  { by apply record_line_relocated_once. }
  destruct Ho as [Hnd Hin]. unfold Engine.relocated_once. simpl.
  rewrite succeeded_snoc. simpl. split.
  - apply NoDup_app. split; [done|]. split; [|apply NoDup_singleton].
    intros s Hs ->%list_elem_of_singleton. by apply Hrel, Hin.
  - intros s [Hs| ->%list_elem_of_singleton]%elem_of_app.
    + apply elem_of_union_r. by apply Hin.
    + by apply elem_of_union_l, elem_of_singleton.
Qed.

Lemma apply_entry_move_relocated_once output_folder o e :
  Engine.relocated_once o →
  Engine.relocated_once (Engine.apply_entry Engine.move output_folder o e).
Proof.
  unfold Engine.apply_entry. revert o.
  induction (Engine.all_members_to_operate e) as [|src l IH]; intros o Ho;
    simpl; [done|].
  by apply IH, apply_one_move_relocated_once.
Qed.


(** The organizer, whatever the plan: under [move] no source is reported as
    relocated twice. *)
Lemma apply_move_relocated_once plan output_folder files :
  Engine.relocated_once (Engine.apply plan Engine.move output_folder files).
Proof.
  unfold Engine.apply.
  assert (H0 : Engine.relocated_once
                 {| Engine.fs := files; Engine.relocated := ∅;
                    Engine.report := [] |}).
  { split; [apply NoDup_nil_2|]. intros s Hs. by apply elem_of_nil in Hs. }
  revert H0. generalize {| Engine.fs := files; Engine.relocated := ∅;
                           Engine.report := [] |}.
  induction plan as [|e plan IH]; intros o Ho; simpl; [done|].
  by apply IH, apply_entry_move_relocated_once.
Qed.

(** ** The command line *)

Import Click Cli.

Example split_strip_default_labels :
  PyStr.strip <$> PyStr.split ","%char "random, general"
  = ["random"; "general"].
Proof. reflexivity. Qed.

Example split_strip_edge_cases :
  PyStr.strip <$> PyStr.split ","%char " a ,b,, c d " = ["a"; "b"; ""; "c d"].
Proof. reflexivity. Qed.

(** U+00A0, U+2003 and U+0085 around a word are stripped like the space;
    the byte 160 that ends the letter U+00E0 is not. *)
Example split_strip_wide_whitespace :
  PyStr.strip <$>
    PyStr.split ","%char
      (PyStr.of_bytes [194; 160; 99; 97; 116; 226; 128; 131; 44; 32; 100; 111;
                       103; 194; 133; 9])
  = ["cat"; "dog"].
Proof. reflexivity. Qed.

Example strip_keeps_letters :
  PyStr.strip (PyStr.of_bytes [32; 118; 111; 105; 108; 195; 160; 32])
  = PyStr.of_bytes [118; 111; 105; 108; 195; 160].
Proof. reflexivity. Qed.

Example run_duplicates_help :
  run quiet_env [] duplicates [("-i", "nowhere"); ("--help", "")]
  = (inr tt,
     [call_load_config "taggy/config.ini"; show_help duplicates_params])
  ∧ run quiet_env [("--help", "")] duplicates [("-i", "imgs")]
    = (inr tt, [show_help cli_params])
  ∧ run quiet_env [] duplicates [("--bogus", "1"); ("--help", "")]
    = (inl (Usage (NoSuchOption "--bogus")),
       [call_load_config "taggy/config.ini"]).
Proof. vm_compute. split_and!; reflexivity. Qed.

Example run_duplicates_nothing_found :
  run quiet_env [] duplicates [("-i", "imgs")]
  = (inr tt,
     [ call_load_config "taggy/config.ini";
       echo [Txt "Operation: "; Txt "symlink"; Txt ", Labels: ";
             Strs ["random"; "general"]];
       echo [Txt "Finding duplicates in "; Txt "imgs";
             Txt " with threshold="; Num (9 # 10); Txt " ..."];
       call_ImageTagger {| ta_model_name := "CLIP";
                           ta_face_cascade_path := Some None;
                           ta_labels := Some ["random"; "general"] |};
       call_find_duplicates "imgs" (9 # 10);
       echo [Txt "No duplicates found."] ]).
Proof. vm_compute. reflexivity. Qed.

Example run_duplicates_move :
  group_calls (snd (run busy_env [] duplicates
                      [("-i", "imgs"); ("-op", "move"); ("-b", "")]))
  = [ {| gd_duplicates := [["imgs/a.jpg"; "imgs/b.jpg"]];
         gd_output_folder := "imgs/taggy_output/duplicates/";
         gd_operation := "move";
         gd_propose_best := true;
         gd_all_images := None;
         gd_best_scoring_method := "advanced" |} ].
Proof. vm_compute. reflexivity. Qed.

Example run_tag_move_is_usage_error :
  run busy_env [] tag [("-i", "imgs"); ("-op", "move")]
  = (inl (Usage (BadParameter "--operation" "move")),
     [call_load_config "taggy/config.ini"]).
Proof. vm_compute. reflexivity. Qed.


(** Running a command function: the monad's operations are unfolded and the
    answers of the environment, given as hypotheses, are rewritten in. *)
Ltac step_run :=
  unfold find_duplicates_cmd, search_images_cmd, cli, bind, emit, call, ret,
    raise; simpl.

Ltac tidy_trace := simpl; rewrite <- ?app_assoc; simpl.

(** An option that is not required, not a flag and not [multiple] takes its
    declared default when the command line does not name it. *)
Lemma supplied_omitted p (argv : Argv) :
  (∀ kv, kv ∈ argv → kv.1 ∉ p_names p) → supplied p argv = [].
Proof.
  intros Hno. unfold supplied. induction argv as [|kv argv IH]; [done|].
  simpl. rewrite bool_decide_eq_false_2.
  - apply IH. intros kv' Hkv'. by apply Hno, list_elem_of_further.
  - apply Hno, list_elem_of_here.
Qed.

Lemma process_param_omitted rt p (argv : Argv) :
  p_is_flag p = false → p_multiple p = false → p_required p = false →
  (∀ kv, kv ∈ argv → kv.1 ∉ p_names p) →
  process_param rt argv p = inr (p_default p).
Proof.
  intros Hf Hm Hr Hno. unfold process_param.
  rewrite Hf, Hm, Hr, (supplied_omitted p argv Hno). done.
Qed.

(** Option processing yields values of the declared shape. *)
Lemma convert_well_typed rt name ty raw v :
  convert rt name ty raw = inr v →
  match ty with
  | Path _ | Choice _ | STRING => ∃ s, v = VStr s
  | FLOAT => ∃ q, v = VFloat q
  | INT => ∃ z, v = VInt z
  end.
Proof.
  destruct ty; simpl; repeat case_match; intros; simplify_eq; eauto.
Qed.

Lemma process_param_well_typed rt (argv : Argv) p v :
  process_param rt argv p = inr v → well_typed p v.
Proof.
  unfold process_param, well_typed.
  destruct (p_is_flag p); [intros; simplify_eq; eauto|].
  destruct (p_multiple p).
  { destruct (convert_all _ _ _ _); intros; simplify_eq; eauto. }
  destruct (last _) as [raw|].
  - intros Hc. right. by eapply convert_well_typed.
  - destruct (p_required p); intros; simplify_eq. by left.
Qed.

Lemma process_params_well_typed rt (argv : Argv) params values :
  process_params rt argv params = inr values →
  Forall2 well_typed params values.
Proof.
  revert values. induction params as [|p params IH]; intros values; simpl.
  { intros [= <-]. constructor. }
  destruct (process_param rt argv p) as [|v] eqn:Hp; [done|].
  destruct (process_params rt argv params) as [|vs]; [done|].
  intros [= <-]. constructor; [by eapply process_param_well_typed|by apply IH].
Qed.

Lemma parse_args_well_typed rt params (argv : Argv) values :
  parse_args rt params argv = inr values → Forall2 well_typed params values.
Proof.
  unfold parse_args. destruct (filter _ argv); [|done].
  apply process_params_well_typed.
Qed.

Lemma parse_command_values rt params (argv : Argv) values :
  parse_command rt params argv = Values values →
  help_requested argv = false ∧ parse_args rt params argv = inr values.
Proof.
  unfold parse_command. destruct (help_requested argv).
  - by destruct (filter _ argv).
  - destruct (parse_args rt params argv); [done|]. by intros [= <-].
Qed.

Lemma parse_command_no_help rt params (argv : Argv) :
  help_requested argv = false →
  parse_command rt params argv
  = match parse_args rt params argv with
    | inl e => Failed e
    | inr values => Values values
    end.
Proof. unfold parse_command. by intros ->. Qed.

Ltac typed_values :=
  repeat match goal with
  | H : Forall2 well_typed (_ :: _) _ |- _ =>
      let Hv := fresh "Hv" in
      apply Forall2_cons_inv_l in H as (? & ? & Hv & H & ->);
      cbv [well_typed p_is_flag p_multiple p_required p_type p_default] in Hv
  | H : Forall2 well_typed [] _ |- _ => apply Forall2_nil_inv_l in H as ->
  end;
  destruct_or?; destruct_and?;
  repeat match goal with H : ∃ _, _ |- _ => destruct H end;
  simplify_eq/=.

(** The values of a parsed command line always fit the parameters of the
    command function: the call never fails to bind them. *)
Lemma invoke_typed env ctx cmd values :
  Forall2 well_typed (params_of cmd) values →
  match cmd with
  | duplicates =>
      ∃ images_path output_folder labels operation similarity_threshold
        face_cascade propose_best best_method,
        invoke env ctx cmd values
        = find_duplicates_cmd env ctx images_path output_folder labels
            operation similarity_threshold face_cascade propose_best
            best_method
  | tag =>
      ∃ images_path threshold top_k labels operation one_output_json
        create_many_output_jsons images_output_folder,
        invoke env ctx cmd values
        = tag_images_cmd env ctx images_path threshold top_k labels operation
            one_output_json create_many_output_jsons images_output_folder
  | search =>
      ∃ images_path query top_k output_folder operation,
        invoke env ctx cmd values
        = search_images_cmd env images_path query top_k output_folder
            operation
  end.
Proof.
  destruct cmd; simpl; intros H.
  - unfold duplicates_params in H. typed_values; by repeat eexists.
  - unfold tag_params in H. typed_values; by repeat eexists.
  - unfold search_params in H. typed_values; by repeat eexists.
Qed.

(** C5. When no duplicates are found, [duplicates] prints "No duplicates
    found." and returns; when the search matches nothing, [search] prints "No
    results found (no images or none matched)." and returns.  Neither raises,
    and neither goes on to group or list anything. *)
Theorem no_results_reported_and_returns env :
  (∀ ctx images_path output_folder labels operation similarity_threshold
     face_cascade propose_best best_method tr tagger,
     tagger = {| ta_model_name := "CLIP";
                 ta_face_cascade_path :=
                   Some (resolve_face_cascade ctx face_cascade);
                 ta_labels := Some (resolve_labels ctx labels) |} →
     ImageTagger env tagger = inr tt →
     find_duplicates env tagger images_path similarity_threshold = inr [] →
     find_duplicates_cmd env ctx images_path output_folder labels operation
       similarity_threshold face_cascade propose_best best_method tr
     = (inr tt,
        tr ++ [ echo [Txt "Operation: "; Txt (resolve_operation ctx operation);
                      Txt ", Labels: "; Strs (resolve_labels ctx labels)];
                echo [Txt "Finding duplicates in "; Txt images_path;
                      Txt " with threshold="; Num similarity_threshold;
                      Txt " ..."];
                call_ImageTagger tagger;
                call_find_duplicates images_path similarity_threshold;
                echo [Txt "No duplicates found."] ]))
  ∧ (∀ images_path query top_k output_folder operation tr tagger args,
       tagger = {| ta_model_name := "CLIP"; ta_face_cascade_path := None;
                   ta_labels := None |} →
       args = {| sr_query := query; sr_images_path := images_path;
                 sr_top_k := top_k; sr_output_path := output_folder;
                 sr_operation := operation |} →
       ImageTagger env tagger = inr tt →
       search_images env tagger args = inr [] →
       search_images_cmd env images_path query top_k output_folder operation tr
       = (inr tt,
          tr ++ [ echo [Txt "Searching images in "; Txt images_path;
                        Txt " for query='"; Txt query; Txt "'..."];
                  call_ImageTagger tagger;
                  call_search_images args;
                  echo [Txt "No results found (no images or none matched)."] ])).
Proof.
  split.
  - intros * -> Htagger Hnone. step_run. rewrite Htagger, Hnone.
    by tidy_trace.
  - intros * -> -> Htagger Hnone. step_run. rewrite Htagger, Hnone.
    by tidy_trace.
Qed.

Lemma no_results_reported_and_returns_witness :
  fst (find_duplicates_cmd quiet_env empty_ctx "imgs" None [] None (9 # 10)
         None false "advanced" []) = inr tt
  ∧ fst (search_images_cmd quiet_env "imgs" "cat" 5 None (Some "copy") [])
    = inr tt.
Proof.
  destruct (no_results_reported_and_returns quiet_env) as [Hdup Hsearch].
  split.
  - erewrite Hdup; reflexivity.
  - erewrite Hsearch; reflexivity.
Defined.

(** Every subcommand declares the images path first, so a command line
    without a usable images path does not pass option processing. *)
Lemma bad_images_path_rejected rt cmd (argv : Argv) :
  images_path_of argv = None
  ∨ (∃ raw, images_path_of argv = Some raw ∧ path_exists rt raw = false) →
  ∃ e, parse_args rt (params_of cmd) argv = inl e.
Proof.
  intros Hbad. unfold parse_args.
  destruct (filter _ argv) as [|kv ?]; [|by eexists].
  assert (Hfirst : ∃ e rest,
    params_of cmd = {| p_names := ["--images-path"; "-i"]; p_type := Path true;
                       p_required := true; p_default := VNone;
                       p_multiple := false; p_is_flag := false |} :: rest
    ∧ process_param rt argv
        {| p_names := ["--images-path"; "-i"]; p_type := Path true;
           p_required := true; p_default := VNone;
           p_multiple := false; p_is_flag := false |} = inl e).
  { unfold images_path_of in Hbad. unfold process_param. simpl.
    destruct Hbad as [->|(raw & -> & Hraw)].
    - destruct cmd; by eexists _, _.
    - simpl. rewrite Hraw. simpl. destruct cmd; by eexists _, _. }
  destruct Hfirst as (e & rest & -> & He). simpl. rewrite He. by eexists.
Qed.

(** C8 as stated, "for every invocation with a missing or invalid images
    path (or an otherwise invalid input set) the run fails before any work
    begins", does not hold.  An empty image set is an input the design
    document counts as invalid, and [tag] on an existing folder without
    images builds the tagger, lists the folder, reports that there are no
    images and returns normally.  And with [--help] a command line that lacks
    the images path prints the help and ends normally. *)
Lemma empty_image_set_is_not_a_failure :
  path_exists (runtime quiet_env) "imgs" = true
  ∧ list_supported_image_files quiet_env "imgs" = inr []
  ∧ run quiet_env [] tag [("-i", "imgs")]
    = (inr tt,
       [ call_load_config "taggy/config.ini";
         echo [Txt "Operation: "; Txt "symlink"; Txt ", Labels: ";
               Strs ["random"; "general"]];
         echo [Txt "Tagging images in "; Txt "imgs";
               Txt " with threshold="; Num (3 # 10);
               Txt ", top_k="; Int 5; Txt "."];
         call_ImageTagger {| ta_model_name := "CLIP";
                             ta_face_cascade_path := None;
                             ta_labels := Some ["random"; "general"] |};
         call_list_supported_image_files "imgs";
         echo [Txt "No images found in the given folder."] ])
  ∧ images_path_of [("--help", "")] = None
  ∧ run quiet_env [] duplicates [("--help", "")]
    = (inr tt,
       [call_load_config "taggy/config.ini"; show_help duplicates_params]).
Proof. vm_compute. split_and!; reflexivity. Qed.

(** C8, as the code has it.  An invocation that does not ask for help and
    whose images path is missing or does not exist, or one of whose options
    fails validation in any other way, ends in a usage error before the
    command function is entered: apart from reading the configuration file,
    the run calls nothing, so no tagger is built, nothing is clustered or
    organized and no file is written. *)
Theorem invalid_options_fail_before_any_work env group_argv cmd argv :
  help_requested group_argv = false →
  help_requested argv = false →
  images_path_of argv = None
  ∨ (∃ raw, images_path_of argv = Some raw
            ∧ path_exists (runtime env) raw = false)
  ∨ (∃ e, parse_args (runtime env) (params_of cmd) argv = inl e) →
  ∃ e, fst (run env group_argv cmd argv) = inl e
       ∧ ∀ ev, ev ∈ snd (run env group_argv cmd argv) →
               ∃ config_file, ev = call_load_config config_file.
Proof.
  intros Hgroup Hhelp Hbad.
  assert (Hparse : ∃ e, parse_args (runtime env) (params_of cmd) argv = inl e).
  { destruct Hbad as [H|[H|H]]; [| |done];
      apply bad_images_path_rejected; auto. }
  destruct Hparse as [e He]. unfold run, main.
  rewrite (parse_command_no_help _ _ _ Hgroup),
    (parse_command_no_help _ _ _ Hhelp), He.
  assert (Hnone : ∀ x : Exn, ∃ e0,
    fst (@raise unit x []) = inl e0
    ∧ ∀ ev, ev ∈ snd (@raise unit x []) →
            ∃ config_file, ev = call_load_config config_file).
  { intros x. eexists. split; [done|]. intros ev Hev.
    by apply elem_of_nil in Hev. }
  destruct (parse_args (runtime env) cli_params group_argv) as [ge|gvals];
    [apply Hnone|].
  destruct gvals as [|[| config_file | | | |] [|? ?]]; try apply Hnone.
  unfold cli, bind, call, ret, raise. simpl.
  destruct (load_config env config_file) as [ce|config]; simpl.
  - eexists. split; [done|].
    intros ev ->%list_elem_of_singleton. by eexists.
  - eexists. split; [done|].
    intros ev ->%list_elem_of_singleton. by eexists.
Qed.

Lemma invalid_options_fail_before_any_work_witness :
  ∃ e, fst (run busy_env [] duplicates [("--images-path", "nowhere")]) = inl e
       ∧ ∀ ev, ev ∈ snd (run busy_env [] duplicates
                           [("--images-path", "nowhere")]) →
               ∃ config_file, ev = call_load_config config_file.
Proof.
  apply (invalid_options_fail_before_any_work busy_env [] duplicates
           [("--images-path", "nowhere")]); [reflexivity..|].
  right. left. exists "nowhere". split; reflexivity.
Defined.

(** C6 as stated, "each of [duplicates], [tag] and [search] accepts any of
    [copy], [symlink] and [move]", does not hold for [tag]: on a host where
    the folder exists, [tag --images-path imgs --operation move] is a usage
    error. *)
Lemma tag_rejects_move :
  path_exists (runtime quiet_env) "imgs" = true
  ∧ "move" ∈ ["copy"; "symlink"; "move"]
  ∧ ¬ accepts_operation (runtime quiet_env) tag "imgs" "move".
Proof.
  split; [reflexivity|]. split; [set_solver|].
  intros [values Hvalues]. vm_compute in Hvalues. discriminate.
Qed.

(** C6, as the code has it.  Each of the three subcommands takes an images
    path, an output folder ([-o]) and a threshold or a top-k, and an operation
    mode out of the choices it declares: [copy], [symlink] or [move] for
    [duplicates] and [search], and [copy] or [symlink] only for [tag]. *)
Theorem operation_modes_accepted rt images_path cmd op :
  path_exists rt images_path = true →
  (accepts_operation rt cmd images_path op ↔ op ∈ operation_choices cmd)
  ∧ operation_choices duplicates = ["copy"; "symlink"; "move"]
  ∧ operation_choices tag = ["copy"; "symlink"]
  ∧ operation_choices search = ["copy"; "symlink"; "move"]
  ∧ declared (params_of cmd) "--images-path"
  ∧ declared (params_of cmd) "-o"
  ∧ (declared (params_of cmd) "-t" ∨ declared (params_of cmd) "-k").
Proof.
  intros Hpath. split_and!; try reflexivity.
  - unfold accepts_operation, parse_args.
    destruct cmd;
      [ change (operation_choices duplicates) with ["copy"; "symlink"; "move"]
      | change (operation_choices tag) with ["copy"; "symlink"]
      | change (operation_choices search) with ["copy"; "symlink"; "move"] ];
      simpl; unfold process_param; simpl; rewrite Hpath; simpl;
      case_bool_decide as Hop; simpl;
      (split; [intros [values Hv]; done || discriminate Hv|intros Hin]);
      (done || by eexists).
  - destruct cmd; vm_compute; exact I.
  - destruct cmd; vm_compute; exact I.
  - destruct cmd; vm_compute; auto.
Qed.

Lemma operation_modes_accepted_witness :
  path_exists (runtime quiet_env) "imgs" = true
  ∧ (accepts_operation (runtime quiet_env) tag "imgs" "move"
     ↔ "move" ∈ operation_choices tag).
Proof.
  split; [reflexivity|].
  destruct (operation_modes_accepted (runtime quiet_env) "imgs" tag "move"
              eq_refl) as [Hiff _].
  exact Hiff.
Defined.

(** C9. When [--output-folder] is omitted, [duplicates] receives [None] for
    it, and every grouping call the command makes is given the folder
    [<images_path>/taggy_output/duplicates/]; when duplicates are found and
    the images can be listed, there is exactly one such call. *)
Theorem omitted_output_folder_is_derived env ctx images_path labels operation
    similarity_threshold face_cascade propose_best best_method tagger group
    groups all_images :
  tagger = {| ta_model_name := "CLIP";
              ta_face_cascade_path :=
                Some (resolve_face_cascade ctx face_cascade);
              ta_labels := Some (resolve_labels ctx labels) |} →
  ImageTagger env tagger = inr tt →
  find_duplicates env tagger images_path similarity_threshold
  = inr (group :: groups) →
  list_supported_image_files env images_path = inr all_images →
  (∀ rt (argv : Argv),
     (∀ kv, kv ∈ argv → kv.1 ∉ ["--output-folder"; "-o"]) →
     process_param rt argv <$> duplicates_params !! 1 = Some (inr VNone))
  ∧ group_calls
      (snd (find_duplicates_cmd env ctx images_path None labels operation
              similarity_threshold face_cascade propose_best best_method []))
    = [ {| gd_duplicates := group :: groups;
           gd_output_folder := images_path +:+ "/taggy_output/duplicates/";
           gd_operation := resolve_operation ctx operation;
           gd_propose_best := propose_best;
           gd_all_images :=
             if bool_decide (resolve_operation ctx operation
                             ∈ ["copy"; "symlink"])
             then Some all_images else None;
           gd_best_scoring_method := best_method |} ].
Proof.
  intros -> Htagger Hfound Hall. split.
  { intros rt argv Hno. simpl. f_equal. by apply process_param_omitted. }
  step_run. rewrite Htagger, Hfound. simpl. rewrite Hall. simpl.
  by destruct (group_duplicates env _ _).
Qed.

Lemma omitted_output_folder_is_derived_witness :
  group_calls
    (snd (find_duplicates_cmd busy_env empty_ctx "imgs" None [] (Some "move")
            (9 # 10) None true "advanced" []))
  = [ {| gd_duplicates := [["imgs/a.jpg"; "imgs/b.jpg"]];
         gd_output_folder := "imgs/taggy_output/duplicates/";
         gd_operation := "move";
         gd_propose_best := true;
         gd_all_images := None;
         gd_best_scoring_method := "advanced" |} ].
Proof.
  apply (omitted_output_folder_is_derived busy_env empty_ctx "imgs" []
           (Some "move") (9 # 10) None true "advanced"
           {| ta_model_name := "CLIP"; ta_face_cascade_path := Some None;
              ta_labels := Some ["random"; "general"] |}
           ["imgs/a.jpg"; "imgs/b.jpg"] []
           ["imgs/a.jpg"; "imgs/b.jpg"; "imgs/c.jpg"]); reflexivity.
Defined.

(** ** Move exclusivity *)

Lemma move_not_kept : "move" ∉ ["copy"; "symlink"].
Proof. apply (bool_decide_eq_false_1 _). reflexivity. Qed.

Lemma tag_never_moves rt folder : ¬ accepts_operation rt tag folder "move".
Proof.
  intros [values Hvalues]. unfold parse_args in Hvalues. simpl in Hvalues.
  unfold process_param in Hvalues. simpl in Hvalues.
  destruct (path_exists rt folder); simpl in Hvalues; discriminate.
Qed.

(** C4. Under [move] every source file is relocated at most once in a run.
    [duplicates] hands the groups to the organizer in a single call, and under
    [move] it passes no list of all images, so only members of groups are
    operated; [tag], where an image may be placed in several folders, does not
    accept [move] at all; and the organizer moves no source twice, also when a
    file is a member of several entries of the plan or listed twice in one. *)
Theorem move_relocates_at_most_once env ctx images_path output_folder labels
    operation similarity_threshold face_cascade propose_best best_method plan
    destination files :
  length (group_calls
            (snd (find_duplicates_cmd env ctx images_path output_folder labels
                    operation similarity_threshold face_cascade propose_best
                    best_method []))) ≤ 1
  ∧ Forall (λ args, gd_operation args = "move" → gd_all_images args = None)
      (group_calls
         (snd (find_duplicates_cmd env ctx images_path output_folder labels
                 operation similarity_threshold face_cascade propose_best
                 best_method [])))
  ∧ (∀ rt folder, ¬ accepts_operation rt tag folder "move")
  ∧ NoDup (Engine.succeeded
             (Engine.report
                (Engine.apply plan Engine.move destination files))).
Proof.
  split; [|split; [|split]]; [| |apply tag_never_moves|].
  - step_run. repeat case_match; simplify_eq/=; lia.
  - step_run. repeat case_match; simplify_eq/=; repeat constructor.
    all: simpl; intros Hmove; try done.
    all: match goal with
         | H : bool_decide _ = true |- _ =>
             apply bool_decide_eq_true in H; rewrite Hmove in H;
             destruct (move_not_kept H)
         end.
  - apply apply_move_relocated_once.
Qed.

(** * Further properties of the command line *)

(** ** The tagging loop *)

Section tag_loop.
Context (env : Env) (tagger : TaggerArgs) (top_k : Z) (labels : list string)
  (threshold : Q) (operation : string) (create_many_output_jsons : bool)
  (images_output_folder : option string) (count_images : Z).

Local Abbreviation args :=
  (Trace.tag_args top_k labels threshold operation create_many_output_jsons
     images_output_folder).
Local Abbreviation loop :=
  (tag_each env tagger top_k labels threshold operation
     create_many_output_jsons images_output_folder count_images).

Lemma tag_each_returns tags files i tr :
  (∀ f, f ∈ files → tag_image env tagger (args f) = inr (tags f)) →
  loop i files tr
  = (inr ((λ f, (f, tags f)) <$> files),
     tr ++ Trace.tag_events args tags count_images i files).
Proof.
  revert i tr. induction files as [|f files IH]; intros i tr Hok; simpl.
  { unfold ret. by rewrite app_nil_r. }
  unfold bind, call, emit, ret. simpl.
  fold (args f). rewrite (Hok f) by apply list_elem_of_here. simpl.
  rewrite IH by (intros g Hg; by apply Hok, list_elem_of_further).
  by rewrite <- !app_assoc.
Qed.

Lemma tag_each_raises tags done f rest e i tr :
  (∀ g, g ∈ done → tag_image env tagger (args g) = inr (tags g)) →
  tag_image env tagger (args f) = inl e →
  loop i (done ++ f :: rest) tr
  = (inl e,
     tr ++ Trace.tag_events args tags count_images i done
        ++ [call_tag_image (args f)]).
Proof.
  revert i tr. induction done as [|g done IH]; intros i tr Hok Hf; simpl.
  { unfold bind, call. simpl. fold (args f). by rewrite Hf. }
  unfold bind, call, emit, ret. simpl.
  fold (args g). rewrite (Hok g) by apply list_elem_of_here. simpl.
  fold loop.
  rewrite IH; [|intros h Hh; by apply Hok, list_elem_of_further|done].
  by rewrite <- !app_assoc.
Qed.

Lemma tag_calls_tag_events tags i files :
  Trace.tag_calls (Trace.tag_events args tags count_images i files)
  = args <$> files.
Proof.
  revert i. induction files as [|f files IH]; intros i; simpl; [done|].
  f_equal. apply IH.
Qed.

Lemma save_calls_tag_events tags i files :
  Trace.save_calls (Trace.tag_events args tags count_images i files) = [].
Proof.
  revert i. induction files as [|f files IH]; intros i; simpl; [done|].
  apply IH.
Qed.

End tag_loop.

(** ** The command [tag] *)

Section tag_command.
Context (env : Env) (ctx : Ctx) (images_path : string) (threshold : Q)
  (top_k : Z) (labels : list string) (operation : option string)
  (one_output_json : option string) (create_many_output_jsons : bool)
  (images_output_folder : option string).

Local Abbreviation command :=
  (tag_images_cmd env ctx images_path threshold top_k labels operation
     one_output_json create_many_output_jsons images_output_folder).
Local Abbreviation tagger := (Trace.tag_tagger ctx labels).
Local Abbreviation args :=
  (Trace.tag_args top_k (resolve_labels ctx labels) threshold
     (resolve_operation ctx operation) create_many_output_jsons
     images_output_folder).
Local Abbreviation prologue :=
  (Trace.tag_prologue ctx images_path threshold top_k labels operation).

Lemma tag_images_cmd_returns tags files tr :
  ImageTagger env tagger = inr tt →
  list_supported_image_files env images_path = inr files →
  files ≠ [] →
  (∀ f, f ∈ files → tag_image env tagger (args f) = inr (tags f)) →
  (∀ json, one_output_json = Some json →
     save_metadata_to_json env ((λ f, (f, tags f)) <$> files) json = inr tt) →
  command tr
  = (inr tt,
     tr ++ prologue
        ++ [logger_info [Txt "Found "; Int (Z.of_nat (length files));
                         Txt " images."]]
        ++ Trace.tag_events args tags (Z.of_nat (length files) - 1) 0 files
        ++ Trace.save_events one_output_json ((λ f, (f, tags f)) <$> files)
        ++ [logger_info [Txt "Done tagging images."]]
        ++ Trace.folder_events (resolve_operation ctx operation)
             images_output_folder).
Proof.
  intros Htagger Hfiles Hne Htags Hsave.
  unfold tag_images_cmd, bind, call, emit, ret. cbn -[tag_each].
  fold tagger. rewrite Htagger, Hfiles.
  destruct files as [|f files']; [done|]. cbn -[tag_each].
  erewrite tag_each_returns by exact Htags.
  unfold Trace.save_events, Trace.folder_events.
  destruct one_output_json as [[|c json]|]; cbn.
  - destruct images_output_folder as [[|? ?]|]; cbn;
      rewrite <- !app_assoc; reflexivity.
  - specialize (Hsave _ eq_refl). cbn in Hsave. rewrite Hsave.
    destruct images_output_folder as [[|? ?]|]; cbn;
      rewrite <- !app_assoc; reflexivity.
  - destruct images_output_folder as [[|? ?]|]; cbn;
      rewrite <- !app_assoc; reflexivity.
Qed.

Lemma tag_images_cmd_raises tags done f rest e tr :
  ImageTagger env tagger = inr tt →
  list_supported_image_files env images_path = inr (done ++ f :: rest) →
  (∀ g, g ∈ done → tag_image env tagger (args g) = inr (tags g)) →
  tag_image env tagger (args f) = inl e →
  command tr
  = (inl e,
     tr ++ prologue
        ++ [logger_info [Txt "Found ";
                         Int (Z.of_nat (length (done ++ f :: rest)));
                         Txt " images."]]
        ++ Trace.tag_events args tags
             (Z.of_nat (length (done ++ f :: rest)) - 1) 0 done
        ++ [call_tag_image (args f)]).
Proof.
  intros Htagger Hfiles Hdone Hf.
  unfold tag_images_cmd, bind, call, emit, ret. cbn -[tag_each].
  fold tagger. rewrite Htagger, Hfiles.
  destruct (done ++ f :: rest) as [|h files'] eqn:Hall.
  { by destruct done. }
  cbn -[tag_each]. rewrite <- Hall.
  erewrite tag_each_raises by done.
  rewrite <- !app_assoc. reflexivity.
Qed.

End tag_command.

Lemma tag_calls_app tr1 tr2 :
  Trace.tag_calls (tr1 ++ tr2) = Trace.tag_calls tr1 ++ Trace.tag_calls tr2.
Proof. apply omap_app. Qed.

Lemma save_calls_app tr1 tr2 :
  Trace.save_calls (tr1 ++ tr2)
  = Trace.save_calls tr1 ++ Trace.save_calls tr2.
Proof. apply omap_app. Qed.

(** X1. [tag] on a folder without images: the command says so and returns; no
    image is tagged and nothing is saved. *)
Theorem tag_without_images_reports_and_returns env ctx images_path threshold
    top_k labels operation one_output_json create_many_output_jsons
    images_output_folder tr :
  ImageTagger env (Trace.tag_tagger ctx labels) = inr tt →
  list_supported_image_files env images_path = inr [] →
  tag_images_cmd env ctx images_path threshold top_k labels operation
    one_output_json create_many_output_jsons images_output_folder tr
  = (inr tt,
     tr ++ Trace.tag_prologue ctx images_path threshold top_k labels operation
        ++ [echo [Txt "No images found in the given folder."]]).
Proof.
  intros Htagger Hfiles.
  unfold tag_images_cmd, bind, call, emit, ret. cbn.
  fold (Trace.tag_tagger ctx labels). rewrite Htagger, Hfiles. cbn.
  rewrite <- !app_assoc. reflexivity.
Qed.

Lemma tag_without_images_reports_and_returns_witness :
  fst (tag_images_cmd quiet_env empty_ctx "imgs" (3 # 10) 5 [] (Some "symlink")
         (Some "tags.json") true (Some "out") []) = inr tt
  ∧ Trace.tag_calls
      (snd (tag_images_cmd quiet_env empty_ctx "imgs" (3 # 10) 5 []
              (Some "symlink") (Some "tags.json") true (Some "out") [])) = [].
Proof.
  rewrite (tag_without_images_reports_and_returns quiet_env empty_ctx "imgs"
             (3 # 10) 5 [] (Some "symlink") (Some "tags.json") true
             (Some "out") [] eq_refl eq_refl).
  split; reflexivity.
Defined.

(** X2. When every call returns, [tag] returns normally and has tagged every
    listed image exactly once, in the order of the listing, each with the
    resolved labels and operation and, under [--create-many-output-jsons],
    with the JSON path [<file>.json]. *)
Theorem tag_tags_every_image_once env ctx images_path threshold top_k labels
    operation one_output_json create_many_output_jsons images_output_folder
    tags files :
  ImageTagger env (Trace.tag_tagger ctx labels) = inr tt →
  list_supported_image_files env images_path = inr files →
  files ≠ [] →
  (∀ f, f ∈ files →
     tag_image env (Trace.tag_tagger ctx labels)
       (Trace.tag_args top_k (resolve_labels ctx labels) threshold
          (resolve_operation ctx operation) create_many_output_jsons
          images_output_folder f) = inr (tags f)) →
  (∀ json, one_output_json = Some json →
     save_metadata_to_json env ((λ f, (f, tags f)) <$> files) json = inr tt) →
  fst (tag_images_cmd env ctx images_path threshold top_k labels operation
         one_output_json create_many_output_jsons images_output_folder [])
  = inr tt
  ∧ Trace.tag_calls
      (snd (tag_images_cmd env ctx images_path threshold top_k labels
              operation one_output_json create_many_output_jsons
              images_output_folder []))
    = Trace.tag_args top_k (resolve_labels ctx labels) threshold
        (resolve_operation ctx operation) create_many_output_jsons
        images_output_folder <$> files.
Proof.
  intros Htagger Hfiles Hne Htags Hsave.
  rewrite (tag_images_cmd_returns env ctx images_path threshold top_k labels
             operation one_output_json create_many_output_jsons
             images_output_folder tags files [] Htagger Hfiles Hne Htags
             Hsave).
  split; [reflexivity|]. cbn [snd].
  rewrite !tag_calls_app, tag_calls_tag_events.
  unfold Trace.save_events, Trace.folder_events.
  destruct one_output_json as [[|? ?]|], images_output_folder as [[|? ?]|],
    files; cbn; by rewrite ?app_nil_r.
Qed.

Lemma tag_tags_every_image_once_witness :
  fst (tag_images_cmd busy_env empty_ctx "imgs" (3 # 10) 5 [] (Some "copy")
         (Some "tags.json") true (Some "out") []) = inr tt
  ∧ tg_file_path <$>
      Trace.tag_calls
        (snd (tag_images_cmd busy_env empty_ctx "imgs" (3 # 10) 5 []
                (Some "copy") (Some "tags.json") true (Some "out") []))
    = ["imgs/a.jpg"; "imgs/b.jpg"; "imgs/c.jpg"].
Proof.
  destruct (tag_tags_every_image_once busy_env empty_ctx "imgs" (3 # 10) 5 []
              (Some "copy") (Some "tags.json") true (Some "out")
              (λ _, [("cat", 9 # 10)])
              ["imgs/a.jpg"; "imgs/b.jpg"; "imgs/c.jpg"])
    as [Hret Hcalls]; [reflexivity|reflexivity|done|reflexivity..|].
  split; [exact Hret|]. rewrite Hcalls. reflexivity.
Defined.

(** X3. [tag] saves the collected results once, after the last image, when
    [--one-output-json] names a path: one entry per image, in the order of the
    listing.  Without the option, or with an empty path, it saves nothing. *)
Theorem tag_saves_results_once env ctx images_path threshold top_k labels
    operation one_output_json create_many_output_jsons images_output_folder
    tags files :
  ImageTagger env (Trace.tag_tagger ctx labels) = inr tt →
  list_supported_image_files env images_path = inr files →
  files ≠ [] →
  (∀ f, f ∈ files →
     tag_image env (Trace.tag_tagger ctx labels)
       (Trace.tag_args top_k (resolve_labels ctx labels) threshold
          (resolve_operation ctx operation) create_many_output_jsons
          images_output_folder f) = inr (tags f)) →
  (∀ json, one_output_json = Some json →
     save_metadata_to_json env ((λ f, (f, tags f)) <$> files) json = inr tt) →
  Trace.save_calls
    (snd (tag_images_cmd env ctx images_path threshold top_k labels operation
            one_output_json create_many_output_jsons images_output_folder []))
  = match one_output_json with
    | Some (String _ _ as json) => [((λ f, (f, tags f)) <$> files, json)]
    | _ => []
    end.
Proof.
  intros Htagger Hfiles Hne Htags Hsave.
  rewrite (tag_images_cmd_returns env ctx images_path threshold top_k labels
             operation one_output_json create_many_output_jsons
             images_output_folder tags files [] Htagger Hfiles Hne Htags
             Hsave).
  cbn [snd]. rewrite !save_calls_app, save_calls_tag_events.
  unfold Trace.save_events, Trace.folder_events.
  destruct one_output_json as [[|? ?]|], images_output_folder as [[|? ?]|],
    files; cbn; done.
Qed.

Lemma tag_saves_results_once_witness :
  Trace.save_calls
    (snd (tag_images_cmd busy_env empty_ctx "imgs" (3 # 10) 5 [] (Some "copy")
            (Some "tags.json") false None []))
  = [ ([ ("imgs/a.jpg", [("cat", 9 # 10)]);
         ("imgs/b.jpg", [("cat", 9 # 10)]);
         ("imgs/c.jpg", [("cat", 9 # 10)]) ], "tags.json") ].
Proof.
  rewrite (tag_saves_results_once busy_env empty_ctx "imgs" (3 # 10) 5 []
             (Some "copy") (Some "tags.json") false None
             (λ _, [("cat", 9 # 10)])
             ["imgs/a.jpg"; "imgs/b.jpg"; "imgs/c.jpg"]);
    [reflexivity|reflexivity|reflexivity|done|reflexivity..].
Defined.

(** X4. An exception out of [tag_image] ends the command: it propagates, the
    images listed after the failing one are not tagged, and nothing is
    saved. *)
Theorem tag_stops_at_first_failure env ctx images_path threshold top_k labels
    operation one_output_json create_many_output_jsons images_output_folder
    tags done f rest e :
  ImageTagger env (Trace.tag_tagger ctx labels) = inr tt →
  list_supported_image_files env images_path = inr (done ++ f :: rest) →
  (∀ g, g ∈ done →
     tag_image env (Trace.tag_tagger ctx labels)
       (Trace.tag_args top_k (resolve_labels ctx labels) threshold
          (resolve_operation ctx operation) create_many_output_jsons
          images_output_folder g) = inr (tags g)) →
  tag_image env (Trace.tag_tagger ctx labels)
    (Trace.tag_args top_k (resolve_labels ctx labels) threshold
       (resolve_operation ctx operation) create_many_output_jsons
       images_output_folder f) = inl e →
  fst (tag_images_cmd env ctx images_path threshold top_k labels operation
         one_output_json create_many_output_jsons images_output_folder [])
  = inl e
  ∧ tg_file_path <$>
      Trace.tag_calls
        (snd (tag_images_cmd env ctx images_path threshold top_k labels
                operation one_output_json create_many_output_jsons
                images_output_folder []))
    = done ++ [f]
  ∧ Trace.save_calls
      (snd (tag_images_cmd env ctx images_path threshold top_k labels
              operation one_output_json create_many_output_jsons
              images_output_folder [])) = [].
Proof.
  intros Htagger Hfiles Hdone Hf.
  rewrite (tag_images_cmd_raises env ctx images_path threshold top_k labels
             operation one_output_json create_many_output_jsons
             images_output_folder tags done f rest e [] Htagger Hfiles Hdone
             Hf).
  split; [reflexivity|]. cbn [snd]. split.
  - rewrite !tag_calls_app, tag_calls_tag_events. cbn.
    rewrite fmap_app, <- list_fmap_compose. cbn.
    f_equal. by rewrite list_fmap_id.
  - rewrite !save_calls_app, save_calls_tag_events. reflexivity.
Qed.

Lemma tag_stops_at_first_failure_witness :
  fst (tag_images_cmd flaky_env empty_ctx "imgs" (3 # 10) 5 [] (Some "copy")
         (Some "tags.json") false None [])
  = inl (Raised "UnidentifiedImageError")
  ∧ tg_file_path <$>
      Trace.tag_calls
        (snd (tag_images_cmd flaky_env empty_ctx "imgs" (3 # 10) 5 []
                (Some "copy") (Some "tags.json") false None []))
    = ["imgs/a.jpg"] ++ ["imgs/b.jpg"]
  ∧ Trace.save_calls
      (snd (tag_images_cmd flaky_env empty_ctx "imgs" (3 # 10) 5 []
              (Some "copy") (Some "tags.json") false None [])) = [].
Proof.
  apply (tag_stops_at_first_failure flaky_env empty_ctx "imgs" (3 # 10) 5 []
           (Some "copy") (Some "tags.json") false None
           (λ _, [("cat", 9 # 10)]) ["imgs/a.jpg"] "imgs/b.jpg"
           ["imgs/c.jpg"] (Raised "UnidentifiedImageError")).
  - reflexivity.
  - reflexivity.
  - intros g ->%list_elem_of_singleton. reflexivity.
  - reflexivity.
Defined.

(** ** What option processing hands to the command functions *)

Lemma process_params_cons_inv rt (argv : Argv) p ps vs :
  process_params rt argv (p :: ps) = inr vs →
  ∃ v vs', vs = v :: vs' ∧ process_param rt argv p = inr v
           ∧ process_params rt argv ps = inr vs'.
Proof.
  simpl. destruct (process_param rt argv p) as [|v]; [done|].
  destruct (process_params rt argv ps) as [|vs']; [done|].
  intros [= <-]. by eexists _, _.
Qed.

Lemma process_params_nil_inv rt (argv : Argv) vs :
  process_params rt argv [] = inr vs → vs = [].
Proof. by intros [= <-]. Qed.

Lemma parse_args_inv rt params (argv : Argv) values :
  parse_args rt params argv = inr values →
  process_params rt argv params = inr values.
Proof. unfold parse_args. by destruct (filter _ argv). Qed.

(** An option with one value: the last occurrence is converted; without an
    occurrence the option is not required and yields its default. *)
Lemma process_param_option_inv rt (argv : Argv) p v :
  p_is_flag p = false → p_multiple p = false →
  process_param rt argv p = inr v →
  match Trace.given (p_names p) argv with
  | Some raw =>
      convert rt (default EmptyString (head (p_names p))) (p_type p) raw
      = inr v
  | None => p_required p = false ∧ v = p_default p
  end.
Proof.
  intros Hflag Hmult. unfold process_param, Trace.given, supplied.
  rewrite Hflag, Hmult. destruct (last _); [done|].
  destruct (p_required p); [done|]. by intros [= <-].
Qed.

Lemma process_param_flag_inv rt (argv : Argv) p v :
  p_is_flag p = true →
  process_param rt argv p = inr v →
  v = VBool (bool_decide (Trace.all_given (p_names p) argv ≠ [])).
Proof.
  intros Hflag. unfold process_param. rewrite Hflag. by intros [= <-].
Qed.

Lemma convert_all_STRING rt name raws :
  convert_all rt name STRING raws = inr (VStr <$> raws).
Proof.
  induction raws as [|raw raws IH]; simpl; [done|]. by rewrite IH.
Qed.

Lemma omap_str_of_VStr (raws : list string) :
  omap str_of (VStr <$> raws) = raws.
Proof.
  induction raws as [|raw raws IH]; [done|]. cbn. f_equal. exact IH.
Qed.

Lemma process_param_texts_inv rt (argv : Argv) p v :
  p_is_flag p = false → p_multiple p = true → p_type p = STRING →
  process_param rt argv p = inr v →
  v = VTuple (Trace.all_given (p_names p) argv).
Proof.
  intros Hflag Hmult Hty. unfold process_param.
  rewrite Hflag, Hmult, Hty, convert_all_STRING, omap_str_of_VStr.
  by intros [= <-].
Qed.

Lemma convert_Path_inv rt name must_exist raw v :
  convert rt name (Path must_exist) raw = inr v →
  v = VStr raw ∧ (must_exist = true → path_exists rt raw = true).
Proof.
  simpl. destruct must_exist, (path_exists rt raw); simpl; intros [= <-];
    by split.
Qed.

Lemma convert_Choice_inv rt name choices raw v :
  convert rt name (Choice choices) raw = inr v →
  v = VStr raw ∧ raw ∈ choices.
Proof.
  simpl. case_bool_decide; [|done]. by intros [= <-].
Qed.

Lemma convert_FLOAT_inv rt name raw v :
  convert rt name FLOAT raw = inr v →
  ∃ q, v = VFloat q ∧ to_float rt raw = Some q.
Proof.
  simpl. destruct (to_float rt raw) as [q|]; [|done]. intros [= <-]. eauto.
Qed.

Lemma convert_INT_inv rt name raw v :
  convert rt name INT raw = inr v →
  ∃ z, v = VInt z ∧ to_int rt raw = Some z.
Proof.
  simpl. destruct (to_int rt raw) as [z|]; [|done]. intros [= <-]. eauto.
Qed.

Lemma convert_STRING_inv rt name raw v :
  convert rt name STRING raw = inr v → v = VStr raw.
Proof. by intros [= <-]. Qed.

Ltac option_inv H :=
  apply process_param_option_inv in H; [|reflexivity..];
  cbn [p_names p_type p_required p_default head default from_option] in H.

Lemma parse_duplicates_inv rt (argv : Argv) values :
  parse_args rt duplicates_params argv = inr values →
  ∃ images_path output_folder operation similarity_threshold face_cascade
    best_method,
    values = [ VStr images_path; output_folder;
               VTuple (Trace.all_given ["--labels"; "-l"] argv); operation;
               VFloat similarity_threshold; face_cascade;
               VBool (bool_decide
                        (Trace.all_given ["--propose-best"; "-b"] argv ≠ []));
               VStr best_method ]
    ∧ Trace.given ["--images-path"; "-i"] argv = Some images_path
    ∧ path_exists rt images_path = true
    ∧ str_of output_folder = Trace.given ["--output-folder"; "-o"] argv
    ∧ str_of operation = Trace.given ["--operation"; "-op"] argv
    ∧ (∀ op, str_of operation = Some op → op ∈ ["copy"; "symlink"; "move"])
    ∧ match Trace.given ["--similarity-threshold"; "-t"] argv with
      | Some raw => to_float rt raw = Some similarity_threshold
      | None => similarity_threshold = 9 # 10
      end
    ∧ str_of face_cascade = Trace.given ["--face-cascade"] argv
    ∧ match Trace.given ["--best-method"] argv with
      | Some raw => best_method = raw ∧ raw ∈ ["advanced"; "laplacian"]
      | None => best_method = "advanced"
      end.
Proof.
  intros H. unfold duplicates_params in H. apply parse_args_inv in H.
  apply process_params_cons_inv in H as (v1 & ? & -> & H1 & H).
  apply process_params_cons_inv in H as (v2 & ? & -> & H2 & H).
  apply process_params_cons_inv in H as (v3 & ? & -> & H3 & H).
  apply process_params_cons_inv in H as (v4 & ? & -> & H4 & H).
  apply process_params_cons_inv in H as (v5 & ? & -> & H5 & H).
  apply process_params_cons_inv in H as (v6 & ? & -> & H6 & H).
  apply process_params_cons_inv in H as (v7 & ? & -> & H7 & H).
  apply process_params_cons_inv in H as (v8 & ? & -> & H8 & H).
  apply process_params_nil_inv in H as ->.
  option_inv H1. option_inv H2. option_inv H4. option_inv H5. option_inv H6.
  option_inv H8.
  apply process_param_texts_inv in H3 as ->; [|reflexivity..].
  apply process_param_flag_inv in H7 as ->; [|reflexivity].
  cbn [p_names].
  destruct (Trace.given ["--images-path"; "-i"] argv) as [images_path|];
    [|by destruct H1].
  apply convert_Path_inv in H1 as [-> Hexists].
  assert (Hout : ∃ vo, v2 = vo
                 ∧ str_of vo = Trace.given ["--output-folder"; "-o"] argv).
  { destruct (Trace.given ["--output-folder"; "-o"] argv).
    - apply convert_Path_inv in H2 as [-> _]. by eexists.
    - destruct H2 as [_ ->]. by eexists. }
  assert (Hop : str_of v4 = Trace.given ["--operation"; "-op"] argv
                ∧ ∀ op, str_of v4 = Some op → op ∈ ["copy"; "symlink"; "move"]).
  { destruct (Trace.given ["--operation"; "-op"] argv).
    - apply convert_Choice_inv in H4 as [-> ?]. split; [done|].
      by intros op [= <-].
    - destruct H4 as [_ ->]. by split. }
  assert (Ht : ∃ t, v5 = VFloat t
               ∧ match Trace.given ["--similarity-threshold"; "-t"] argv with
                 | Some raw => to_float rt raw = Some t
                 | None => t = 9 # 10
                 end).
  { destruct (Trace.given ["--similarity-threshold"; "-t"] argv).
    - apply convert_FLOAT_inv in H5 as (q & -> & ?). by eexists.
    - destruct H5 as [_ ->]. by eexists. }
  assert (Hfc : str_of v6 = Trace.given ["--face-cascade"] argv).
  { destruct (Trace.given ["--face-cascade"] argv).
    - by apply convert_Path_inv in H6 as [-> _].
    - by destruct H6 as [_ ->]. }
  assert (Hbm : ∃ bm, v8 = VStr bm
                ∧ match Trace.given ["--best-method"] argv with
                  | Some raw => bm = raw ∧ raw ∈ ["advanced"; "laplacian"]
                  | None => bm = "advanced"
                  end).
  { destruct (Trace.given ["--best-method"] argv).
    - apply convert_Choice_inv in H8 as [-> ?]. by eexists.
    - destruct H8 as [_ ->]. by eexists. }
  destruct Hout as (vo & -> & Hvo), Hop as [Hop Hchoice],
    Ht as (t & -> & Ht), Hbm as (bm & -> & Hbm).
  eexists images_path, vo, v4, t, v6, bm. split_and!; auto.
Qed.

(** ** Traces of the command functions *)

Section within_facts.
Context (P : Event → Prop).

Lemma within_ret {A} (a : A) : Trace.within P (ret a).
Proof.
  split; [|constructor]. intros tr. unfold ret. simpl. by rewrite app_nil_r.
Qed.

Lemma within_raise {A} (e : Exn) : Trace.within P (@raise A e).
Proof.
  split; [|constructor]. intros tr. unfold raise. simpl.
  by rewrite app_nil_r.
Qed.

Lemma within_emit (e : Event) : P e → Trace.within P (emit e).
Proof. intros He. split; [by intros tr|]. by repeat constructor. Qed.

Lemma within_call {A} (e : Event) (answer : Exn + A) :
  P e → Trace.within P (call e answer).
Proof. intros He. split; [by intros tr|]. by repeat constructor. Qed.

Lemma within_bind {A B} (m : M A) (k : A → M B) :
  Trace.within P m → (∀ a, Trace.within P (k a)) →
  Trace.within P (bind m k).
Proof.
  intros [Hm Pm] Hk. split.
  - intros tr. unfold bind. rewrite (Hm tr).
    destruct (m []) as [[e|a] evs]; simpl; [done|].
    destruct (Hk a) as [Hka _].
    rewrite (Hka (tr ++ evs)), (Hka evs). simpl. by rewrite app_assoc.
  - unfold bind. destruct (m []) as [[e|a] evs]; simpl in *; [done|].
    destruct (Hk a) as [Hka Pka]. rewrite (Hka evs). simpl.
    by apply Forall_app.
Qed.

End within_facts.

Lemma within_framed {A} P (m : M A) : Trace.within P m → Trace.framed m.
Proof. by intros [? _]. Qed.

Lemma within_events {A} P (m : M A) tr ev :
  Trace.within P m → ev ∈ snd (m tr) → ev ∈ tr ∨ P ev.
Proof.
  intros [Hm Pm]. rewrite (Hm tr). simpl.
  intros [?|Hev]%elem_of_app; [by left|right].
  by eapply Forall_forall in Pm.
Qed.

(** Building a proof of [within] along the structure of a command. *)
Ltac within :=
  repeat first
    [ apply within_ret | apply within_raise
    | apply within_emit; [simpl]
    | apply within_call; [simpl]
    | apply within_bind | progress cbv zeta
    | match goal with
      | |- Trace.within _ (match ?x with _ => _ end) => destruct x
      | |- ∀ _, _ => intro
      end ].

Lemma within_tag_each P env tagger top_k labels threshold operation
    create_many_output_jsons images_output_folder count_images i files :
  (∀ m, P (echo m)) →
  (∀ f, P (call_tag_image
             (Trace.tag_args top_k labels threshold operation
                create_many_output_jsons images_output_folder f))) →
  Trace.within P
    (tag_each env tagger top_k labels threshold operation
       create_many_output_jsons images_output_folder count_images i files).
Proof.
  intros Pecho Ptag. revert i.
  induction files as [|f files IH]; intros i; simpl; within.
  - apply (Ptag f).
  - apply Pecho.
  - apply IH.
Qed.

Lemma within_emit_all P (evs : list Event) :
  Forall P evs → Trace.within P (foldr (λ e k, emit e ;;; k) (ret tt) evs).
Proof.
  induction 1 as [|e evs He _ IH]; simpl; within; [done|apply IH].
Qed.

(** [duplicates] calls nothing but the constructor, [find_duplicates],
    the listing and [group_duplicates], each with the arguments it
    resolved. *)
Lemma within_find_duplicates_cmd env ctx images_path output_folder labels
    operation similarity_threshold face_cascade propose_best best_method :
  Trace.within
    (Trace.duplicates_event ctx images_path output_folder labels operation
       similarity_threshold face_cascade propose_best best_method)
    (find_duplicates_cmd env ctx images_path output_folder labels operation
       similarity_threshold face_cascade propose_best best_method).
Proof.
  unfold find_duplicates_cmd. within; try done.
  split_and!; try done. case_bool_decide; split; try done.
  all: first [by intros _; eexists | by intros [? [=]]].
Qed.

Lemma within_tag_images_cmd env ctx images_path threshold top_k labels
    operation one_output_json create_many_output_jsons images_output_folder :
  Trace.within
    (Trace.tag_event ctx images_path threshold top_k labels operation
       one_output_json create_many_output_jsons images_output_folder)
    (tag_images_cmd env ctx images_path threshold top_k labels operation
       one_output_json create_many_output_jsons images_output_folder).
Proof.
  unfold tag_images_cmd. within; try done.
  all: apply within_tag_each; done.
Qed.

Lemma within_search_images_cmd env images_path query top_k output_folder
    operation :
  Trace.within
    (Trace.search_event images_path query top_k output_folder operation)
    (search_images_cmd env images_path query top_k output_folder operation).
Proof.
  unfold search_images_cmd. within; try done.
  apply within_emit_all. unfold result_lines.
  apply Forall_forall. intros ev (i & r & -> & _)%elem_of_lookup_imap.
  exact I.
Qed.

(** ** Whole runs *)

Lemma stopped_early_nil (x : Exn + unit) : Trace.stopped_early (x, []).
Proof. intros ev Hev. by apply elem_of_nil in Hev. Qed.

Lemma stopped_early_help (x : Exn + unit) params :
  Trace.stopped_early (x, [show_help params]).
Proof. intros ev ->%list_elem_of_singleton. right. by eexists. Qed.

Lemma stopped_early_after_config (x : Exn + unit) config_file :
  Trace.stopped_early (x, [call_load_config config_file]).
Proof. intros ev ->%list_elem_of_singleton. left. by eexists. Qed.

Lemma stopped_early_help_after_config (x : Exn + unit) config_file
    params :
  Trace.stopped_early (x, [call_load_config config_file; show_help params]).
Proof.
  intros ev [->|Hev]%elem_of_cons.
  - left. by eexists.
  - apply list_elem_of_singleton in Hev as ->. right. by eexists.
Qed.

Lemma parse_cli_params_inv rt (group_argv : Argv) gvals :
  parse_command rt cli_params group_argv = Values gvals →
  gvals = [VStr (Trace.config_file_of group_argv)].
Proof.
  intros [_ Hgroup]%parse_command_values.
  unfold cli_params in Hgroup. apply parse_args_inv in Hgroup.
  apply process_params_cons_inv in Hgroup as (v & ? & -> & Hv & Hgroup).
  apply process_params_nil_inv in Hgroup as ->.
  option_inv Hv. f_equal. unfold Trace.config_file_of.
  destruct (Trace.given ["--config-file"; "-c"] group_argv); simpl.
  - by apply convert_STRING_inv in Hv.
  - by destruct Hv.
Qed.

(** A run either stops before its command function, or enters it with the
    context of the loaded configuration and the parsed values, the trace
    holding the one call that read the configuration. *)
Lemma run_inv env group_argv cmd argv :
  Trace.stopped_early (run env group_argv cmd argv)
  ∨ ∃ config values,
      load_config env (Trace.config_file_of group_argv) = inr config
      ∧ parse_args (runtime env) (params_of cmd) argv = inr values
      ∧ run env group_argv cmd argv
        = invoke env (Trace.context_of config) cmd values
            [call_load_config (Trace.config_file_of group_argv)].
Proof.
  unfold run, main.
  destruct (parse_command (runtime env) cli_params group_argv)
    as [|ge|gvals] eqn:Hgroup;
    [left; apply stopped_early_help|left; apply stopped_early_nil|].
  apply parse_cli_params_inv in Hgroup as ->.
  unfold cli, bind, call, ret. simpl.
  destruct (load_config env _) as [ce|config] eqn:Hconfig; simpl.
  { left. apply stopped_early_after_config. }
  destruct (parse_command (runtime env) (params_of cmd) argv)
    as [|e|values] eqn:Hvalues; simpl.
  - left. apply stopped_early_help_after_config.
  - left. apply stopped_early_after_config.
  - right. apply parse_command_values in Hvalues as [_ Hvalues].
    by eexists config, values.
Qed.

Lemma run_duplicates_inv env group_argv argv :
  Trace.stopped_early (run env group_argv duplicates argv)
  ∨ ∃ config images_path similarity_threshold best_method,
      load_config env (Trace.config_file_of group_argv) = inr config
      ∧ Trace.given ["--images-path"; "-i"] argv = Some images_path
      ∧ path_exists (runtime env) images_path = true
      ∧ (∀ op, Trace.given ["--operation"; "-op"] argv = Some op →
               op ∈ ["copy"; "symlink"; "move"])
      ∧ match Trace.given ["--similarity-threshold"; "-t"] argv with
        | Some raw => to_float (runtime env) raw = Some similarity_threshold
        | None => similarity_threshold = 9 # 10
        end
      ∧ match Trace.given ["--best-method"] argv with
        | Some raw => best_method = raw ∧ raw ∈ ["advanced"; "laplacian"]
        | None => best_method = "advanced"
        end
      ∧ run env group_argv duplicates argv
        = find_duplicates_cmd env (Trace.context_of config) images_path
            (Trace.given ["--output-folder"; "-o"] argv)
            (Trace.all_given ["--labels"; "-l"] argv)
            (Trace.given ["--operation"; "-op"] argv)
            similarity_threshold
            (Trace.given ["--face-cascade"] argv)
            (bool_decide (Trace.all_given ["--propose-best"; "-b"] argv ≠ []))
            best_method
            [call_load_config (Trace.config_file_of group_argv)].
Proof.
  destruct (run_inv env group_argv duplicates argv)
    as [?|(config & values & Hconfig & Hvalues & ->)]; [by left|right].
  apply parse_duplicates_inv in Hvalues
    as (images_path & vo & vop & t & vfc & bm & -> & Hpath & Hexists & Hvo
        & Hvop & Hchoice & Ht & Hvfc & Hbm).
  exists config, images_path, t, bm. split_and!; try done.
  - intros op Hop. apply Hchoice. by rewrite Hvop.
  - cbn [invoke]. by rewrite Hvo, Hvop, Hvfc.
Qed.

Lemma parse_tag_inv rt (argv : Argv) values :
  parse_args rt tag_params argv = inr values →
  ∃ images_path threshold top_k one_output_json operation
    images_output_folder,
    values = [ VStr images_path; VFloat threshold; VInt top_k;
               VTuple (Trace.all_given ["--labels"; "-l"] argv);
               one_output_json; VStr operation; images_output_folder;
               VBool (bool_decide
                        (Trace.all_given ["--create-many-output-jsons"; "-j"]
                           argv ≠ [])) ]
    ∧ Trace.given ["--images-path"; "-i"] argv = Some images_path
    ∧ path_exists rt images_path = true
    ∧ match Trace.given ["--threshold"; "-t"] argv with
      | Some raw => to_float rt raw = Some threshold
      | None => threshold = 3 # 10
      end
    ∧ match Trace.given ["--top-k"; "-k"] argv with
      | Some raw => to_int rt raw = Some top_k
      | None => top_k = 5%Z
      end
    ∧ str_of one_output_json = Trace.given ["--one-output-json"] argv
    ∧ match Trace.given ["--operation"; "-op"] argv with
      | Some raw => operation = raw ∧ raw ∈ ["copy"; "symlink"]
      | None => operation = "symlink"
      end
    ∧ str_of images_output_folder
      = Trace.given ["--images-output-folder"; "-o"] argv.
Proof.
  intros H. unfold tag_params in H. apply parse_args_inv in H.
  apply process_params_cons_inv in H as (v1 & ? & -> & H1 & H).
  apply process_params_cons_inv in H as (v2 & ? & -> & H2 & H).
  apply process_params_cons_inv in H as (v3 & ? & -> & H3 & H).
  apply process_params_cons_inv in H as (v4 & ? & -> & H4 & H).
  apply process_params_cons_inv in H as (v5 & ? & -> & H5 & H).
  apply process_params_cons_inv in H as (v6 & ? & -> & H6 & H).
  apply process_params_cons_inv in H as (v7 & ? & -> & H7 & H).
  apply process_params_cons_inv in H as (v8 & ? & -> & H8 & H).
  apply process_params_nil_inv in H as ->.
  option_inv H1. option_inv H2. option_inv H3. option_inv H5. option_inv H6.
  option_inv H7.
  apply process_param_texts_inv in H4 as ->; [|reflexivity..].
  apply process_param_flag_inv in H8 as ->; [|reflexivity].
  cbn [p_names].
  destruct (Trace.given ["--images-path"; "-i"] argv) as [images_path|];
    [|by destruct H1].
  apply convert_Path_inv in H1 as [-> Hexists].
  assert (Hth : ∃ t, v2 = VFloat t
                ∧ match Trace.given ["--threshold"; "-t"] argv with
                  | Some raw => to_float rt raw = Some t
                  | None => t = 3 # 10
                  end).
  { destruct (Trace.given ["--threshold"; "-t"] argv).
    - apply convert_FLOAT_inv in H2 as (q & -> & ?). by eexists.
    - destruct H2 as [_ ->]. by eexists. }
  assert (Hk : ∃ k, v3 = VInt k
               ∧ match Trace.given ["--top-k"; "-k"] argv with
                 | Some raw => to_int rt raw = Some k
                 | None => k = 5%Z
                 end).
  { destruct (Trace.given ["--top-k"; "-k"] argv).
    - apply convert_INT_inv in H3 as (z & -> & ?). by eexists.
    - destruct H3 as [_ ->]. by eexists. }
  assert (Hjson : str_of v5 = Trace.given ["--one-output-json"] argv).
  { destruct (Trace.given ["--one-output-json"] argv).
    - by apply convert_Path_inv in H5 as [-> _].
    - by destruct H5 as [_ ->]. }
  assert (Hop : ∃ op, v6 = VStr op
                ∧ match Trace.given ["--operation"; "-op"] argv with
                  | Some raw => op = raw ∧ raw ∈ ["copy"; "symlink"]
                  | None => op = "symlink"
                  end).
  { destruct (Trace.given ["--operation"; "-op"] argv).
    - apply convert_Choice_inv in H6 as [-> ?]. by eexists.
    - destruct H6 as [_ ->]. by eexists. }
  assert (Hout : str_of v7
                 = Trace.given ["--images-output-folder"; "-o"] argv).
  { destruct (Trace.given ["--images-output-folder"; "-o"] argv).
    - by apply convert_Path_inv in H7 as [-> _].
    - by destruct H7 as [_ ->]. }
  destruct Hth as (t & -> & Hth), Hk as (k & -> & Hk),
    Hop as (op & -> & Hop).
  eexists images_path, t, k, v5, op, v7. split_and!; auto.
Qed.

Lemma run_tag_inv env group_argv argv :
  Trace.stopped_early (run env group_argv tag argv)
  ∨ ∃ config images_path threshold top_k operation,
      load_config env (Trace.config_file_of group_argv) = inr config
      ∧ Trace.given ["--images-path"; "-i"] argv = Some images_path
      ∧ path_exists (runtime env) images_path = true
      ∧ match Trace.given ["--threshold"; "-t"] argv with
        | Some raw => to_float (runtime env) raw = Some threshold
        | None => threshold = 3 # 10
        end
      ∧ match Trace.given ["--top-k"; "-k"] argv with
        | Some raw => to_int (runtime env) raw = Some top_k
        | None => top_k = 5%Z
        end
      ∧ match Trace.given ["--operation"; "-op"] argv with
        | Some raw => operation = raw ∧ raw ∈ ["copy"; "symlink"]
        | None => operation = "symlink"
        end
      ∧ run env group_argv tag argv
        = tag_images_cmd env (Trace.context_of config) images_path threshold
            top_k (Trace.all_given ["--labels"; "-l"] argv) (Some operation)
            (Trace.given ["--one-output-json"] argv)
            (bool_decide
               (Trace.all_given ["--create-many-output-jsons"; "-j"] argv
                ≠ []))
            (Trace.given ["--images-output-folder"; "-o"] argv)
            [call_load_config (Trace.config_file_of group_argv)].
Proof.
  destruct (run_inv env group_argv tag argv)
    as [?|(config & values & Hconfig & Hvalues & ->)]; [by left|right].
  apply parse_tag_inv in Hvalues
    as (images_path & t & k & vjson & op & vout & -> & Hpath & Hexists & Ht
        & Hk & Hjson & Hop & Hout).
  exists config, images_path, t, k, op. split_and!; try done.
  cbn [invoke str_of]. by rewrite Hjson, Hout.
Qed.

Lemma parse_search_inv rt (argv : Argv) values :
  parse_args rt search_params argv = inr values →
  ∃ images_path query output_folder operation top_k,
    values = [ VStr images_path; VStr query; output_folder; VStr operation;
               VInt top_k ]
    ∧ Trace.given ["--images-path"; "-i"] argv = Some images_path
    ∧ path_exists rt images_path = true
    ∧ Trace.given ["--query"; "-q"] argv = Some query
    ∧ str_of output_folder = Trace.given ["--output-folder"; "-o"] argv
    ∧ match Trace.given ["--operation"; "-op"] argv with
      | Some raw => operation = raw ∧ raw ∈ ["copy"; "symlink"; "move"]
      | None => operation = "copy"
      end
    ∧ match Trace.given ["--top-k"; "-k"] argv with
      | Some raw => to_int rt raw = Some top_k
      | None => top_k = 5%Z
      end.
Proof.
  intros H. unfold search_params in H. apply parse_args_inv in H.
  apply process_params_cons_inv in H as (v1 & ? & -> & H1 & H).
  apply process_params_cons_inv in H as (v2 & ? & -> & H2 & H).
  apply process_params_cons_inv in H as (v3 & ? & -> & H3 & H).
  apply process_params_cons_inv in H as (v4 & ? & -> & H4 & H).
  apply process_params_cons_inv in H as (v5 & ? & -> & H5 & H).
  apply process_params_nil_inv in H as ->.
  option_inv H1. option_inv H2. option_inv H3. option_inv H4. option_inv H5.
  destruct (Trace.given ["--images-path"; "-i"] argv) as [images_path|];
    [|by destruct H1].
  apply convert_Path_inv in H1 as [-> Hexists].
  destruct (Trace.given ["--query"; "-q"] argv) as [query|];
    [|by destruct H2].
  apply convert_STRING_inv in H2 as ->.
  assert (Hout : str_of v3 = Trace.given ["--output-folder"; "-o"] argv).
  { destruct (Trace.given ["--output-folder"; "-o"] argv).
    - by apply convert_Path_inv in H3 as [-> _].
    - by destruct H3 as [_ ->]. }
  assert (Hop : ∃ op, v4 = VStr op
                ∧ match Trace.given ["--operation"; "-op"] argv with
                  | Some raw => op = raw ∧ raw ∈ ["copy"; "symlink"; "move"]
                  | None => op = "copy"
                  end).
  { destruct (Trace.given ["--operation"; "-op"] argv).
    - apply convert_Choice_inv in H4 as [-> ?]. by eexists.
    - destruct H4 as [_ ->]. by eexists. }
  assert (Hk : ∃ k, v5 = VInt k
               ∧ match Trace.given ["--top-k"; "-k"] argv with
                 | Some raw => to_int rt raw = Some k
                 | None => k = 5%Z
                 end).
  { destruct (Trace.given ["--top-k"; "-k"] argv).
    - apply convert_INT_inv in H5 as (z & -> & ?). by eexists.
    - destruct H5 as [_ ->]. by eexists. }
  destruct Hop as (op & -> & Hop), Hk as (k & -> & Hk).
  eexists images_path, query, v3, op, k. split_and!; auto.
Qed.

Lemma run_search_inv env group_argv argv :
  Trace.stopped_early (run env group_argv search argv)
  ∨ ∃ config images_path query operation top_k,
      load_config env (Trace.config_file_of group_argv) = inr config
      ∧ Trace.given ["--images-path"; "-i"] argv = Some images_path
      ∧ path_exists (runtime env) images_path = true
      ∧ Trace.given ["--query"; "-q"] argv = Some query
      ∧ match Trace.given ["--operation"; "-op"] argv with
        | Some raw => operation = raw ∧ raw ∈ ["copy"; "symlink"; "move"]
        | None => operation = "copy"
        end
      ∧ match Trace.given ["--top-k"; "-k"] argv with
        | Some raw => to_int (runtime env) raw = Some top_k
        | None => top_k = 5%Z
        end
      ∧ run env group_argv search argv
        = search_images_cmd env images_path query top_k
            (Trace.given ["--output-folder"; "-o"] argv) (Some operation)
            [call_load_config (Trace.config_file_of group_argv)].
Proof.
  destruct (run_inv env group_argv search argv)
    as [?|(config & values & Hconfig & Hvalues & ->)]; [by left|right].
  apply parse_search_inv in Hvalues
    as (images_path & query & vo & op & k & -> & Hpath & Hexists & Hquery
        & Hvo & Hop & Hk).
  exists config, images_path, query, op, k. split_and!; try done.
  cbn [invoke str_of]. by rewrite Hvo.
Qed.

(** ** The events of whole runs *)

(** Every event of a [duplicates] run is the reading of the configuration or
    an event of the command function on the arguments the command line and
    the configuration determine. *)
Lemma run_duplicates_events env group_argv argv ev :
  ev ∈ snd (run env group_argv duplicates argv) →
  Trace.before_command ev
  ∨ ∃ config images_path similarity_threshold best_method,
      load_config env (Trace.config_file_of group_argv) = inr config
      ∧ Trace.given ["--images-path"; "-i"] argv = Some images_path
      ∧ path_exists (runtime env) images_path = true
      ∧ (∀ op, Trace.given ["--operation"; "-op"] argv = Some op →
               op ∈ ["copy"; "symlink"; "move"])
      ∧ match Trace.given ["--similarity-threshold"; "-t"] argv with
        | Some raw => to_float (runtime env) raw = Some similarity_threshold
        | None => similarity_threshold = 9 # 10
        end
      ∧ match Trace.given ["--best-method"] argv with
        | Some raw => best_method = raw ∧ raw ∈ ["advanced"; "laplacian"]
        | None => best_method = "advanced"
        end
      ∧ Trace.duplicates_event (Trace.context_of config) images_path
          (Trace.given ["--output-folder"; "-o"] argv)
          (Trace.all_given ["--labels"; "-l"] argv)
          (Trace.given ["--operation"; "-op"] argv)
          similarity_threshold
          (Trace.given ["--face-cascade"] argv)
          (bool_decide (Trace.all_given ["--propose-best"; "-b"] argv ≠ []))
          best_method ev.
Proof.
  destruct (run_duplicates_inv env group_argv argv)
    as [Hstop|(config & p & t & bm & Hconfig & Hp & Hexists & Hop & Ht
                   & Hbm & ->)]; [by left; apply Hstop|].
  intros Hev. eapply within_events in Hev; [|apply within_find_duplicates_cmd].
  destruct Hev as [->%list_elem_of_singleton|Hev];
    [left; left; by eexists|right].
  by exists config, p, t, bm.
Qed.

Lemma run_tag_events env group_argv argv ev :
  ev ∈ snd (run env group_argv tag argv) →
  Trace.before_command ev
  ∨ ∃ config images_path threshold top_k operation,
      load_config env (Trace.config_file_of group_argv) = inr config
      ∧ Trace.given ["--images-path"; "-i"] argv = Some images_path
      ∧ path_exists (runtime env) images_path = true
      ∧ match Trace.given ["--threshold"; "-t"] argv with
        | Some raw => to_float (runtime env) raw = Some threshold
        | None => threshold = 3 # 10
        end
      ∧ match Trace.given ["--top-k"; "-k"] argv with
        | Some raw => to_int (runtime env) raw = Some top_k
        | None => top_k = 5%Z
        end
      ∧ match Trace.given ["--operation"; "-op"] argv with
        | Some raw => operation = raw ∧ raw ∈ ["copy"; "symlink"]
        | None => operation = "symlink"
        end
      ∧ Trace.tag_event (Trace.context_of config) images_path threshold
          top_k (Trace.all_given ["--labels"; "-l"] argv) (Some operation)
          (Trace.given ["--one-output-json"] argv)
          (bool_decide
             (Trace.all_given ["--create-many-output-jsons"; "-j"] argv ≠ []))
          (Trace.given ["--images-output-folder"; "-o"] argv) ev.
Proof.
  destruct (run_tag_inv env group_argv argv)
    as [Hstop|(config & p & t & k & op & Hconfig & Hp & Hexists & Ht
                   & Hk & Hop & ->)]; [by left; apply Hstop|].
  intros Hev. eapply within_events in Hev; [|apply within_tag_images_cmd].
  destruct Hev as [->%list_elem_of_singleton|Hev];
    [left; left; by eexists|right].
  by exists config, p, t, k, op.
Qed.

Lemma run_search_events env group_argv argv ev :
  ev ∈ snd (run env group_argv search argv) →
  Trace.before_command ev
  ∨ ∃ images_path query operation top_k,
      Trace.given ["--images-path"; "-i"] argv = Some images_path
      ∧ path_exists (runtime env) images_path = true
      ∧ Trace.given ["--query"; "-q"] argv = Some query
      ∧ match Trace.given ["--operation"; "-op"] argv with
        | Some raw => operation = raw ∧ raw ∈ ["copy"; "symlink"; "move"]
        | None => operation = "copy"
        end
      ∧ match Trace.given ["--top-k"; "-k"] argv with
        | Some raw => to_int (runtime env) raw = Some top_k
        | None => top_k = 5%Z
        end
      ∧ Trace.search_event images_path query top_k
          (Trace.given ["--output-folder"; "-o"] argv) (Some operation) ev.
Proof.
  destruct (run_search_inv env group_argv argv)
    as [Hstop|(config & p & q & op & k & Hconfig & Hp & Hexists & Hq
                   & Hop & Hk & ->)]; [by left; apply Hstop|].
  intros Hev. eapply within_events in Hev; [|apply within_search_images_cmd].
  destruct Hev as [->%list_elem_of_singleton|Hev];
    [left; left; by eexists|right].
  by exists p, q, op, k.
Qed.

(** X7. Whatever the subcommand, the folder a run hands to the tagger or to the
    listing is the images path given on the command line, and it exists. *)
Theorem run_scans_only_the_given_existing_path env group_argv cmd argv p :
  p ∈ Trace.scanned_paths (snd (run env group_argv cmd argv)) →
  Trace.given ["--images-path"; "-i"] argv = Some p
  ∧ path_exists (runtime env) p = true.
Proof.
  intros (ev & Hev & Hp)%list_elem_of_omap. destruct cmd.
  - apply run_duplicates_events in Hev
      as [[[? ->]|[? ->]]|(config & q & t & bm & _ & Hq & Hexists & _ & _ & _ & Hev)];
      [done..|].
    destruct ev; simplify_eq/=; destruct_and?; by subst.
  - apply run_tag_events in Hev
      as [[[? ->]|[? ->]]|(config & q & t & k & op & _ & Hq & Hexists & _ & _ & _
                  & Hev)]; [done..|].
    destruct ev; simplify_eq/=; destruct_and?; by subst.
  - apply run_search_events in Hev
      as [[[? ->]|[? ->]]|(q & qu & op & k & Hq & Hexists & _ & _ & _ & Hev)];
      [done..|].
    destruct ev; simplify_eq/=; destruct_and?; by subst.
Qed.

Lemma run_scans_only_the_given_existing_path_witness :
  Trace.given ["--images-path"; "-i"] [("-i", "nowhere"); ("-i", "imgs")]
  = Some "imgs"
  ∧ path_exists (runtime busy_env) "imgs" = true.
Proof.
  apply (run_scans_only_the_given_existing_path busy_env [] duplicates
           [("-i", "nowhere"); ("-i", "imgs")] "imgs").
  vm_compute. apply list_elem_of_here.
Defined.

(** X8. In every [duplicates] run the threshold handed to [find_duplicates] is
    the converted [--similarity-threshold], or 0.9 when the option is
    omitted. *)
Theorem duplicates_threshold_defaults_to_09 env group_argv argv p t :
  (p, t) ∈ Trace.find_calls (snd (run env group_argv duplicates argv)) →
  match Trace.given ["--similarity-threshold"; "-t"] argv with
  | Some raw => to_float (runtime env) raw = Some t
  | None => t = 9 # 10
  end.
Proof.
  intros (ev & Hev & Hp)%list_elem_of_omap.
  apply run_duplicates_events in Hev
    as [[[? ->]|[? ->]]|(config & q & t' & bm & _ & _ & _ & _ & Ht & _ & Hev)];
    [done..|].
  destruct ev; simplify_eq/=. by destruct Hev as [_ ->].
Qed.

Lemma duplicates_threshold_defaults_to_09_witness :
  match Trace.given ["--similarity-threshold"; "-t"] [("-i", "imgs")] with
  | Some raw => to_float (runtime busy_env) raw = Some (9 # 10)
  | None => 9 # 10 = 9 # 10
  end.
Proof.
  apply (duplicates_threshold_defaults_to_09 busy_env [] [("-i", "imgs")]
           "imgs" (9 # 10)).
  vm_compute. apply list_elem_of_here.
Defined.

(** X9. In every [duplicates] run the grouping call carries the scoring method
    given by [--best-method], or [advanced] when it is omitted, and
    [propose_best] is set exactly when the flag [--propose-best] is on the
    command line. *)
Theorem duplicates_best_image_options env group_argv argv a :
  a ∈ group_calls (snd (run env group_argv duplicates argv)) →
  gd_best_scoring_method a
  = default "advanced" (Trace.given ["--best-method"] argv)
  ∧ gd_best_scoring_method a ∈ ["advanced"; "laplacian"]
  ∧ gd_propose_best a
    = bool_decide (Trace.all_given ["--propose-best"; "-b"] argv ≠ []).
Proof.
  intros (ev & Hev & Ha)%list_elem_of_omap.
  apply run_duplicates_events in Hev
    as [[[? ->]|[? ->]]|(config & q & t' & bm & _ & _ & _ & _ & _ & Hbm & Hev)];
    [done..|].
  destruct ev; simplify_eq/=.
  destruct Hev as (_ & _ & _ & -> & -> & _).
  destruct (Trace.given ["--best-method"] argv) as [raw|]; simpl.
  - destruct Hbm as [-> ?]. by split_and!.
  - subst bm. split_and!; [done| |done]. apply list_elem_of_here.
Qed.

Lemma duplicates_best_image_options_witness :
  "laplacian" = default "advanced"
                  (Trace.given ["--best-method"]
                     [("-i", "imgs"); ("--best-method", "laplacian")])
  ∧ "laplacian" ∈ ["advanced"; "laplacian"]
  ∧ false = bool_decide
              (Trace.all_given ["--propose-best"; "-b"]
                 [("-i", "imgs"); ("--best-method", "laplacian")] ≠ []).
Proof.
  apply (duplicates_best_image_options busy_env []
           [("-i", "imgs"); ("--best-method", "laplacian")]
           {| gd_duplicates := [["imgs/a.jpg"; "imgs/b.jpg"]];
              gd_output_folder := "imgs/taggy_output/duplicates/";
              gd_operation := "symlink";
              gd_propose_best := false;
              gd_all_images := Some ["imgs/a.jpg"; "imgs/b.jpg"; "imgs/c.jpg"];
              gd_best_scoring_method := "laplacian" |}).
  vm_compute. apply list_elem_of_here.
Defined.

(** X10. In every [duplicates] run the grouping call is given the
    [--output-folder] of the command line when that is a non-empty path;
    when the option is omitted, and also when it is the empty string, the
    folder is derived from the images path. *)
Theorem duplicates_output_folder env group_argv argv a :
  a ∈ group_calls (snd (run env group_argv duplicates argv)) →
  ∃ images_path,
    Trace.given ["--images-path"; "-i"] argv = Some images_path
    ∧ gd_output_folder a
      = match Trace.given ["--output-folder"; "-o"] argv with
        | Some (String c s) => String c s
        | _ => images_path +:+ "/taggy_output/duplicates/"
        end.
Proof.
  intros (ev & Hev & Ha)%list_elem_of_omap.
  apply run_duplicates_events in Hev
    as [[[? ->]|[? ->]]|(config & q & t' & bm & _ & Hq & _ & _ & _ & _ & Hev)];
    [done..|].
  destruct ev; simplify_eq/=.
  destruct Hev as (_ & -> & _). exists q. split; [done|].
  by destruct (Trace.given ["--output-folder"; "-o"] argv) as [[|? ?]|].
Qed.

Lemma duplicates_output_folder_witness :
  ∃ images_path,
    Trace.given ["--images-path"; "-i"] [("-i", "imgs"); ("-o", "")]
    = Some images_path
    ∧ "imgs/taggy_output/duplicates/"
      = match Trace.given ["--output-folder"; "-o"]
                [("-i", "imgs"); ("-o", "")] with
        | Some (String c s) => String c s
        | _ => images_path +:+ "/taggy_output/duplicates/"
        end.
Proof.
  apply (duplicates_output_folder busy_env [] [("-i", "imgs"); ("-o", "")]
           {| gd_duplicates := [["imgs/a.jpg"; "imgs/b.jpg"]];
              gd_output_folder := "imgs/taggy_output/duplicates/";
              gd_operation := "symlink";
              gd_propose_best := false;
              gd_all_images := Some ["imgs/a.jpg"; "imgs/b.jpg"; "imgs/c.jpg"];
              gd_best_scoring_method := "advanced" |}).
  vm_compute. apply list_elem_of_here.
Defined.

(** X11. In every [duplicates] run the tagger is built with the [--face-cascade]
    of the command line when that is a non-empty path, whether or not the
    file exists, and otherwise with the [face_cascade_path] of the
    configuration, if any. *)
Theorem duplicates_face_cascade env group_argv argv a :
  a ∈ tagger_calls (snd (run env group_argv duplicates argv)) →
  ∃ config,
    load_config env (Trace.config_file_of group_argv) = inr config
    ∧ ta_face_cascade_path a
      = Some match Trace.given ["--face-cascade"] argv with
             | Some (String c s) => Some (String c s)
             | _ => config !! "face_cascade_path"
             end.
Proof.
  intros (ev & Hev & Ha)%list_elem_of_omap.
  apply run_duplicates_events in Hev
    as [[[? ->]|[? ->]]|(config & q & t' & bm & Hconfig & _ & _ & _ & _ & _ & Hev)];
    [done..|].
  destruct ev; simplify_eq/=. exists config. split; [done|].
  unfold resolve_face_cascade.
  by destruct (Trace.given ["--face-cascade"] argv) as [[|? ?]|].
Qed.

Lemma duplicates_face_cascade_witness :
  ∃ config,
    load_config busy_env (Trace.config_file_of []) = inr config
    ∧ Some (Some "missing.xml")
      = Some match Trace.given ["--face-cascade"]
                     [("-i", "imgs"); ("--face-cascade", "missing.xml")] with
             | Some (String c s) => Some (String c s)
             | _ => config !! "face_cascade_path"
             end.
Proof.
  apply (duplicates_face_cascade busy_env []
           [("-i", "imgs"); ("--face-cascade", "missing.xml")]
           {| ta_model_name := "CLIP";
              ta_face_cascade_path := Some (Some "missing.xml");
              ta_labels := Some ["random"; "general"] |}).
  vm_compute. apply list_elem_of_here.
Defined.

(** X5. In every [tag] run the operation handed to [tag_image] is the
    [--operation] of the command line or [symlink], never anything but
    [copy] or [symlink]: the fallback to the configuration key
    ["operation"] at the head of the command function is never taken. *)
Theorem tag_operation_ignores_the_configuration env group_argv argv a :
  a ∈ Trace.tag_calls (snd (run env group_argv tag argv)) →
  tg_operation a
  = default "symlink" (Trace.given ["--operation"; "-op"] argv)
  ∧ tg_operation a ∈ ["copy"; "symlink"].
Proof.
  intros (ev & Hev & Ha)%list_elem_of_omap.
  apply run_tag_events in Hev
    as [[[? ->]|[? ->]]|(config & q & t & k & op & _ & _ & _ & _ & _ & Hop & Hev)];
    [done..|].
  destruct ev; simplify_eq/=.
  match goal with
  | |- tg_operation ?x = _ ∧ _ =>
      assert (tg_operation x
              = resolve_operation (Trace.context_of config) (Some op)) as ->
        by (by rewrite Hev)
  end.
  assert (Hin : op ∈ ["copy"; "symlink"]
                ∧ op = default "symlink"
                         (Trace.given ["--operation"; "-op"] argv)).
  { destruct (Trace.given ["--operation"; "-op"] argv) as [raw|]; simpl.
    - by destruct Hop as [-> ?].
    - subst op. split; [|done]. apply list_elem_of_further, list_elem_of_here. }
  destruct Hin as [Hin <-].
  assert (resolve_operation (Trace.context_of config) (Some op) = op) as ->.
  { unfold resolve_operation.
    destruct op as [|? ?]; [|done].
    repeat (apply elem_of_cons in Hin as [[=]|Hin]).
    by apply elem_of_nil in Hin. }
  done.
Qed.

Lemma tag_operation_ignores_the_configuration_witness :
  "symlink" = default "symlink"
                (Trace.given ["--operation"; "-op"] [("-i", "imgs")])
  ∧ "symlink" ∈ ["copy"; "symlink"].
Proof.
  apply (tag_operation_ignores_the_configuration
           (Trace.with_config busy_env
              (λ _, inr {["operation" := "move"]}))
           [] [("-i", "imgs")]
           (Trace.tag_args 5 ["random"; "general"] (3 # 10) "symlink" false
              None "imgs/a.jpg")).
  vm_compute. apply list_elem_of_here.
Defined.

(** X6. In every [tag] run each image is tagged with the converted
    [--threshold] and [--top-k], or with 0.3 and 5 when they are omitted,
    and is given the JSON path [<file>.json] exactly when
    [--create-many-output-jsons] is on the command line. *)
Theorem tag_image_arguments env group_argv argv a :
  a ∈ Trace.tag_calls (snd (run env group_argv tag argv)) →
  match Trace.given ["--threshold"; "-t"] argv with
  | Some raw => to_float (runtime env) raw = Some (tg_threshold a)
  | None => tg_threshold a = 3 # 10
  end
  ∧ match Trace.given ["--top-k"; "-k"] argv with
    | Some raw => to_int (runtime env) raw = Some (tg_top_k a)
    | None => tg_top_k a = 5%Z
    end
  ∧ tg_output_path a
    = (if bool_decide
            (Trace.all_given ["--create-many-output-jsons"; "-j"] argv ≠ [])
       then Some (tg_file_path a +:+ ".json") else None)
  ∧ tg_output_folder a = Trace.given ["--images-output-folder"; "-o"] argv.
Proof.
  intros (ev & Hev & Ha)%list_elem_of_omap.
  apply run_tag_events in Hev
    as [[[? ->]|[? ->]]|(config & q & t & k & op & _ & _ & _ & Ht & Hk & _ & Hev)];
    [done..|].
  destruct ev; simplify_eq/=. rewrite Hev. cbn. by split_and!.
Qed.

Lemma tag_image_arguments_witness :
  match Trace.given ["--threshold"; "-t"] [("-i", "imgs"); ("-j", "")] with
  | Some raw => to_float (runtime busy_env) raw = Some (3 # 10)
  | None => 3 # 10 = 3 # 10
  end
  ∧ match Trace.given ["--top-k"; "-k"] [("-i", "imgs"); ("-j", "")] with
    | Some raw => to_int (runtime busy_env) raw = Some 5%Z
    | None => 5%Z = 5%Z
    end
  ∧ Some "imgs/a.jpg.json"
    = (if bool_decide
            (Trace.all_given ["--create-many-output-jsons"; "-j"]
               [("-i", "imgs"); ("-j", "")] ≠ [])
       then Some ("imgs/a.jpg" +:+ ".json") else None)
  ∧ None = Trace.given ["--images-output-folder"; "-o"]
             [("-i", "imgs"); ("-j", "")].
Proof.
  apply (tag_image_arguments busy_env [] [("-i", "imgs"); ("-j", "")]
           (Trace.tag_args 5 ["random"; "general"] (3 # 10) "symlink" true
              None "imgs/a.jpg")).
  vm_compute. apply list_elem_of_here.
Defined.

(** X14. In every [search] run the one call of [search_images] carries the query
    and the output folder of the command line, the converted [--top-k] or 5,
    and the [--operation] of the command line or [copy]. *)
Theorem search_arguments env group_argv argv a :
  a ∈ Trace.search_calls (snd (run env group_argv search argv)) →
  Trace.given ["--query"; "-q"] argv = Some (sr_query a)
  ∧ sr_output_path a = Trace.given ["--output-folder"; "-o"] argv
  ∧ sr_operation a
    = Some (default "copy" (Trace.given ["--operation"; "-op"] argv))
  ∧ match Trace.given ["--top-k"; "-k"] argv with
    | Some raw => to_int (runtime env) raw = Some (sr_top_k a)
    | None => sr_top_k a = 5%Z
    end.
Proof.
  intros (ev & Hev & Ha)%list_elem_of_omap.
  apply run_search_events in Hev
    as [[[? ->]|[? ->]]|(q & qu & op & k & _ & _ & Hqu & Hop & Hk & Hev)]; [done..|].
  destruct ev; simplify_eq/=. split_and!; try done.
  destruct (Trace.given ["--operation"; "-op"] argv); simpl.
  - by destruct Hop as [-> _].
  - by subst.
Qed.

Lemma search_arguments_witness :
  Trace.given ["--query"; "-q"] [("-i", "imgs"); ("-q", "cat")] = Some "cat"
  ∧ None = Trace.given ["--output-folder"; "-o"]
             [("-i", "imgs"); ("-q", "cat")]
  ∧ Some "copy"
    = Some (default "copy"
              (Trace.given ["--operation"; "-op"]
                 [("-i", "imgs"); ("-q", "cat")]))
  ∧ match Trace.given ["--top-k"; "-k"] [("-i", "imgs"); ("-q", "cat")] with
    | Some raw => to_int (runtime busy_env) raw = Some 5%Z
    | None => 5%Z = 5%Z
    end.
Proof.
  apply (search_arguments busy_env [] [("-i", "imgs"); ("-q", "cat")]
           {| sr_query := "cat"; sr_images_path := "imgs"; sr_top_k := 5;
              sr_output_path := None; sr_operation := Some "copy" |}).
  vm_compute. apply list_elem_of_here.
Defined.

(** X13. In every [duplicates] or [tag] run, labels given on the command line
    reach the tagger as they are and in the order they were given; without
    any, the tagger gets the labels of the configuration, split on commas and
    stripped. *)
Theorem labels_of_the_command_line_win env group_argv cmd argv a :
  cmd ≠ search →
  a ∈ tagger_calls (snd (run env group_argv cmd argv)) →
  match Trace.all_given ["--labels"; "-l"] argv with
  | [] =>
      ∃ config,
        load_config env (Trace.config_file_of group_argv) = inr config
        ∧ ta_labels a
          = Some (PyStr.strip <$>
                    PyStr.split ","%char
                      (default "random, general" (config !! "labels")))
  | l :: ls => ta_labels a = Some (l :: ls)
  end.
Proof.
  intros Hcmd (ev & Hev & Ha)%list_elem_of_omap. destruct cmd; [| |done].
  - apply run_duplicates_events in Hev
      as [[[? ->]|[? ->]]|(config & q & t & bm & Hconfig & _ & _ & _ & _ & _ & Hev)];
      [done..|].
    destruct ev; simplify_eq/=.
    destruct (Trace.all_given ["--labels"; "-l"] argv); [|done].
    by exists config.
  - apply run_tag_events in Hev
      as [[[? ->]|[? ->]]|(config & q & t & k & op & Hconfig & _ & _ & _ & _ & _
                  & Hev)]; [done..|].
    destruct ev; simplify_eq/=.
    destruct (Trace.all_given ["--labels"; "-l"] argv); [|done].
    by exists config.
Qed.

Lemma labels_of_the_command_line_win_witness :
  match Trace.all_given ["--labels"; "-l"]
          [("-i", "imgs"); ("-l", " dog "); ("--labels", "cat")] with
  | [] =>
      ∃ config,
        load_config busy_env (Trace.config_file_of []) = inr config
        ∧ Some [" dog "; "cat"]
          = Some (PyStr.strip <$>
                    PyStr.split ","%char
                      (default "random, general" (config !! "labels")))
  | l :: ls => Some [" dog "; "cat"] = Some (l :: ls)
  end.
Proof.
  apply (labels_of_the_command_line_win busy_env [] tag
           [("-i", "imgs"); ("-l", " dog "); ("--labels", "cat")]
           {| ta_model_name := "CLIP"; ta_face_cascade_path := None;
              ta_labels := Some [" dog "; "cat"] |}).
  - discriminate.
  - vm_compute. apply list_elem_of_here.
Defined.

Lemma omap_none {A B} (f : A → option B) (l : list A) :
  (∀ x y, x ∈ l → f x ≠ Some y) → omap f l = [].
Proof.
  intros Hnone. destruct (omap f l) as [|y ys] eqn:Hl; [done|].
  assert (Hy : y ∈ omap f l) by (rewrite Hl; apply list_elem_of_here).
  apply list_elem_of_omap in Hy as (x & Hx & Hfx). by destruct (Hnone x y).
Qed.

(** X17. Each subcommand keeps to its own calls: a [duplicates] run never tags,
    saves or searches; a [tag] run never looks for duplicates, groups or
    searches; a [search] run never looks for duplicates, groups, lists the
    folder, tags or saves. *)
Theorem subcommands_keep_to_their_calls env group_argv cmd argv :
  match cmd with
  | duplicates =>
      Trace.tag_calls (snd (run env group_argv cmd argv)) = []
      ∧ Trace.save_calls (snd (run env group_argv cmd argv)) = []
      ∧ Trace.search_calls (snd (run env group_argv cmd argv)) = []
  | tag =>
      Trace.find_calls (snd (run env group_argv cmd argv)) = []
      ∧ group_calls (snd (run env group_argv cmd argv)) = []
      ∧ Trace.search_calls (snd (run env group_argv cmd argv)) = []
  | search =>
      Trace.find_calls (snd (run env group_argv cmd argv)) = []
      ∧ group_calls (snd (run env group_argv cmd argv)) = []
      ∧ Trace.list_calls (snd (run env group_argv cmd argv)) = []
      ∧ Trace.tag_calls (snd (run env group_argv cmd argv)) = []
      ∧ Trace.save_calls (snd (run env group_argv cmd argv)) = []
  end.
Proof.
  destruct cmd; split_and!; apply omap_none; intros ev y Hev Hy.
  1-3: apply run_duplicates_events in Hev
         as [[[? ->]|[? ->]]|(? & ? & ? & ? & _ & _ & _ & _ & _ & _ & Hev)];
       [done..|]; by destruct ev.
  1-3: apply run_tag_events in Hev
         as [[[? ->]|[? ->]]|(? & ? & ? & ? & ? & _ & _ & _ & _ & _ & _ & Hev)];
       [done..|]; by destruct ev.
  all: apply run_search_events in Hev
         as [[[? ->]|[? ->]]|(? & ? & ? & ? & _ & _ & _ & _ & _ & Hev)];
       [done..|]; by destruct ev.
Qed.

(** ** The group callback *)

Lemma no_undeclared_option params (argv : list (string * string)) :
  (∀ kv, kv ∈ argv → declared params kv.1) →
  filter (λ kv, ¬ declared params kv.1) argv = [].
Proof.
  intros Hall. induction argv as [|kv rest IH]; [done|].
  rewrite filter_cons_False.
  - apply IH. intros kv' Hkv'. by apply Hall, list_elem_of_further.
  - intros Hnot. apply Hnot, Hall, list_elem_of_here.
Qed.

Lemma parse_cli_params rt (group_argv : Argv) :
  (∀ kv, kv ∈ group_argv → kv.1 ∈ ["--config-file"; "-c"]) →
  parse_args rt cli_params group_argv
  = inr [VStr (Trace.config_file_of group_argv)].
Proof.
  intros Hnames. unfold parse_args. rewrite no_undeclared_option.
  - unfold cli_params, process_params, process_param. cbn.
    unfold Trace.config_file_of, Trace.given, supplied. cbn.
    by destruct (last _).
  - intros kv Hkv. unfold declared, cli_params.
    apply bool_decide_pack, Exists_cons_hd. simpl. by apply Hnames.
Qed.

Lemma no_help_requested (argv : list (string * string)) :
  (∀ kv, kv ∈ argv → kv.1 ≠ "--help") → help_requested argv = false.
Proof.
  intros Hno. apply bool_decide_eq_false_2.
  intros (kv & Hkv & Hhelp)%Exists_exists. by apply (Hno kv).
Qed.

Lemma parse_command_cli_params rt (group_argv : Argv) :
  (∀ kv, kv ∈ group_argv → kv.1 ∈ ["--config-file"; "-c"]) →
  parse_command rt cli_params group_argv
  = Values [VStr (Trace.config_file_of group_argv)].
Proof.
  intros Hnames. rewrite parse_command_no_help.
  - by rewrite (parse_cli_params _ _ Hnames).
  - apply no_help_requested. intros kv Hkv Hhelp.
    specialize (Hnames kv Hkv). rewrite Hhelp in Hnames.
    repeat (apply elem_of_cons in Hnames as [[=]|Hnames]).
    by apply elem_of_nil in Hnames.
Qed.

Lemma framed_invoke env ctx cmd values :
  Trace.framed (invoke env ctx cmd values).
Proof.
  unfold invoke. destruct cmd;
    repeat match goal with
    | |- Trace.framed (match ?x with _ => _ end) => destruct x
    end;
    first [ eapply within_framed, (within_raise (λ _, True))
          | eapply within_framed, within_find_duplicates_cmd
          | eapply within_framed, within_tag_images_cmd
          | eapply within_framed, within_search_images_cmd ].
Qed.

(** X18. Whatever the subcommand, a run whose group options are in order begins
    by loading the configuration file named by [--config-file], or
    [taggy/config.ini] without the option; when loading it raises, the run
    ends there with that exception. *)
Theorem run_reads_the_configuration_first env group_argv cmd argv :
  (∀ kv, kv ∈ group_argv → kv.1 ∈ ["--config-file"; "-c"]) →
  head (snd (run env group_argv cmd argv))
  = Some (call_load_config (Trace.config_file_of group_argv))
  ∧ (∀ e, load_config env (Trace.config_file_of group_argv) = inl e →
          run env group_argv cmd argv
          = (inl e, [call_load_config (Trace.config_file_of group_argv)])).
Proof.
  intros Hnames. unfold run, main.
  rewrite (parse_command_cli_params _ _ Hnames).
  unfold ret, cli, bind, call. simpl.
  destruct (load_config env _) as [ce|config]; simpl.
  { split; [done|]. by intros e [= <-]. }
  split; [|done].
  destruct (parse_command (runtime env) (params_of cmd) argv)
    as [|e|values]; simpl; [done..|].
  by rewrite (framed_invoke env _ cmd values _).
Qed.

Lemma run_reads_the_configuration_first_witness :
  head (snd (run busy_env [("-c", "my.ini")] search
               [("-i", "imgs"); ("-q", "cat")]))
  = Some (call_load_config "my.ini").
Proof.
  destruct (run_reads_the_configuration_first busy_env [("-c", "my.ini")]
              search [("-i", "imgs"); ("-q", "cat")]) as [Hhead _].
  - intros kv ->%list_elem_of_singleton.
    apply list_elem_of_further, list_elem_of_here.
  - exact Hhead.
Defined.

(** X16. [search] does not use the configuration: two hosts that differ only in
    what the configuration file holds give the same outcome and the same
    trace. *)
Theorem search_ignores_the_configuration env group_argv argv config config' :
  run (Trace.with_config env (λ _, inr config)) group_argv search argv
  = run (Trace.with_config env (λ _, inr config')) group_argv search argv.
Proof.
  unfold run, main. cbn [runtime Trace.with_config].
  destruct (parse_command (runtime env) cli_params group_argv)
    as [|ge|gvals]; [done..|].
  destruct gvals as [|[| config_file | | | |] [|? ?]]; reflexivity.
Qed.

(** ** Splitting and stripping *)

Lemma split_nonempty sep s : PyStr.split sep s ≠ [].
Proof.
  destruct s as [|c r]; simpl; [done|].
  destruct (Ascii.eqb c sep); [done|]. by destruct (PyStr.split sep r).
Qed.

(** X20. Splitting loses nothing: joining the pieces with the separator gives the
    string back. *)
Theorem split_join_round_trip sep s :
  String.concat (String sep EmptyString) (PyStr.split sep s) = s.
Proof.
  induction s as [|c r IH]; simpl; [done|].
  destruct (Ascii.eqb c sep) eqn:Hc.
  - apply Ascii.eqb_eq in Hc as ->.
    destruct (PyStr.split sep r) as [|h t] eqn:Hr;
      [by destruct (split_nonempty sep r)|].
    simpl in *. by rewrite IH.
  - destruct (PyStr.split sep r) as [|h t] eqn:Hr;
      [by destruct (split_nonempty sep r)|].
    destruct t as [|h' t']; simpl in *; by rewrite <- IH.
Qed.

Lemma split_pieces_free sep s piece :
  piece ∈ PyStr.split sep s → sep ∉ Trace.chars piece.
Proof.
  revert piece. induction s as [|c r IH]; intros piece; simpl.
  { intros ->%list_elem_of_singleton. apply not_elem_of_nil. }
  destruct (Ascii.eqb c sep) eqn:Hc.
  - intros [->|Hin]%elem_of_cons; [apply not_elem_of_nil|by apply IH].
  - apply Ascii.eqb_neq in Hc.
    destruct (PyStr.split sep r) as [|h t] eqn:Hr.
    + intros ->%list_elem_of_singleton. simpl.
      intros [?|[]%elem_of_nil]%elem_of_cons. congruence.
    + intros [->|Hin]%elem_of_cons.
      * simpl. intros [?|Hin]%elem_of_cons; [congruence|].
        by apply (IH h); [apply list_elem_of_here|].
      * by apply IH, list_elem_of_further.
Qed.

Lemma append_assoc (s t u : string) : (s +:+ t) +:+ u = s +:+ (t +:+ u).
Proof.
  induction s as [|c s IH]; [done|].
  change (String c ((s +:+ t) +:+ u) = String c (s +:+ (t +:+ u))).
  by rewrite IH.
Qed.

Lemma chars_app s t c :
  c ∈ Trace.chars t → c ∈ Trace.chars (s +:+ t).
Proof.
  intros Hc. induction s as [|d s IH]; [done|].
  simpl. by apply list_elem_of_further.
Qed.

(** [lstrip] leaves a suffix of the string that does not begin with a
    whitespace character of one byte. *)
Lemma lstrip_spec s :
  (∃ p, s = p +:+ PyStr.lstrip s)
  ∧ ∀ c, Trace.first_char (PyStr.lstrip s) = Some c →
         PyStr.is_space c = false.
Proof.
  remember (String.length s) as n eqn:Hn. revert s Hn.
  induction n as [n IH] using lt_wf_ind. intros s Hn.
  assert (Hrec : ∀ p r, s = p +:+ r → (String.length r < n)%nat →
    (∃ p', s = p' +:+ PyStr.lstrip r)
    ∧ ∀ c, Trace.first_char (PyStr.lstrip r) = Some c →
           PyStr.is_space c = false).
  { intros p r Hs Hlt.
    destruct (IH (String.length r) Hlt r eq_refl) as [[q Hq] Hfirst].
    split; [|done]. exists (p +:+ q).
    by rewrite append_assoc, <- Hq. }
  assert (Hstay : ∀ c r, s = String c r → PyStr.is_space c = false →
    (∃ p, s = p +:+ s)
    ∧ ∀ c', Trace.first_char s = Some c' → PyStr.is_space c' = false).
  { intros c r -> Hc. split; [by exists EmptyString|].
    by intros c' [= <-]. }
  destruct s as [|c1 r1]; [split; [by exists EmptyString|done]|].
  cbn [PyStr.lstrip]. destruct (PyStr.is_space c1) eqn:H1.
  { apply (Hrec (String c1 EmptyString)); [done|]. subst n. simpl. lia. }
  destruct r1 as [|c2 r2]; [by eapply Hstay|].
  destruct (PyStr.is_space2 c1 c2).
  { apply (Hrec (String c1 (String c2 EmptyString))); [done|].
    subst n. simpl. lia. }
  destruct r2 as [|c3 r3]; [by eapply Hstay|].
  destruct (PyStr.is_space3 c1 c2 c3); [|by eapply Hstay].
  apply (Hrec (String c1 (String c2 (String c3 EmptyString)))); [done|].
  subst n. simpl. lia.
Qed.

Lemma lstrip_chars s c : c ∈ Trace.chars (PyStr.lstrip s) → c ∈ Trace.chars s.
Proof.
  intros Hc. destruct (lstrip_spec s) as [[p Hp] _]. rewrite Hp.
  by apply chars_app.
Qed.

Lemma lstrip_first s c :
  Trace.first_char (PyStr.lstrip s) = Some c → PyStr.is_space c = false.
Proof. destruct (lstrip_spec s) as [_ Hfirst]. apply Hfirst. Qed.

Lemma rstrip_cons c r :
  PyStr.rstrip (String c r)
  = if PyStr.all_space (String c r) then EmptyString
    else String c (PyStr.rstrip r).
Proof. reflexivity. Qed.

Lemma rstrip_chars s c : c ∈ Trace.chars (PyStr.rstrip s) → c ∈ Trace.chars s.
Proof.
  induction s as [|d r IH]; [done|]. rewrite rstrip_cons.
  destruct (PyStr.all_space (String d r)); [by intros []%elem_of_nil|].
  simpl. intros [->|Hc]%elem_of_cons; [apply list_elem_of_here|].
  by apply list_elem_of_further, IH.
Qed.

Lemma rstrip_first s c :
  Trace.first_char (PyStr.rstrip s) = Some c → Trace.first_char s = Some c.
Proof.
  destruct s as [|d r]; [done|]. rewrite rstrip_cons.
  by destruct (PyStr.all_space (String d r)).
Qed.

Lemma rstrip_empty s :
  PyStr.rstrip s = EmptyString → PyStr.all_space s = true.
Proof.
  destruct s as [|d r]; [done|]. rewrite rstrip_cons.
  by destruct (PyStr.all_space (String d r)).
Qed.

Lemma rstrip_last s c :
  Trace.last_char (PyStr.rstrip s) = Some c → PyStr.is_space c = false.
Proof.
  induction s as [|d r IH]; [done|]. rewrite rstrip_cons.
  destruct (PyStr.all_space (String d r)) eqn:Hall; [done|].
  cbn [Trace.last_char].
  destruct (PyStr.rstrip r) as [|e r'] eqn:Hr; [|exact IH].
  intros [= <-]. apply rstrip_empty in Hr.
  destruct (PyStr.is_space d) eqn:Hd; [|done].
  unfold PyStr.all_space in Hall, Hr. cbn [PyStr.lstrip] in Hall.
  rewrite Hd in Hall. by rewrite Hr in Hall.
Qed.

(** X19. The labels the group callback reads from the configuration: there is
    always at least one, none contains a comma, and none begins or ends with
    whitespace. *)
Theorem configured_labels_are_clean env config_file tr ctx tr' l :
  cli env config_file tr = (inr ctx, tr') →
  labels ctx ≠ []
  ∧ (l ∈ labels ctx →
     ((","%char) ∉ Trace.chars l)
     ∧ (∀ c, Trace.first_char l = Some c → PyStr.is_space c = false)
     ∧ (∀ c, Trace.last_char l = Some c → PyStr.is_space c = false)).
Proof.
  unfold cli, bind, call, ret.
  destruct (load_config env config_file) as [e|config]; [done|].
  intros [= <- <-]. simpl. split.
  { intros Hnil%fmap_nil_inv. by apply split_nonempty in Hnil. }
  intros (piece & -> & Hpiece)%list_elem_of_fmap. split_and!.
  - intros Hc. apply (split_pieces_free _ _ _ Hpiece).
    by apply lstrip_chars, rstrip_chars.
  - intros c Hc. by eapply lstrip_first, rstrip_first.
  - intros c Hc. by eapply rstrip_last.
Qed.

Lemma configured_labels_are_clean_witness :
  [ "cat"; "big dog"; "" ] ≠ []
  ∧ ("big dog" ∈ [ "cat"; "big dog"; "" ] →
     ((","%char) ∉ Trace.chars "big dog")
     ∧ (∀ c, Trace.first_char "big dog" = Some c → PyStr.is_space c = false)
     ∧ (∀ c, Trace.last_char "big dog" = Some c → PyStr.is_space c = false)).
Proof.
  apply (configured_labels_are_clean
           (Trace.with_config quiet_env
              (λ _, inr {["labels" := " cat, big dog ,"]}))
           "taggy/config.ini" []
           {| defaults := {["labels" := " cat, big dog ,"]};
              labels := [ "cat"; "big dog"; "" ];
              face_cascade_path := None |}
           [call_load_config "taggy/config.ini"] "big dog").
  vm_compute. reflexivity.
Defined.

Lemma split_unseparated sep s :
  sep ∉ Trace.chars s → PyStr.split sep s = [s].
Proof.
  induction s as [|c r IH]; simpl; [done|]. intros Hsep.
  destruct (Ascii.eqb c sep) eqn:Hc.
  { apply Ascii.eqb_eq in Hc as ->. destruct Hsep. apply list_elem_of_here. }
  rewrite IH; [done|]. intros Hin. by apply Hsep, list_elem_of_further.
Qed.

Lemma split_app_separator sep s1 s2 :
  PyStr.split sep (s1 +:+ String sep s2)
  = PyStr.split sep s1 ++ PyStr.split sep s2.
Proof.
  induction s1 as [|c r IH]; simpl.
  { by rewrite Ascii.eqb_refl. }
  destruct (Ascii.eqb c sep); rewrite IH; [done|].
  destruct (PyStr.split sep r) as [|h t] eqn:Hr; [|done].
  by destruct (split_nonempty sep r).
Qed.

(** X21. The file name shown on a progress line, on a POSIX host (where
    [os.path.basename] is [posixpath.basename], the function [PyStr.basename]
    embeds): it never contains a slash, and of a path [<dir>/<name>] whose
    last part has no slash it is that part. *)
Theorem posix_basename_is_the_last_part dir name :
  (("/"%char) ∉ Trace.chars (PyStr.basename (dir +:+ "/" +:+ name)))
  ∧ (("/"%char) ∉ Trace.chars name →
     PyStr.basename (dir +:+ "/" +:+ name) = name).
Proof.
  unfold PyStr.basename. split.
  - destruct (last _) as [piece|] eqn:Hlast; [|apply not_elem_of_nil].
    simpl. eapply split_pieces_free, last_Some_elem_of, Hlast.
  - intros Hname. change (dir +:+ "/" +:+ name)
      with (dir +:+ String "/"%char name).
    rewrite split_app_separator, (split_unseparated _ name Hname).
    by rewrite last_snoc.
Qed.

Lemma posix_basename_is_the_last_part_witness :
  (("/"%char) ∉
     Trace.chars (PyStr.basename ("imgs/2024" +:+ "/" +:+ "a.jpg")))
  ∧ (("/"%char) ∉ Trace.chars "a.jpg" →
     PyStr.basename ("imgs/2024" +:+ "/" +:+ "a.jpg") = "a.jpg").
Proof. exact (posix_basename_is_the_last_part "imgs/2024" "a.jpg"). Defined.

(** ** Failures and results *)

(** X22. [duplicates] handles no exception: when one of its calls raises, the
    command ends with that exception and calls nothing further.  In
    particular a failure of [group_duplicates] leaves "Done grouping
    duplicates." unlogged. *)
Theorem duplicates_stops_at_first_failure env ctx images_path output_folder
    labels operation similarity_threshold face_cascade propose_best
    best_method e :
  (ImageTagger env (Trace.duplicates_tagger ctx labels face_cascade) = inl e →
   find_duplicates_cmd env ctx images_path output_folder labels operation
     similarity_threshold face_cascade propose_best best_method []
   = (inl e,
      take 3 (Trace.duplicates_prologue ctx images_path labels operation
                similarity_threshold face_cascade)))
  ∧ (ImageTagger env (Trace.duplicates_tagger ctx labels face_cascade)
     = inr tt →
     find_duplicates env (Trace.duplicates_tagger ctx labels face_cascade)
       images_path similarity_threshold = inl e →
     find_duplicates_cmd env ctx images_path output_folder labels operation
       similarity_threshold face_cascade propose_best best_method []
     = (inl e,
        Trace.duplicates_prologue ctx images_path labels operation
          similarity_threshold face_cascade))
  ∧ (∀ groups,
       ImageTagger env (Trace.duplicates_tagger ctx labels face_cascade)
       = inr tt →
       find_duplicates env (Trace.duplicates_tagger ctx labels face_cascade)
         images_path similarity_threshold = inr groups →
       groups ≠ [] →
       list_supported_image_files env images_path = inl e →
       find_duplicates_cmd env ctx images_path output_folder labels operation
         similarity_threshold face_cascade propose_best best_method []
       = (inl e,
          Trace.duplicates_prologue ctx images_path labels operation
            similarity_threshold face_cascade
          ++ [ logger_info [Txt "Found "; Int (Z.of_nat (length groups));
                            Txt " duplicate groups."];
               call_list_supported_image_files images_path ]))
  ∧ (∀ groups all_images,
       ImageTagger env (Trace.duplicates_tagger ctx labels face_cascade)
       = inr tt →
       find_duplicates env (Trace.duplicates_tagger ctx labels face_cascade)
         images_path similarity_threshold = inr groups →
       groups ≠ [] →
       list_supported_image_files env images_path = inr all_images →
       group_duplicates env
         (Trace.duplicates_tagger ctx labels face_cascade)
         (Trace.group_args ctx images_path output_folder operation
            propose_best best_method groups all_images) = inl e →
       find_duplicates_cmd env ctx images_path output_folder labels operation
         similarity_threshold face_cascade propose_best best_method []
       = (inl e,
          Trace.duplicates_prologue ctx images_path labels operation
            similarity_threshold face_cascade
          ++ [ logger_info [Txt "Found "; Int (Z.of_nat (length groups));
                            Txt " duplicate groups."];
               call_list_supported_image_files images_path;
               call_group_duplicates
                 (Trace.group_args ctx images_path output_folder operation
                    propose_best best_method groups all_images) ])).
Proof.
  unfold Trace.duplicates_tagger, Trace.group_args. split_and!.
  - intros Htagger. step_run. by rewrite Htagger.
  - intros Htagger Hfind. step_run. by rewrite Htagger, Hfind.
  - intros groups Htagger Hfind Hne Hlist. step_run.
    rewrite Htagger, Hfind. destruct groups; [done|]. simpl.
    by rewrite Hlist.
  - intros groups all_images Htagger Hfind Hne Hlist Hgroup. step_run.
    rewrite Htagger, Hfind. destruct groups; [done|]. simpl.
    rewrite Hlist. simpl. by rewrite Hgroup.
Qed.

Lemma duplicates_stops_at_first_failure_witness :
  find_duplicates_cmd broken_env empty_ctx "imgs" None [] None (9 # 10) None
    false "advanced" []
  = (inl (Raised "OSError"),
     take 3 (Trace.duplicates_prologue empty_ctx "imgs" [] None (9 # 10)
               None)).
Proof.
  destruct (duplicates_stops_at_first_failure broken_env empty_ctx "imgs"
              None [] None (9 # 10) None false "advanced" (Raised "OSError"))
    as [Hfirst _].
  apply Hfirst. reflexivity.
Defined.

Lemma emit_all evs tr :
  foldr (λ e k, emit e ;;; k) (ret tt) evs tr = (inr tt, tr ++ evs).
Proof.
  revert tr. induction evs as [|e evs IH]; intros tr; simpl.
  { unfold ret. by rewrite app_nil_r. }
  unfold bind, emit. simpl. rewrite IH. by rewrite <- app_assoc.
Qed.

(** X15. When [search] finds something it prints a header naming the requested
    [top_k] and then one line per result, in the order of the results and
    numbered from 1, and returns. *)
Theorem search_prints_one_line_per_result env images_path query top_k
    output_folder operation results tr :
  ImageTagger env Trace.search_tagger = inr tt →
  search_images env Trace.search_tagger
    {| sr_query := query; sr_images_path := images_path; sr_top_k := top_k;
       sr_output_path := output_folder; sr_operation := operation |}
  = inr results →
  results ≠ [] →
  search_images_cmd env images_path query top_k output_folder operation tr
  = (inr tt,
     tr ++ [ echo [Txt "Searching images in "; Txt images_path;
                   Txt " for query='"; Txt query; Txt "'..."];
             call_ImageTagger Trace.search_tagger;
             call_search_images
               {| sr_query := query; sr_images_path := images_path;
                  sr_top_k := top_k; sr_output_path := output_folder;
                  sr_operation := operation |};
             echo [Txt "Top "; Int top_k; Txt " results for '"; Txt query;
                   Txt "':"] ]
        ++ result_lines results)
  ∧ length (result_lines results) = length results
  ∧ ∀ i r, results !! i = Some r →
      result_lines results !! i
      = Some (echo [Int (Z.of_nat i + 1); Txt ". "; Txt r.1;
                    Txt " => similarity="; Fixed4 r.2]).
Proof.
  intros Htagger Hsearch Hne. split_and!.
  - unfold search_images_cmd, bind, call, emit. cbn -[result_lines].
    fold Trace.search_tagger. rewrite Htagger, Hsearch.
    destruct results as [|r rs]; [done|].
    cbn -[result_lines]. rewrite emit_all. by rewrite <- !app_assoc.
  - unfold result_lines. apply length_imap.
  - intros i r Hr. unfold result_lines. rewrite list_lookup_imap, Hr. done.
Qed.

Lemma search_prints_one_line_per_result_witness :
  fst (search_images_cmd busy_env "imgs" "cat" 5 None (Some "copy") [])
  = inr tt
  ∧ length (result_lines [("imgs/a.jpg", 7 # 10)]) = 1%nat.
Proof.
  destruct (search_prints_one_line_per_result busy_env "imgs" "cat" 5 None
              (Some "copy") [("imgs/a.jpg", 7 # 10)] [])
    as (Htrace & Hlength & _); [reflexivity|reflexivity|done|].
  rewrite Htrace. split; [reflexivity|exact Hlength].
Defined.

(** X12. In every [duplicates] run the grouping call works with the
    [--operation] of the command line, one of the three choices, or, without
    it, with the value of the configuration key ["operation"] as it stands,
    or with [symlink]; and it is given the listing of all images exactly when
    that operation is [copy] or [symlink]. *)
Theorem duplicates_operation_and_listing env group_argv argv a :
  a ∈ group_calls (snd (run env group_argv duplicates argv)) →
  ∃ config,
    load_config env (Trace.config_file_of group_argv) = inr config
    ∧ gd_operation a
      = match Trace.given ["--operation"; "-op"] argv with
        | Some op => op
        | None => default "symlink" (config !! "operation")
        end
    ∧ (∀ op, Trace.given ["--operation"; "-op"] argv = Some op →
             op ∈ ["copy"; "symlink"; "move"])
    ∧ (is_Some (gd_all_images a) ↔ gd_operation a ∈ ["copy"; "symlink"]).
Proof.
  intros (ev & Hev & Ha)%list_elem_of_omap.
  apply run_duplicates_events in Hev
    as [[[? ->]|[? ->]]|(config & q & t' & bm & Hconfig & _ & _ & Hop & _ & _ & Hev)];
    [done..|].
  destruct ev; simplify_eq/=.
  destruct Hev as (_ & _ & Hoperation & _ & _ & Hall).
  exists config. rewrite Hoperation. split_and!; try done.
  unfold resolve_operation.
  destruct (Trace.given ["--operation"; "-op"] argv) as [op|] eqn:Hgiven;
    [|done].
  destruct op as [|? ?]; [|done].
  specialize (Hop _ eq_refl).
  repeat (apply elem_of_cons in Hop as [[=]|Hop]). by apply elem_of_nil in Hop.
Qed.

Lemma duplicates_operation_and_listing_witness :
  ∃ config,
    load_config (Trace.with_config busy_env
                   (λ _, inr {["operation" := "hardlink"]}))
      (Trace.config_file_of []) = inr config
    ∧ "hardlink"
      = match Trace.given ["--operation"; "-op"] [("-i", "imgs")] with
        | Some op => op
        | None => default "symlink" (config !! "operation")
        end
    ∧ (∀ op, Trace.given ["--operation"; "-op"] [("-i", "imgs")] = Some op →
             op ∈ ["copy"; "symlink"; "move"])
    ∧ (is_Some (@None (list string)) ↔ "hardlink" ∈ ["copy"; "symlink"]).
Proof.
  apply (duplicates_operation_and_listing
           (Trace.with_config busy_env
              (λ _, inr {["operation" := "hardlink"]}))
           [] [("-i", "imgs")]
           {| gd_duplicates := [["imgs/a.jpg"; "imgs/b.jpg"]];
              gd_output_folder := "imgs/taggy_output/duplicates/";
              gd_operation := "hardlink";
              gd_propose_best := false;
              gd_all_images := None;
              gd_best_scoring_method := "advanced" |}).
  vm_compute. apply list_elem_of_here.
Defined.

(** ** Fallbacks of [duplicates] on whole runs *)

(** A run with a readable configuration and a command line that passes
    option processing enters its command function. *)
Lemma run_enters env group_argv cmd argv config values :
  (∀ kv, kv ∈ group_argv → kv.1 ∈ ["--config-file"; "-c"]) →
  load_config env (Trace.config_file_of group_argv) = inr config →
  parse_command (runtime env) (params_of cmd) argv = Values values →
  run env group_argv cmd argv
  = invoke env (Trace.context_of config) cmd values
      [call_load_config (Trace.config_file_of group_argv)].
Proof.
  intros Hnames Hconfig Hvalues. unfold run, main.
  rewrite (parse_command_cli_params _ _ Hnames).
  unfold cli, bind, call, ret. simpl. rewrite Hconfig. simpl.
  by rewrite Hvalues.
Qed.

(** Once entered, [duplicates] prints the operation and the labels it works
    with, then builds the tagger. *)
Lemma duplicates_opening env ctx images_path output_folder labels operation
    similarity_threshold face_cascade propose_best best_method tr :
  ∃ rest,
    snd (find_duplicates_cmd env ctx images_path output_folder labels
           operation similarity_threshold face_cascade propose_best
           best_method tr)
    = tr ++ [ echo [Txt "Operation: "; Txt (resolve_operation ctx operation);
                    Txt ", Labels: "; Strs (resolve_labels ctx labels)];
              echo [Txt "Finding duplicates in "; Txt images_path;
                    Txt " with threshold="; Num similarity_threshold;
                    Txt " ..."];
              call_ImageTagger
                (Trace.duplicates_tagger ctx labels face_cascade) ]
         ++ rest.
Proof.
  unfold find_duplicates_cmd, bind, emit, call, ret. simpl.
  destruct (ImageTagger env _); simpl.
  { exists []. by rewrite <- !app_assoc. }
  destruct (find_duplicates env _ _ _) as [|[|g gs]]; simpl.
  1,2: eexists; rewrite <- !app_assoc; simpl; reflexivity.
  destruct (list_supported_image_files env _); simpl.
  { eexists; rewrite <- !app_assoc; simpl; reflexivity. }
  destruct (group_duplicates env _ _); simpl.
  all: eexists; rewrite <- !app_assoc; simpl; reflexivity.
Qed.

Lemma duplicates_builds_one_tagger env ctx images_path output_folder labels
    operation similarity_threshold face_cascade propose_best best_method
    config_file :
  tagger_calls
    (snd (find_duplicates_cmd env ctx images_path output_folder labels
            operation similarity_threshold face_cascade propose_best
            best_method [call_load_config config_file]))
  = [Trace.duplicates_tagger ctx labels face_cascade].
Proof.
  rewrite (within_framed _ _
             (within_find_duplicates_cmd env ctx images_path output_folder
                labels operation similarity_threshold face_cascade
                propose_best best_method)).
  cbn [snd]. unfold tagger_calls. rewrite omap_app. cbn [omap app].
  unfold find_duplicates_cmd, bind, emit, call, ret. simpl.
  repeat case_match; simplify_eq/=; reflexivity.
Qed.

Lemma resolve_given_operation ctx (operation : option string) :
  (∀ op, operation = Some op → op ∈ ["copy"; "symlink"; "move"]) →
  resolve_operation ctx operation
  = match operation with
    | Some op => op
    | None => default "symlink" (defaults ctx !! "operation")
    end.
Proof.
  intros Hchoice. unfold resolve_operation.
  destruct operation as [op|]; [|done].
  destruct op as [|? ?]; [|done].
  specialize (Hchoice _ eq_refl).
  repeat (apply elem_of_cons in Hchoice as [[=]|Hchoice]).
  by apply elem_of_nil in Hchoice.
Qed.

(** C10. In every [duplicates] run that enters the command, an omitted
    [--operation] falls back to the configuration key ["operation"], or to
    ["symlink"] without it, whatever labels are given; and omitted [--labels]
    fall back to the configuration key ["labels"] split on commas with every
    piece stripped, or to ["random"] and ["general"] without it, whatever
    operation is given.  The first message of the command shows both values,
    the tagger is built with the labels and every grouping call works with
    the operation. *)
Theorem omitted_operation_or_labels_fall_back env group_argv argv config
    values :
  (∀ kv, kv ∈ group_argv → kv.1 ∈ ["--config-file"; "-c"]) →
  load_config env (Trace.config_file_of group_argv) = inr config →
  parse_command (runtime env) duplicates_params argv = Values values →
  snd (run env group_argv duplicates argv) !! 1%nat
  = Some (echo [ Txt "Operation: ";
                 Txt match Trace.given ["--operation"; "-op"] argv with
                     | Some op => op
                     | None => default "symlink" (config !! "operation")
                     end;
                 Txt ", Labels: ";
                 Strs match Trace.all_given ["--labels"; "-l"] argv with
                      | [] =>
                          PyStr.strip <$>
                            PyStr.split ","%char
                              (default "random, general" (config !! "labels"))
                      | l :: ls => l :: ls
                      end ])
  ∧ tagger_calls (snd (run env group_argv duplicates argv))
    = [ {| ta_model_name := "CLIP";
           ta_face_cascade_path :=
             Some (resolve_face_cascade (Trace.context_of config)
                     (Trace.given ["--face-cascade"] argv));
           ta_labels :=
             Some match Trace.all_given ["--labels"; "-l"] argv with
                  | [] =>
                      PyStr.strip <$>
                        PyStr.split ","%char
                          (default "random, general" (config !! "labels"))
                  | l :: ls => l :: ls
                  end |} ]
  ∧ Forall (λ a, gd_operation a
                 = match Trace.given ["--operation"; "-op"] argv with
                   | Some op => op
                   | None => default "symlink" (config !! "operation")
                   end)
      (group_calls (snd (run env group_argv duplicates argv)))
  ∧ (config !! "labels" = None →
     PyStr.strip <$>
       PyStr.split ","%char (default "random, general" (config !! "labels"))
     = ["random"; "general"]).
Proof.
  intros Hnames Hconfig Hvalues.
  rewrite (run_enters env group_argv duplicates argv config values Hnames
             Hconfig Hvalues).
  apply parse_command_values in Hvalues as [_ Hvalues].
  apply parse_duplicates_inv in Hvalues
    as (p & vo & vop & t & vfc & bm & -> & Hp & Hexists & Hvo & Hvop
        & Hchoice & Ht & Hvfc & Hbm).
  cbn [invoke]. rewrite Hvo, Hvop, Hvfc in *.
  assert (Hop : resolve_operation (Trace.context_of config)
                  (Trace.given ["--operation"; "-op"] argv)
                = match Trace.given ["--operation"; "-op"] argv with
                  | Some op => op
                  | None => default "symlink" (config !! "operation")
                  end).
  { by rewrite resolve_given_operation. }
  assert (Hlabels : resolve_labels (Trace.context_of config)
                      (Trace.all_given ["--labels"; "-l"] argv)
                    = match Trace.all_given ["--labels"; "-l"] argv with
                      | [] =>
                          PyStr.strip <$>
                            PyStr.split ","%char
                              (default "random, general" (config !! "labels"))
                      | l :: ls => l :: ls
                      end).
  { by destruct (Trace.all_given ["--labels"; "-l"] argv). }
  split_and!.
  - destruct (duplicates_opening env (Trace.context_of config) p
                (Trace.given ["--output-folder"; "-o"] argv)
                (Trace.all_given ["--labels"; "-l"] argv)
                (Trace.given ["--operation"; "-op"] argv) t
                (Trace.given ["--face-cascade"] argv)
                (bool_decide
                   (Trace.all_given ["--propose-best"; "-b"] argv ≠ []))
                bm [call_load_config (Trace.config_file_of group_argv)])
      as [rest ->].
    cbn [app lookup list_lookup]. by rewrite Hop, Hlabels.
  - rewrite duplicates_builds_one_tagger. unfold Trace.duplicates_tagger.
    by rewrite Hlabels.
  - apply Forall_forall. intros a (ev & Hev & Ha)%list_elem_of_omap.
    eapply within_events in Hev; [|apply within_find_duplicates_cmd].
    destruct Hev as [->%list_elem_of_singleton|Hev]; [done|].
    destruct ev; simplify_eq/=.
    destruct Hev as (_ & _ & -> & _). exact Hop.
  - by intros ->.
Qed.

Lemma omitted_operation_or_labels_fall_back_witness :
  snd (run configured_env [] duplicates [("-i", "imgs"); ("-l", "bird")])
    !! 1%nat
  = Some (echo [Txt "Operation: "; Txt "move"; Txt ", Labels: ";
                Strs ["bird"]])
  ∧ snd (run configured_env [] duplicates [("-i", "imgs"); ("-op", "copy")])
      !! 1%nat
    = Some (echo [Txt "Operation: "; Txt "copy"; Txt ", Labels: ";
                  Strs ["cat"; "big dog"; ""]]).
Proof.
  split.
  - destruct (omitted_operation_or_labels_fall_back configured_env [] 
                [("-i", "imgs"); ("-l", "bird")]
                (<["operation" := "move"]>
                   (<["labels" := " cat, big dog ,"]> ∅))
                [VStr "imgs"; VNone; VTuple ["bird"]; VNone; VFloat (9 # 10);
                 VNone; VBool false; VStr "advanced"])
      as [Hecho _]; [|reflexivity|reflexivity|exact Hecho].
    intros kv Hkv. by apply elem_of_nil in Hkv.
  - destruct (omitted_operation_or_labels_fall_back configured_env [] 
                [("-i", "imgs"); ("-op", "copy")]
                (<["operation" := "move"]>
                   (<["labels" := " cat, big dog ,"]> ∅))
                [VStr "imgs"; VNone; VTuple []; VStr "copy"; VFloat (9 # 10);
                 VNone; VBool false; VStr "advanced"])
      as [Hecho _]; [|reflexivity|reflexivity|exact Hecho].
    intros kv Hkv. by apply elem_of_nil in Hkv.
Defined.

Lemma operation_of_choice (op : string) :
  op ∈ ["copy"; "symlink"; "move"] → is_Some (Host.operation_of op).
Proof.
  intros Hop. repeat (apply elem_of_cons in Hop as [->|Hop]);
    [by eexists..|by apply elem_of_nil in Hop].
Qed.

Lemma policy_of_choice (name : string) :
  name ∈ ["advanced"; "laplacian"] → is_Some (Host.policy_of name).
Proof.
  intros Hin. repeat (apply elem_of_cons in Hin as [->|Hin]);
    [by eexists..|by apply elem_of_nil in Hin].
Qed.

(** On a machine with images in the folder, [duplicates] returns normally
    whenever the operation and the scoring method it resolved are ones the
    engine knows. *)
Lemma duplicates_returns_on_host m ctx images_path output_folder labels
    operation similarity_threshold face_cascade propose_best best_method tr :
  Host.images m images_path ≠ [] →
  resolve_operation ctx operation ∈ ["copy"; "symlink"; "move"] →
  best_method ∈ ["advanced"; "laplacian"] →
  fst (find_duplicates_cmd (Host.env m) ctx images_path output_folder labels
         operation similarity_threshold face_cascade propose_best best_method
         tr) = inr tt.
Proof.
  intros Himages [op Hop]%operation_of_choice [policy Hpolicy]%policy_of_choice.
  unfold find_duplicates_cmd, bind, emit, call, ret.
  cbn [Host.env ImageTagger find_duplicates list_supported_image_files
       group_duplicates fst snd].
  unfold Host.ImageTagger, Host.find_duplicates.
  destruct (Host.images m images_path) as [|id ids]; [done|].
  destruct (Engine.cluster _ _ _) as [|g gs]; [done|].
  unfold Host.group_duplicates, Host.organize, Host.plan.
  cbn [gd_operation gd_best_scoring_method].
  by rewrite Hop, Hpolicy.
Qed.

(** C7. On a machine that runs the engine of the design document, a
    [duplicates] run with no [--face-cascade] on the command line and no
    [face_cascade_path] in the configuration proceeds without error whenever
    its other inputs are valid: the command line passes option processing,
    the folder holds images, and the operation is one of the three.  The one
    tagger of the run is built with [face_cascade_path=None]; its [advanced]
    score is the weighted sum of sharpness and resolution alone, and with it
    the plan of every grouping call of the run is computed. *)
Theorem no_face_cascade_run_proceeds m group_argv argv config values
    images_path :
  (∀ kv, kv ∈ group_argv → kv.1 ∈ ["--config-file"; "-c"]) →
  Host.config m (Trace.config_file_of group_argv) = inr config →
  config !! "face_cascade_path" = None →
  Trace.given ["--face-cascade"] argv = None →
  parse_command (Host.options m) duplicates_params argv = Values values →
  Trace.given ["--images-path"; "-i"] argv = Some images_path →
  Host.images m images_path ≠ [] →
  (Trace.given ["--operation"; "-op"] argv = None →
   default "symlink" (config !! "operation") ∈ ["copy"; "symlink"; "move"]) →
  fst (run (Host.env m) group_argv duplicates argv) = inr tt
  ∧ ∃ tagger,
      tagger_calls (snd (run (Host.env m) group_argv duplicates argv))
      = [tagger]
      ∧ ta_face_cascade_path tagger = Some None
      ∧ (∀ image,
           Host.scorer m tagger Engine.advanced image
           = (Engine.w_sharpness (Host.weights m)
              * Engine.sharpness (Host.vision m) image
              + Engine.w_resolution (Host.weights m)
                * Engine.resolution (Host.vision m) image)%Q)
      ∧ ∀ a,
          a ∈ group_calls (snd (run (Host.env m) group_argv duplicates argv)) →
          gd_best_scoring_method a = "advanced" →
          Host.plan m tagger a
          = Some (Engine.make_plan (Host.label_of m) (gd_propose_best a)
                    (λ image,
                       (Engine.w_sharpness (Host.weights m)
                        * Engine.sharpness (Host.vision m) image
                        + Engine.w_resolution (Host.weights m)
                          * Engine.resolution (Host.vision m) image)%Q)
                    (gd_duplicates a)).
Proof.
  intros Hnames Hconfig Hnone Hfc Hvalues Hpath Himages Hdefault.
  rewrite (run_enters (Host.env m) group_argv duplicates argv config values
             Hnames Hconfig Hvalues).
  apply parse_command_values in Hvalues as [_ Hvalues].
  apply parse_duplicates_inv in Hvalues
    as (p & vo & vop & t & vfc & bm & -> & Hp & Hexists & Hvo & Hvop
        & Hchoice & Ht & Hvfc & Hbm).
  cbn [invoke]. rewrite Hvo, Hvop, Hvfc in *. rewrite Hfc.
  rewrite Hpath in Hp. injection Hp as <-.
  split.
  - apply duplicates_returns_on_host; [done| |].
    + rewrite resolve_given_operation by done.
      destruct (Trace.given ["--operation"; "-op"] argv) as [op|];
        [by apply Hchoice|by apply Hdefault].
    + destruct (Trace.given ["--best-method"] argv) as [raw|].
      * by destruct Hbm as [-> ?].
      * subst bm. apply list_elem_of_here.
  - eexists. split; [apply duplicates_builds_one_tagger|].
    unfold Trace.duplicates_tagger, resolve_face_cascade. cbn.
    rewrite Hnone. split; [done|]. split; [done|].
    intros a _ Hmethod. unfold Host.plan. by rewrite Hmethod.
Qed.

Lemma no_face_cascade_run_proceeds_witness :
  fst (run (Host.env studio) [] duplicates [("-i", "imgs"); ("-b", "")])
  = inr tt.
Proof.
  destruct (no_face_cascade_run_proceeds studio []
              [("-i", "imgs"); ("-b", "")] ∅
              [VStr "imgs"; VNone; VTuple []; VNone; VFloat (9 # 10);
               VNone; VBool true; VStr "advanced"] "imgs")
    as [Hreturns _]; [|reflexivity..|done| |exact Hreturns].
  - intros kv Hkv. by apply elem_of_nil in Hkv.
  - intros _. apply list_elem_of_further, list_elem_of_here.
Defined.

(** Without a cascade the sharpest image of a group is proposed; with one,
    the image with a face. *)
Example studio_proposes_the_sharpest :
  Engine.chosen_best <$>
    default []
      (Host.plan studio
         {| ta_model_name := "CLIP"; ta_face_cascade_path := Some None;
            ta_labels := Some ["random"; "general"] |}
         {| gd_duplicates := [["img5"; "img4"]; ["img3"; "img2"; "img1"]];
            gd_output_folder := "imgs/taggy_output/duplicates/";
            gd_operation := "symlink";
            gd_propose_best := true;
            gd_all_images := Some five_ids;
            gd_best_scoring_method := "advanced" |})
  = [Some "img4"; Some "img2"]
  ∧ Engine.chosen_best <$>
      default []
        (Host.plan studio
           {| ta_model_name := "CLIP";
              ta_face_cascade_path := Some (Some "faces.xml");
              ta_labels := Some ["random"; "general"] |}
           {| gd_duplicates := [["img5"; "img4"]; ["img3"; "img2"; "img1"]];
              gd_output_folder := "imgs/taggy_output/duplicates/";
              gd_operation := "symlink";
              gd_propose_best := true;
              gd_all_images := Some five_ids;
              gd_best_scoring_method := "advanced" |})
    = [Some "img4"; Some "img3"].
Proof. split; vm_compute; reflexivity. Qed.
